(** * ClawZenMux: routing engine, directive override and request deduplication

    A shallow embedding of the TypeScript sources

      - src/router/rules.ts      (classifyByRules, calibrateConfidence)
      - src/router/selector.ts   (selectModel)
      - src/router/index.ts      (route)
      - src/proxy.ts             (proxyRequest, directive helpers)
      - src/dedup.ts             (RequestDeduplicator)

    Conventions of the embedding.

      - A JavaScript string is the list of its UTF-16 code units ([jsstring]).
      - A JavaScript number is a real number in the modules [Router],
        [Classifier], [RouterAsync] and [Models], which carry the statements
        that rounding does not affect.  [Router64] is the rule-based
        classifier over IEEE-754 binary64 ([Binary64], on the [SpecFloat]
        of the Standard Library), with rounding, NaN and the infinities.
      - A Buffer is a list of bytes.
      - [Date.now()] is an explicit argument [now] of every operation that
        reads the clock.
      - A regular-expression literal is transcribed as a term of [regex] and
        run by the backtracking matcher [rmatch]. *)

From Stdlib Require Import Reals Lra Lia ZArith NArith List Bool Ascii String.
From Stdlib Require Import Strings.Byte DecimalString.
From Stdlib Require Floats.SpecFloat.
From stdpp Require Import base option list gmap.

Set Default Proof Using "Type".

(** ** JavaScript strings *)

Module JS.

Definition jsstring : Type := list N.

(** ASCII literals of the source, as code units. *)
Definition lit (s : string) : jsstring :=
  List.map N_of_ascii (list_ascii_of_string s).

Definition between (lo hi c : N) : bool := (lo <=? c)%N && (c <=? hi)%N.

Definition isDigit (c : N) : bool := between 48 57 c.
Definition isUpper (c : N) : bool := between 65 90 c.
Definition isLower (c : N) : bool := between 97 122 c.

(** [\w] without the [u] flag: [[A-Za-z0-9_]]. *)
Definition isWordChar (c : N) : bool :=
  isDigit c || isUpper c || isLower c || (c =? 95)%N.

(** [\s], and the characters removed by [String.prototype.trim]:
    WhiteSpace and LineTerminator of ECMA-262. *)
Definition isSpace (c : N) : bool :=
  between 9 13 c || (c =? 32)%N || (c =? 160)%N || (c =? 5760)%N
  || between 8192 8202 c || (c =? 8232)%N || (c =? 8233)%N
  || (c =? 8239)%N || (c =? 8287)%N || (c =? 12288)%N || (c =? 65279)%N.

(** LineTerminator: the characters [.] does not match. *)
Definition isLineTerminator (c : N) : bool :=
  (c =? 10)%N || (c =? 13)%N || (c =? 8232)%N || (c =? 8233)%N.

(** The class [[ \t]]. *)
Definition isBlank (c : N) : bool := (c =? 32)%N || (c =? 9)%N.

(** A pattern character under the [i] flag (no [u] flag).  Canonicalize maps
    a code unit to its upper case unless that would move a non-ASCII unit
    into ASCII, so an ASCII letter of the pattern matches exactly its two
    ASCII cases; any other ASCII pattern character matches only itself. *)
Definition asciiUpper (c : N) : N := if isLower c then (c - 32)%N else c.

Definition eqCI (p c : N) : bool :=
  (c <? 128)%N && (asciiUpper p =? asciiUpper c)%N.

(** [String.prototype.includes]. *)
Fixpoint isPrefix (p s : jsstring) : bool :=
  match p, s with
  | [], _ => true
  | _ :: _, [] => false
  | a :: p', b :: s' => (a =? b)%N && isPrefix p' s'
  end.

Fixpoint includes (s p : jsstring) : bool :=
  isPrefix p s ||
  match s with
  | [] => false
  | _ :: s' => includes s' p
  end.

(** [String.prototype.trim]. *)
Fixpoint trimStart (s : jsstring) : jsstring :=
  match s with
  | [] => []
  | c :: s' => if isSpace c then trimStart s' else s
  end.

Definition trimEnd (s : jsstring) : jsstring := rev (trimStart (rev s)).

Definition trim (s : jsstring) : jsstring := trimEnd (trimStart s).

(** [Array.prototype.join]. *)
Fixpoint join (sep : jsstring) (l : list jsstring) : jsstring :=
  match l with
  | [] => []
  | [x] => x
  | x :: l' => x ++ sep ++ join sep l'
  end.

End JS.

(** ** Regular expressions *)

Module Regex.
Import JS.

(** The fragment of the regular-expression syntax used by the sources.
    [Chr p] is a single code unit satisfying [p] (a literal, a class or
    [.]); [WordB] is the assertion [\b]. *)
Inductive regex : Type :=
| Eps
| Chr (p : N -> bool)
| Seq (r1 r2 : regex)
| Alt (r1 r2 : regex)
| Star (r : regex)
| WordB.

Definition isWordOpt (o : option N) : bool :=
  match o with
  | Some c => isWordChar c
  | None => false
  end.

(** A matcher state is the code unit before the current position (for
    [\b]) and the rest of the input. *)
Definition mstate : Type := option N * jsstring.

(** Greedy iteration: one more round first, then stop.  A round that
    consumes nothing is rejected, as in ECMA-262. *)
Fixpoint star_iter (step : option N -> jsstring -> list mstate) (fuel : nat)
    (prev : option N) (s : jsstring) : list mstate :=
  match fuel with
  | O => [(prev, s)]
  | S fuel' =>
      List.flat_map
        (fun st : mstate =>
           if (length (snd st) <? length s)%nat
           then star_iter step fuel' (fst st) (snd st)
           else [])
        (step prev s)
      ++ [(prev, s)]
  end.

(** All the ways [r] matches a prefix of [s], in backtracking priority
    order; the head of the list is the match JavaScript reports. *)
Fixpoint rmatch (r : regex) (prev : option N) (s : jsstring) : list mstate :=
  match r with
  | Eps => [(prev, s)]
  | Chr p =>
      match s with
      | c :: s' => if p c then [(Some c, s')] else []
      | [] => []
      end
  | Seq r1 r2 =>
      List.flat_map (fun st : mstate => rmatch r2 (fst st) (snd st)) (rmatch r1 prev s)
  | Alt r1 r2 => rmatch r1 prev s ++ rmatch r2 prev s
  | Star r1 => star_iter (rmatch r1) (length s) prev s
  | WordB =>
      if xorb (isWordOpt prev) (isWordOpt (head s)) then [(prev, s)] else []
  end.

(** Derived forms. *)
Definition Plus (r : regex) : regex := Seq r (Star r).
Definition AtLeast2 (r : regex) : regex := Seq r (Seq r (Star r)).

Fixpoint LitCI (w : jsstring) : regex :=
  match w with
  | [] => Eps
  | c :: w' => Seq (Chr (eqCI c)) (LitCI w')
  end.

Fixpoint AltOf (rs : list regex) : regex :=
  match rs with
  | [] => Chr (fun _ => false)
  | [r] => r
  | r :: rs' => Alt r (AltOf rs')
  end.

Definition Dot : regex := Chr (fun c => negb (isLineTerminator c)).
Definition Digit : regex := Chr isDigit.
Definition Space : regex := Chr isSpace.

(** The first match starting exactly at the current position. *)
Definition matchHere (r : regex) (prev : option N) (s : jsstring) : option jsstring :=
  snd <$> head (rmatch r prev s).

(** [RegExp.prototype.exec] without the [g] flag: the leftmost position
    with a match.  The result is the text before the match, the matched
    text and the text after it. *)
Fixpoint execFrom (r : regex) (prev : option N) (s : jsstring)
  : option (jsstring * jsstring * jsstring) :=
  match matchHere r prev s with
  | Some rest => Some ([], take (length s - length rest) s, rest)
  | None =>
      match s with
      | [] => None
      | c :: s' =>
          match execFrom r (Some c) s' with
          | Some (pre, m, rest) => Some (c :: pre, m, rest)
          | None => None
          end
      end
  end.

Definition exec (r : regex) (s : jsstring) := execFrom r None s.

(** [RegExp.prototype.test]. *)
Definition test (r : regex) (s : jsstring) : bool :=
  match exec r s with Some _ => true | None => false end.

(** [s.replace(r, rep)] with the [g] flag and a literal replacement: every
    match, left to right and not overlapping, becomes [rep].  [skip] is
    the number of code units of the current match still to be dropped. *)
Fixpoint replaceFrom (r : regex) (rep : jsstring) (skip : nat)
    (prev : option N) (s : jsstring) : jsstring :=
  match s with
  | [] =>
      match skip, matchHere r prev [] with
      | O, Some _ => rep
      | _, _ => []
      end
  | c :: s' =>
      match skip with
      | S k => replaceFrom r rep k (Some c) s'
      | O =>
          match matchHere r prev s with
          | Some rest =>
              match (length s - length rest)%nat with
              | O => rep ++ c :: replaceFrom r rep 0 (Some c) s'
              | S k => rep ++ replaceFrom r rep k (Some c) s'
              end
          | None => c :: replaceFrom r rep 0 (Some c) s'
          end
      end
  end.

Definition replaceAll (r : regex) (rep : jsstring) (s : jsstring) : jsstring :=
  replaceFrom r rep 0 None s.

(** [(s.match(r) || []).length] with the [g] flag: the number of matches. *)
Fixpoint countFrom (r : regex) (skip : nat) (prev : option N) (s : jsstring) : nat :=
  match s with
  | [] =>
      match skip, matchHere r prev [] with
      | O, Some _ => 1
      | _, _ => 0
      end
  | c :: s' =>
      match skip with
      | S k => countFrom r k (Some c) s'
      | O =>
          match matchHere r prev s with
          | Some rest =>
              match (length s - length rest)%nat with
              | O => S (countFrom r 0 (Some c) s')
              | S k => S (countFrom r k (Some c) s')
              end
          | None => countFrom r 0 (Some c) s'
          end
      end
  end.

Definition countMatches (r : regex) (s : jsstring) : nat := countFrom r 0 None s.

End Regex.

(** ** The router: src/router/types.ts *)

Module Router.
Import JS Regex.

Local Open Scope R_scope.

Inductive Tier : Type := SIMPLE | MEDIUM | COMPLEX | REASONING.

Definition tierName (t : Tier) : jsstring :=
  match t with
  | SIMPLE => lit "SIMPLE"
  | MEDIUM => lit "MEDIUM"
  | COMPLEX => lit "COMPLEX"
  | REASONING => lit "REASONING"
  end.

Inductive Method : Type := rules | llm.

Record ScoringResult : Type := {
  score : R;
  tier : option Tier;
  confidence : R;
  signals : list jsstring
}.

Record RoutingDecision : Type := {
  rd_model : jsstring;
  rd_tier : Tier;
  rd_confidence : R;
  rd_method : Method;
  rd_reasoning : jsstring;
  costEstimate : R;
  baselineCost : R;
  savings : R
}.

Record TierConfig : Type := {
  primary : jsstring;
  fallback : list jsstring
}.

Record TokenCountThresholds : Type := { tc_simple : R; tc_complex : R }.

Record TierBoundaries : Type := {
  simpleMedium : R;
  mediumComplex : R;
  complexReasoning : R
}.

Record ScoringConfig : Type := {
  tokenCountThresholds : TokenCountThresholds;
  codeKeywords : list jsstring;
  reasoningKeywords : list jsstring;
  simpleKeywords : list jsstring;
  technicalKeywords : list jsstring;
  creativeKeywords : list jsstring;
  imperativeVerbs : list jsstring;
  constraintIndicators : list jsstring;
  outputFormatKeywords : list jsstring;
  referenceKeywords : list jsstring;
  negationKeywords : list jsstring;
  domainSpecificKeywords : list jsstring;
  dimensionWeights : gmap jsstring R;
  tierBoundaries : TierBoundaries;
  confidenceSteepness : R;
  confidenceThreshold : R
}.

Record OverridesConfig : Type := {
  maxTokensForceComplex : R;
  structuredOutputMinTier : Tier;
  ambiguousDefaultTier : Tier
}.

(** [Record<Tier, TierConfig>]. *)
Record TierTable : Type := {
  t_SIMPLE : TierConfig;
  t_MEDIUM : TierConfig;
  t_COMPLEX : TierConfig;
  t_REASONING : TierConfig
}.

Definition tierConfigOf (tiers : TierTable) (t : Tier) : TierConfig :=
  match t with
  | SIMPLE => t_SIMPLE tiers
  | MEDIUM => t_MEDIUM tiers
  | COMPLEX => t_COMPLEX tiers
  | REASONING => t_REASONING tiers
  end.

Record RoutingConfig : Type := {
  scoring : ScoringConfig;
  tiers : TierTable;
  overrides : OverridesConfig
}.

(** [ModelPricing] of src/router/selector.ts, per 1M tokens. *)
Record ModelPricing : Type := { inputPrice : R; outputPrice : R }.

Record RouterOptions : Type := {
  config : RoutingConfig;
  modelPricing : gmap jsstring ModelPricing
}.

(** ** src/router/selector.ts *)

Definition opusModel : jsstring := lit "anthropic/claude-opus-4.6".

Definition selectModel (tier : Tier) (confidence : R) (method : Method)
    (reasoning : jsstring) (tierConfigs : TierTable)
    (modelPricing : gmap jsstring ModelPricing)
    (estimatedInputTokens maxOutputTokens : R) : RoutingDecision :=
  let tierConfig := tierConfigOf tierConfigs tier in
  let model := primary tierConfig in
  let pricing := modelPricing !! model in
  let inputCost :=
    match pricing with
    | Some p => (estimatedInputTokens / 1000000) * inputPrice p
    | None => 0
    end in
  let outputCost :=
    match pricing with
    | Some p => (maxOutputTokens / 1000000) * outputPrice p
    | None => 0
    end in
  let costEstimate := inputCost + outputCost in
  let opusPricing := modelPricing !! opusModel in
  let baselineInput :=
    match opusPricing with
    | Some p => (estimatedInputTokens / 1000000) * inputPrice p
    | None => 0
    end in
  let baselineOutput :=
    match opusPricing with
    | Some p => (maxOutputTokens / 1000000) * outputPrice p
    | None => 0
    end in
  let baselineCost := baselineInput + baselineOutput in
  let savings :=
    if Rgt_dec baselineCost 0
    then Rmax 0 ((baselineCost - costEstimate) / baselineCost)
    else 0 in
  {| rd_model := model;
     rd_tier := tier;
     rd_confidence := confidence;
     rd_method := method;
     rd_reasoning := reasoning;
     costEstimate := costEstimate;
     baselineCost := baselineCost;
     savings := savings |}.

(** ** src/router/rules.ts *)

Section Rules.

(** [String.prototype.toLowerCase] and the number-to-string conversion of
    template literals are host functions. *)
Variable toLowerCase : jsstring -> jsstring.
Variable numberToString : R -> jsstring.

Record DimensionScore : Type := {
  d_name : jsstring;
  d_score : R;
  d_signal : option jsstring
}.

Definition scoreTokenCount (estimatedTokens : R) (thresholds : TokenCountThresholds)
  : DimensionScore :=
  if Rlt_dec estimatedTokens (tc_simple thresholds) then
    {| d_name := lit "tokenCount"; d_score := -1;
       d_signal := Some (lit "short (" ++ numberToString estimatedTokens ++ lit " tokens)") |}
  else if Rgt_dec estimatedTokens (tc_complex thresholds) then
    {| d_name := lit "tokenCount"; d_score := 1;
       d_signal := Some (lit "long (" ++ numberToString estimatedTokens ++ lit " tokens)") |}
  else
    {| d_name := lit "tokenCount"; d_score := 0; d_signal := None |}.

(** [keywords.filter((kw) => text.includes(kw.toLowerCase()))]. *)
Definition keywordMatches (text : jsstring) (keywords : list jsstring) : list jsstring :=
  List.filter (fun kw => includes text (toLowerCase kw)) keywords.

Definition scoreKeywordMatch (text : jsstring) (keywords : list jsstring)
    (name signalLabel : jsstring) (low high : nat) (none_s low_s high_s : R)
  : DimensionScore :=
  let matches := keywordMatches text keywords in
  let signal := signalLabel ++ lit " (" ++ join (lit ", ") (take 3 matches) ++ lit ")" in
  if (high <=? length matches)%nat then
    {| d_name := name; d_score := high_s; d_signal := Some signal |}
  else if (low <=? length matches)%nat then
    {| d_name := name; d_score := low_s; d_signal := Some signal |}
  else
    {| d_name := name; d_score := none_s; d_signal := None |}.

(** [/first.*then/i], [/step \d/i], [/\d\.\s/]. *)
Definition multiStepPatterns : list regex :=
  [ Seq (LitCI (lit "first")) (Seq (Star Dot) (LitCI (lit "then")));
    Seq (LitCI (lit "step ")) Digit;
    Seq Digit (Seq (Chr (N.eqb 46)) Space) ].

Definition scoreMultiStep (text : jsstring) : DimensionScore :=
  let hits := List.filter (fun p => test p text) multiStepPatterns in
  if (0 <? length hits)%nat then
    {| d_name := lit "multiStepPatterns"; d_score := 0.5;
       d_signal := Some (lit "multi-step") |}
  else
    {| d_name := lit "multiStepPatterns"; d_score := 0; d_signal := None |}.

(** [(prompt.match(/\?/g) || []).length]. *)
Definition scoreQuestionComplexity (prompt : jsstring) : DimensionScore :=
  let count := countMatches (Chr (N.eqb 63)) prompt in
  if (3 <? count)%nat then
    {| d_name := lit "questionComplexity"; d_score := 0.5;
       d_signal := Some (numberToString (INR count) ++ lit " questions") |}
  else
    {| d_name := lit "questionComplexity"; d_score := 0; d_signal := None |}.

(** Sigmoid confidence calibration, over the reals.  Over binary64 the
    function is [Router64.calibrateConfidence]: there its value reaches 1. *)
Definition calibrateConfidence (distance steepness : R) : R :=
  1 / (1 + exp (- steepness * distance)).

Definition dimensions (text userText prompt : jsstring) (estimatedTokens : R)
    (config : ScoringConfig) : list DimensionScore :=
  [ scoreTokenCount estimatedTokens (tokenCountThresholds config);
    scoreKeywordMatch text (codeKeywords config)
      (lit "codePresence") (lit "code") 1 2 0 0.5 1;
    scoreKeywordMatch userText (reasoningKeywords config)
      (lit "reasoningMarkers") (lit "reasoning") 1 2 0 0.7 1;
    scoreKeywordMatch text (technicalKeywords config)
      (lit "technicalTerms") (lit "technical") 2 4 0 0.5 1;
    scoreKeywordMatch text (creativeKeywords config)
      (lit "creativeMarkers") (lit "creative") 1 2 0 0.5 0.7;
    scoreKeywordMatch text (simpleKeywords config)
      (lit "simpleIndicators") (lit "simple") 1 2 0 (-1) (-1);
    scoreMultiStep text;
    scoreQuestionComplexity prompt;
    scoreKeywordMatch text (imperativeVerbs config)
      (lit "imperativeVerbs") (lit "imperative") 1 2 0 0.3 0.5;
    scoreKeywordMatch text (constraintIndicators config)
      (lit "constraintCount") (lit "constraints") 1 3 0 0.3 0.7;
    scoreKeywordMatch text (outputFormatKeywords config)
      (lit "outputFormat") (lit "format") 1 2 0 0.4 0.7;
    scoreKeywordMatch text (referenceKeywords config)
      (lit "referenceComplexity") (lit "references") 1 2 0 0.3 0.5;
    scoreKeywordMatch text (negationKeywords config)
      (lit "negationComplexity") (lit "negation") 2 3 0 0.3 0.5;
    scoreKeywordMatch text (domainSpecificKeywords config)
      (lit "domainSpecificity") (lit "domain-specific") 1 2 0 0.5 0.8 ].

(** [for (const d of dimensions) weightedScore += d.score * (weights[d.name] ?? 0)]. *)
Definition weightedSum (weights : gmap jsstring R) (ds : list DimensionScore) : R :=
  fold_left (fun acc d => acc + d_score d * default 0 (weights !! d_name d)) ds 0.

Definition collectSignals (ds : list DimensionScore) : list jsstring :=
  omap d_signal ds.

Definition classifyByRules (prompt : jsstring) (systemPrompt : option jsstring)
    (estimatedTokens : R) (config : ScoringConfig) : ScoringResult :=
  let text := toLowerCase (default [] systemPrompt ++ lit " " ++ prompt) in
  let userText := toLowerCase prompt in
  let dims := dimensions text userText prompt estimatedTokens config in
  let signals := collectSignals dims in
  let weightedScore := weightedSum (dimensionWeights config) dims in
  let reasoningMatches := keywordMatches userText (reasoningKeywords config) in
  if (2 <=? length reasoningMatches)%nat then
    let confidence :=
      calibrateConfidence (Rmax weightedScore 0.3) (confidenceSteepness config) in
    {| score := weightedScore;
       tier := Some REASONING;
       confidence := Rmax confidence 0.85;
       signals := signals |}
  else
    let b := tierBoundaries config in
    let '(tier, distanceFromBoundary) :=
      if Rlt_dec weightedScore (simpleMedium b) then
        (SIMPLE, simpleMedium b - weightedScore)
      else if Rlt_dec weightedScore (mediumComplex b) then
        (MEDIUM, Rmin (weightedScore - simpleMedium b) (mediumComplex b - weightedScore))
      else if Rlt_dec weightedScore (complexReasoning b) then
        (COMPLEX, Rmin (weightedScore - mediumComplex b) (complexReasoning b - weightedScore))
      else
        (REASONING, weightedScore - complexReasoning b) in
    let confidence := calibrateConfidence distanceFromBoundary (confidenceSteepness config) in
    if Rlt_dec confidence (confidenceThreshold config) then
      {| score := weightedScore; tier := None; confidence := confidence; signals := signals |}
    else
      {| score := weightedScore; tier := Some tier; confidence := confidence;
         signals := signals |}.

(** ** src/router/index.ts *)

Definition formatWords : regex :=
  AltOf [LitCI (lit "json"); LitCI (lit "yaml"); LitCI (lit "xml"); LitCI (lit "csv")].

Definition outputWords : regex :=
  AltOf [LitCI (lit "format"); LitCI (lit "output"); LitCI (lit "respond");
         LitCI (lit "return")].

(** [/\b(json|yaml|xml|csv)\b.*\b(format|output|respond|return)\b|
      \b(format|output|respond|return)\b.*\b(json|yaml|xml|csv)\b/i]. *)
Definition structuredOutputRegex : regex :=
  Alt
    (Seq WordB (Seq formatWords (Seq WordB (Seq (Star Dot)
       (Seq WordB (Seq outputWords WordB))))))
    (Seq WordB (Seq outputWords (Seq WordB (Seq (Star Dot)
       (Seq WordB (Seq formatWords WordB)))))).

Definition tierRank (t : Tier) : nat :=
  match t with
  | SIMPLE => 0
  | MEDIUM => 1
  | COMPLEX => 2
  | REASONING => 3
  end.

(** [Math.ceil(s.length / 4)]. *)
Definition estimateTokens (s : jsstring) : R := INR ((length s + 3) / 4).

Definition route (prompt : jsstring) (systemPrompt : option jsstring)
    (maxOutputTokens : R) (options : RouterOptions) : RoutingDecision :=
  let config := config options in
  let modelPricing := modelPricing options in
  let fullText := default [] systemPrompt ++ lit " " ++ prompt in
  let totalTokens := estimateTokens fullText in
  let promptTokens := estimateTokens prompt in
  if Rgt_dec totalTokens (maxTokensForceComplex (overrides config)) then
    selectModel COMPLEX 0.95 rules
      (lit "Input exceeds " ++ numberToString (maxTokensForceComplex (overrides config))
         ++ lit " tokens")
      (tiers config) modelPricing totalTokens maxOutputTokens
  else
    let hasStructuredOutput := test structuredOutputRegex prompt in
    let ruleResult := classifyByRules prompt systemPrompt promptTokens (scoring config) in
    let reasoning0 :=
      lit "score=" ++ numberToString (score ruleResult) ++ lit " | "
        ++ join (lit ", ") (signals ruleResult) in
    let '(tier1, confidence, reasoning1) :=
      match tier ruleResult with
      | Some t => (t, confidence ruleResult, reasoning0)
      | None =>
          let t := ambiguousDefaultTier (overrides config) in
          (t, 0.5, reasoning0 ++ lit " | ambiguous -> default: " ++ tierName t)
      end in
    let minTier := structuredOutputMinTier (overrides config) in
    let '(tier2, reasoning2) :=
      if hasStructuredOutput && (tierRank tier1 <? tierRank minTier)%nat
      then (minTier,
            reasoning1 ++ lit " | upgraded to " ++ tierName minTier
              ++ lit " (structured output)")
      else (tier1, reasoning1) in
    selectModel tier2 confidence rules reasoning2
      (tiers config) modelPricing totalTokens maxOutputTokens.

End Rules.

End Router.

(** ** The tier directive: src/proxy.ts *)

Module Directive.
Import JS Regex Router.

Definition tierWords : regex :=
  AltOf [LitCI (lit "SIMPLE"); LitCI (lit "MEDIUM"); LitCI (lit "COMPLEX");
         LitCI (lit "REASONING")].

(** [TIER_OVERRIDE_REGEX = /\bUSE\s+(SIMPLE|MEDIUM|COMPLEX|REASONING)\b/i];
    [TIER_OVERRIDE_REGEX_GLOBAL] is the same expression with the [g] flag. *)
Definition TIER_OVERRIDE_REGEX : regex :=
  Seq WordB (Seq (LitCI (lit "USE")) (Seq (Plus Space) (Seq tierWords WordB))).

Inductive ContentPart : Type :=
  mkPart { p_type : jsstring; p_text : option jsstring; p_extra : jsstring }.

(** [content?: string | ContentPart[]]; [COther] is any other JSON value. *)
Inductive Content : Type :=
| CAbsent
| CString (s : jsstring)
| CParts (ps : list ContentPart)
| COther.

Record ChatMessage : Type := { role : jsstring; content : Content }.

Definition isTextPart (p : ContentPart) : bool :=
  bool_decide (p_type p = lit "text") && bool_decide (is_Some (p_text p)).

Definition extractText (c : Content) : jsstring :=
  match c with
  | CString s => s
  | CParts ps => join [10%N] (omap (fun p => if isTextPart p then p_text p else None) ps)
  | _ => []
  end.

Definition tierOfName (s : jsstring) : option Tier :=
  if bool_decide (s = lit "SIMPLE") then Some SIMPLE
  else if bool_decide (s = lit "MEDIUM") then Some MEDIUM
  else if bool_decide (s = lit "COMPLEX") then Some COMPLEX
  else if bool_decide (s = lit "REASONING") then Some REASONING
  else None.

(** [match[1].toUpperCase()]: capture group 1 is what follows [USE] and the
    white space in the matched text; it consists of ASCII letters. *)
Definition parseForcedTier (text : jsstring) : option Tier :=
  match exec TIER_OVERRIDE_REGEX text with
  | None => None
  | Some (_, m, _) => tierOfName (List.map asciiUpper (trimStart (drop 3 m)))
  end.

(** [/[ \t]{2,}/g]. *)
Definition blankRun : regex := AtLeast2 (Chr isBlank).

Definition stripForcedTierDirective (text : jsstring) : jsstring :=
  trim (replaceAll blankRun (lit " ") (replaceAll TIER_OVERRIDE_REGEX [] text)).

(** The [map] callback of the array branch; [forcedTier] is the variable
    captured by the closure. *)
Definition stripPart (forcedTier : option Tier) (part : ContentPart)
  : option Tier * ContentPart :=
  match p_text part with
  | Some text =>
      if bool_decide (p_type part = lit "text") then
        let partForcedTier := parseForcedTier text in
        let forcedTier' :=
          match forcedTier, partForcedTier with
          | None, Some t => Some t
          | _, _ => forcedTier
          end in
        match partForcedTier with
        | None => (forcedTier', part)
        | Some _ =>
            (forcedTier',
             mkPart (p_type part) (Some (stripForcedTierDirective text)) (p_extra part))
        end
      else (forcedTier, part)
  | None => (forcedTier, part)
  end.

Fixpoint stripParts (forcedTier : option Tier) (ps : list ContentPart)
  : option Tier * list ContentPart :=
  match ps with
  | [] => (forcedTier, [])
  | p :: ps' =>
      let '(ft, p') := stripPart forcedTier p in
      let '(ft', ps'') := stripParts ft ps' in
      (ft', p' :: ps'')
  end.

(** The function mutates [message.content]; the embedding returns the
    forced tier together with the message after the call. *)
Definition extractAndStripForcedTier (message : option ChatMessage)
  : option Tier * option ChatMessage :=
  match message with
  | None => (None, None)
  | Some msg =>
      match content msg with
      | CAbsent => (None, message)
      | CString s =>
          let forcedTier := parseForcedTier s in
          match forcedTier with
          | Some _ =>
              (forcedTier,
               Some {| role := role msg; content := CString (stripForcedTierDirective s) |})
          | None => (None, message)
          end
      | CParts ps =>
          let '(forcedTier, ps') := stripParts None ps in
          (forcedTier, Some {| role := role msg; content := CParts ps' |})
      | COther => (None, message)
      end
  end.

(** [for (let i = messages.length - 1; i >= 0; i--) if (messages[i].role === "user") ...]:
    the index of the last user message. *)
Fixpoint lastUserIndex (messages : list ChatMessage) : option nat :=
  match messages with
  | [] => None
  | m :: ms =>
      match lastUserIndex ms with
      | Some i => Some (S i)
      | None => if bool_decide (role m = lit "user") then Some 0%nat else None
      end
  end.

Record RouteContext : Type := {
  estimatedInputTokens : option R;
  forcedTier : option Tier;
  structuredOutputRequired : bool
}.

(** The part of [proxyRequest] between the search for the last user message
    and the call of [route]: the message array after the in-place update of
    the last user message, the prompt, the system prompt and the context
    handed to [route].  [hasResponseFormat] is
    [typeof parsed.response_format === "object" && parsed.response_format !== null]. *)
Definition prepareRouting (messages : list ChatMessage) (hasResponseFormat : bool)
  : list ChatMessage * jsstring * option jsstring * RouteContext :=
  let idx := lastUserIndex messages in
  let lastUserMsg := idx ≫= (fun i => messages !! i) in
  let '(forced, lastUserMsg') := extractAndStripForcedTier lastUserMsg in
  let messages' :=
    match idx, lastUserMsg' with
    | Some i, Some m => <[i := m]> messages
    | _, _ => messages
    end in
  let systemMsg := List.find (fun m => bool_decide (role m = lit "system")) messages' in
  let prompt := from_option (fun m => extractText (content m)) [] lastUserMsg' in
  let systemText := from_option (fun m => extractText (content m)) [] systemMsg in
  let systemPrompt := if bool_decide (systemText = []) then None else Some systemText in
  let allMessageText :=
    join [10%N]
      (List.filter (fun s => (0 <? length s)%nat)
         (List.map (fun m => extractText (content m)) messages')) in
  let estimated :=
    if (0 <? length allMessageText)%nat
    then Some (estimateTokens allMessageText) else None in
  (messages', prompt, systemPrompt,
   {| estimatedInputTokens := estimated;
      forcedTier := forced;
      structuredOutputRequired := hasResponseFormat |}).

(** Modelled from the spec: the [route] that takes the [RouteContext] with
    [forcedTier] is not among the sources; only its caller [proxyRequest]
    is.  Section 4.3 of the specification puts the directive first: "if the
    raw prompt contains an embedded tier-name token, force that tier";
    without a directive the tier is the one the router computes. *)
Definition resolveTier (ctx : RouteContext) (routed : Tier) : Tier :=
  match forcedTier ctx with
  | Some t => t
  | None => routed
  end.

End Directive.

(** ** Request deduplication: src/dedup.ts *)

Module Dedup.
Import JS.

Local Open Scope Z_scope.

Record CachedResponse : Type := {
  status : Z;
  headers : list (jsstring * jsstring);
  body : list byte;
  completedAt : Z
}.

(** Promises are cells of the heap, named by numbers.  A promise is
    settled at most once; [settleOrder] records the order in which the
    promises were resolved. *)
Record Promises : Type := {
  nextPromise : nat;
  settled : gmap nat CachedResponse;
  settleOrder : list nat
}.

Definition newPromise (h : Promises) : nat * Promises :=
  (nextPromise h,
   {| nextPromise := S (nextPromise h);
      settled := settled h;
      settleOrder := settleOrder h |}).

Definition resolvePromise (p : nat) (result : CachedResponse) (h : Promises) : Promises :=
  match settled h !! p with
  | Some _ => h
  | None =>
      {| nextPromise := nextPromise h;
         settled := <[p := result]> (settled h);
         settleOrder := settleOrder h ++ [p] |}
  end.

(** The closure stored in [entry.resolve]: either the initial [() => {}] or
    [(result) => { orig(result); resolve(result); r(result); }], where
    [resolve] settles the promise returned to the joiner and [r] the promise
    pushed on [entry.waiters]. *)
Inductive Resolver : Type :=
| RNoop
| RJoin (orig : Resolver) (outer inner : nat).

Fixpoint callResolver (f : Resolver) (result : CachedResponse) (h : Promises) : Promises :=
  match f with
  | RNoop => h
  | RJoin orig outer inner =>
      resolvePromise inner result (resolvePromise outer result (callResolver orig result h))
  end.

Record InflightEntry : Type := {
  resolve : Resolver;
  waiters : list nat
}.

Definition DEFAULT_TTL_MS : Z := 30000.
Definition MAX_BODY_SIZE : Z := 1048576.

(** The two maps and the TTL of a [RequestDeduplicator], with the promise
    heap its closures act on. *)
Record State : Type := {
  inflight : gmap jsstring InflightEntry;
  completed : gmap jsstring CachedResponse;
  ttlMs : Z;
  heap : Promises
}.

Definition create (ttl : Z) : State :=
  {| inflight := ∅; completed := ∅; ttlMs := ttl;
     heap := {| nextPromise := 0; settled := ∅; settleOrder := [] |} |}.

Definition setInflight (m : gmap jsstring InflightEntry) (st : State) : State :=
  {| inflight := m; completed := completed st; ttlMs := ttlMs st; heap := heap st |}.

Definition setCompleted (m : gmap jsstring CachedResponse) (st : State) : State :=
  {| inflight := inflight st; completed := m; ttlMs := ttlMs st; heap := heap st |}.

Definition setHeap (h : Promises) (st : State) : State :=
  {| inflight := inflight st; completed := completed st; ttlMs := ttlMs st; heap := h |}.

(** [now - entry.completedAt > this.ttlMs]. *)
Definition expired (now ttl : Z) (entry : CachedResponse) : bool :=
  ttl <? now - completedAt entry.

Definition getCached (key : jsstring) (now : Z) (st : State)
  : option CachedResponse * State :=
  match completed st !! key with
  | None => (None, st)
  | Some entry =>
      if expired now (ttlMs st) entry
      then (None, setCompleted (delete key (completed st)) st)
      else (Some entry, st)
  end.

Definition getInflight (key : jsstring) (st : State) : option nat * State :=
  match inflight st !! key with
  | None => (None, st)
  | Some entry =>
      let '(promise, h1) := newPromise (heap st) in
      let '(waiter, h2) := newPromise h1 in
      let entry' :=
        {| resolve := RJoin (resolve entry) promise waiter;
           waiters := waiters entry ++ [waiter] |} in
      (Some promise, setHeap h2 (setInflight (<[key := entry']> (inflight st)) st))
  end.

Definition markInflight (key : jsstring) (st : State) : State :=
  setInflight (<[key := {| resolve := RNoop; waiters := [] |}]> (inflight st)) st.

Definition prune (now : Z) (st : State) : State :=
  setCompleted
    (filter (fun kv => expired now (ttlMs st) (snd kv) = false) (completed st)) st.

Definition complete (key : jsstring) (result : CachedResponse) (now : Z) (st : State)
  : State :=
  let st1 :=
    if Z.of_nat (length (body result)) <=? MAX_BODY_SIZE
    then setCompleted (<[key := result]> (completed st)) st
    else st in
  let st2 :=
    match inflight st1 !! key with
    | Some entry =>
        setInflight (delete key (inflight st1))
          (setHeap (callResolver (resolve entry) result (heap st1)) st1)
    | None => st1
    end in
  prune now st2.

Definition removeInflight (key : jsstring) (st : State) : State :=
  setInflight (delete key (inflight st)) st.

(** The promises a call of [entry.resolve] settles, in the order in which
    it settles them. *)
Fixpoint resolverTargets (f : Resolver) : list nat :=
  match f with
  | RNoop => []
  | RJoin orig outer inner => resolverTargets orig ++ [outer; inner]
  end.

(** The promises handed to the joiners, in registration order. *)
Fixpoint joiners (f : Resolver) : list nat :=
  match f with
  | RNoop => []
  | RJoin orig outer _ => joiners orig ++ [outer]
  end.

End Dedup.

(** ** The proxy: src/proxy.ts, [proxyRequest] *)

Module Proxy.
Import JS Dedup.

Local Open Scope Z_scope.

Definition ascii (s : string) : list byte := list_byte_of_string s.

(** [": heartbeat\n\n"] and ["data: [DONE]\n\n"]. *)
Definition HEARTBEAT : list byte := ascii ": heartbeat" ++ [x0a; x0a].
Definition DONE : list byte := ascii "data: [DONE]" ++ [x0a; x0a].

Record Request : Type := { url : jsstring; reqBody : list byte }.

(** What [proxyRequest] reads from the parsed body:
    [parsed.stream === true] and
    [parsed.model === AUTO_MODEL || parsed.model === AUTO_MODEL_SHORT]. *)
Record Parsed : Type := { p_stream : bool; p_auto : bool }.

(** What has been written to [res]: [writeHead] and the bytes of the
    [write] and [end] calls. *)
Record ClientResponse : Type := {
  c_status : Z;
  c_headers : list (jsstring * jsstring);
  c_body : list byte
}.

(** The result of [await fetchWithRetry(...)] and of reading the body:
    a response read to its end, a response whose body fails while it is
    read, or a rejected call (network error, abort on time-out). *)
Inductive Upstream : Type :=
| UResponse (st : Z) (hs : list (jsstring * jsstring)) (chunks : list (list byte))
| UReadError (st : Z) (hs : list (jsstring * jsstring)) (chunks : list (list byte))
| UThrow.

Definition earlyHeaders : list (jsstring * jsstring) :=
  [ (lit "content-type", lit "text/event-stream");
    (lit "cache-control", lit "no-cache");
    (lit "connection", lit "keep-alive") ].

Definition sseHeaders : list (jsstring * jsstring) :=
  [ (lit "content-type", lit "text/event-stream") ].

(** [responseHeaders[key] = value] on an object literal: a name that is
    already there keeps its place and takes the new value.  The list is in
    the order in which the names were first assigned, the enumeration order
    of the object for names that are not array indices. *)
Fixpoint assignHeader (key value : jsstring) (o : list (jsstring * jsstring))
  : list (jsstring * jsstring) :=
  match o with
  | [] => [(key, value)]
  | kv :: o' =>
      if bool_decide (fst kv = key) then (key, value) :: o'
      else kv :: assignHeader key value o'
  end.

(** [upstream.headers.forEach] into an object, without [transfer-encoding]
    and [connection]; the assignment of a string to [__proto__] creates no
    property. *)
Definition responseHeadersOf (hs : list (jsstring * jsstring)) : list (jsstring * jsstring) :=
  fold_left
    (fun o kv =>
       if bool_decide (fst kv = lit "transfer-encoding")
          || bool_decide (fst kv = lit "connection")
          || bool_decide (fst kv = lit "__proto__")
       then o
       else assignHeader (fst kv) (snd kv) o)
    hs [].

Section WithHost.

(** Host functions: the SHA-256 digest cut to 16 hexadecimal digits,
    [JSON.parse] of the request body ([None] when parsing it or reading its
    members throws), and the UTF-8 bytes of
    [JSON.stringify({ error: { message: errBody, type: "upstream_error", status } })]
    for the text of an upstream body. *)
Variable hash : list byte -> jsstring.
Variable JSON_parse : list byte -> option Parsed.
Variable errorJson : list byte -> Z -> list byte.

Definition errEvent (errBody : list byte) (st : Z) : list byte :=
  ascii "data: " ++ errorJson errBody st ++ [x0a; x0a].

(** The smart-routing block.  [routed] is the outcome of routing an
    auto-model request and serialising it again: the rewritten body, or
    [None] when that throws inside the [try]. *)
Definition routingStage (req : Request) (routed : option (list byte))
  : bool * list byte :=
  if includes (url req) (lit "/chat/completions") && (0 <? length (reqBody req))%nat then
    match JSON_parse (reqBody req) with
    | None => (false, reqBody req)
    | Some parsed =>
        let isStreaming := p_stream parsed in
        if p_auto parsed then
          match routed with
          | Some body' => (isStreaming, body')
          | None => (isStreaming, reqBody req)
          end
        else (isStreaming, reqBody req)
    end
  else (false, reqBody req).

Inductive Start : Type :=
| CacheHit (r : ClientResponse)
| InflightWait (p : nat)
| Forward (dedupKey : jsstring) (isStreaming : bool) (body : list byte).

Definition replay (r : CachedResponse) : ClientResponse :=
  {| c_status := status r; c_headers := headers r; c_body := body r |}.

(** From the start of [proxyRequest] to [deduplicator.markInflight]. *)
Definition proxyStart (req : Request) (routed : option (list byte)) (now : Z)
    (st : State) : Start * State :=
  let '(isStreaming, body) := routingStage req routed in
  let dedupKey := hash body in
  match getCached dedupKey now st with
  | (Some cached, st1) => (CacheHit (replay cached), st1)
  | (None, st1) =>
      match getInflight dedupKey st1 with
      | (Some p, st2) => (InflightWait p, st2)
      | (None, st2) => (Forward dedupKey isStreaming body, markInflight dedupKey st2)
      end
  end.

(** The state of [res] and of the local variable [completed] when
    [proxyRequest] returns or throws. *)
Record Finish : Type := {
  sent : option ClientResponse;
  threw : bool;
  completedFlag : bool
}.

(** From the early header flush to the end of the [try]/[catch].  [ticks]
    is the number of heartbeat intervals that elapse before the upstream
    call settles; [tDone] is the [Date.now()] stored in [completedAt] and
    [tPrune] the one read by [prune]. *)
Definition proxyForward (dedupKey : jsstring) (isStreaming : bool) (up : Upstream)
    (ticks : nat) (tDone tPrune : Z) (st : State) : Finish * State :=
  if isStreaming then
    let early := HEARTBEAT ++ concat (replicate ticks HEARTBEAT) in
    match up with
    | UThrow =>
        ({| sent := Some {| c_status := 200; c_headers := earlyHeaders; c_body := early |};
            threw := true; completedFlag := false |},
         removeInflight dedupKey st)
    | UResponse ust hs chunks =>
        if bool_decide (ust = 200) then
          ({| sent := Some {| c_status := 200; c_headers := earlyHeaders;
                              c_body := early ++ concat chunks |};
              threw := false; completedFlag := true |},
           complete dedupKey
             {| status := 200; headers := sseHeaders; body := concat chunks;
                completedAt := tDone |} tPrune st)
        else
          let ev := errEvent (concat chunks) ust in
          ({| sent := Some {| c_status := 200; c_headers := earlyHeaders;
                              c_body := early ++ ev ++ DONE |};
              threw := false; completedFlag := false |},
           complete dedupKey
             {| status := 200; headers := sseHeaders; body := ev ++ DONE;
                completedAt := tDone |} tPrune st)
    | UReadError ust hs chunks =>
        let written := if bool_decide (ust = 200) then concat chunks else [] in
        ({| sent := Some {| c_status := 200; c_headers := earlyHeaders;
                            c_body := early ++ written |};
            threw := true; completedFlag := false |},
         removeInflight dedupKey st)
    end
  else
    match up with
    | UThrow =>
        ({| sent := None; threw := true; completedFlag := false |},
         removeInflight dedupKey st)
    | UResponse ust hs chunks =>
        ({| sent := Some {| c_status := ust; c_headers := responseHeadersOf hs;
                            c_body := concat chunks |};
            threw := false; completedFlag := true |},
         complete dedupKey
           {| status := ust; headers := responseHeadersOf hs; body := concat chunks;
              completedAt := tDone |} tPrune st)
    | UReadError ust hs chunks =>
        ({| sent := Some {| c_status := ust; c_headers := responseHeadersOf hs;
                            c_body := concat chunks |};
            threw := true; completedFlag := false |},
         removeInflight dedupKey st)
    end.

(** The [res.on("close", ...)] handler; [completedFlag] is the value of the
    variable [completed] when the event fires. *)
Definition onClose (completedFlag : bool) (dedupKey : jsstring) (st : State) : State :=
  if completedFlag then st else removeInflight dedupKey st.

(** What one request, run without interleaving and with the client
    connected to the end, leaves behind. *)
Record Result : Type := {
  response : option ClientResponse;
  waitingOn : option nat;
  failed : bool;
  upstreamCalls : nat
}.

Definition proxyRequest (req : Request) (routed : option (list byte)) (up : Upstream)
    (ticks : nat) (tStart tDone tPrune : Z) (st : State) : Result * State :=
  match proxyStart req routed tStart st with
  | (CacheHit r, st1) =>
      ({| response := Some r; waitingOn := None; failed := false; upstreamCalls := 0 |}, st1)
  | (InflightWait p, st1) =>
      ({| response := None; waitingOn := Some p; failed := false; upstreamCalls := 0 |}, st1)
  | (Forward dedupKey isStreaming _, st1) =>
      let '(fin, st2) := proxyForward dedupKey isStreaming up ticks tDone tPrune st1 in
      ({| response := sent fin; waitingOn := None; failed := threw fin;
          upstreamCalls := 1 |},
       onClose (completedFlag fin) dedupKey st2)
  end.

End WithHost.

End Proxy.

(** ** Insertion-ordered maps: the [Map] of JavaScript with string keys *)

Module JSMap.
Import JS.

Section WithValue.

Context {V : Type}.

(** [Map.prototype.get]. *)
Definition get (k : jsstring) (m : list (jsstring * V)) : option V :=
  snd <$> List.find (fun kv => bool_decide (fst kv = k)) m.

(** [Map.prototype.set]: a present key keeps its place in the iteration
    order, a new key goes to the end. *)
Fixpoint set (k : jsstring) (v : V) (m : list (jsstring * V)) : list (jsstring * V) :=
  match m with
  | [] => [(k, v)]
  | kv :: m' => if bool_decide (fst kv = k) then (k, v) :: m' else kv :: set k v m'
  end.

(** [Map.prototype.delete]. *)
Definition delete (k : jsstring) (m : list (jsstring * V)) : list (jsstring * V) :=
  List.filter (fun kv => negb (bool_decide (fst kv = k))) m.

End WithValue.

End JSMap.

(** ** The AI classifier: src/router/ai-classifier.ts *)

Module Classifier.
Import JS Regex Router Directive.

Local Open Scope Z_scope.

(** [promptTruncationChars] and [cacheTtlMs] are integers. *)
Record ClassifierConfig : Type := {
  llmModel : jsstring;
  llmMaxTokens : R;
  llmTemperature : R;
  promptTruncationChars : Z;
  cacheTtlMs : Z
}.

Record AiClassifierResult : Type := { ai_tier : Tier; ai_confidence : R }.

Record CacheEntry : Type := { result : AiClassifierResult; timestamp : Z }.

Record AiClassifier : Type := {
  apiBase : jsstring;
  apiKey : jsstring;
  cl_config : ClassifierConfig;
  cache : list (jsstring * CacheEntry)
}.

Definition setCache (c : list (jsstring * CacheEntry)) (self : AiClassifier) : AiClassifier :=
  {| apiBase := apiBase self; apiKey := apiKey self; cl_config := cl_config self;
     cache := c |}.

(** [s.slice(0, n)] for an integer [n]: a negative [n] counts from the end. *)
Definition slice0 (n : Z) (s : jsstring) : jsstring :=
  if n <? 0 then take (Z.to_nat (Z.max (Z.of_nat (length s) + n) 0)) s
  else take (Z.to_nat n) s.

(** ToInt32: the value of [x | 0] for an integer [x]. *)
Definition toInt32 (x : Z) : Z := (x + 2 ^ 31) mod 2 ^ 32 - 2 ^ 31.

(** [((hash << 5) - hash + char) | 0]. *)
Definition hashStep (hash : Z) (char : N) : Z :=
  toInt32 (toInt32 (toInt32 hash * 2 ^ 5) - hash + Z.of_N char).

(** The loop of [hashPrompt]. *)
Definition hashCode (prompt : jsstring) : Z := fold_left hashStep prompt 0.

(** [Number.prototype.toString(36)] for an integer. *)
Definition digit36 (d : Z) : N :=
  if d <? 10 then Z.to_N (48 + d) else Z.to_N (97 + d - 10).

Fixpoint digits36 (fuel : nat) (n : Z) (acc : jsstring) : jsstring :=
  match fuel with
  | O => acc
  | S fuel' =>
      let acc' := digit36 (n mod 36) :: acc in
      if n / 36 =? 0 then acc' else digits36 fuel' (n / 36) acc'
  end.

Definition toString36 (n : Z) : jsstring :=
  if n <? 0 then 45%N :: digits36 (S (Z.to_nat (Z.log2 (- n)))) (- n) []
  else digits36 (S (Z.to_nat (Z.log2 n))) n [].

Definition hashPrompt (prompt : jsstring) : jsstring := toString36 (hashCode prompt).

(** [raw.replace(/[^A-Z]/g, "")] and the [switch]. *)
Definition parseTier (raw : jsstring) : option Tier :=
  tierOfName (replaceAll (Chr (fun c => negb (isUpper c))) [] raw).

(** [entries.sort((a, b) => a[1].timestamp - b[1].timestamp)]: a stable
    sort by ascending time stamp. *)
Fixpoint insertByTimestamp (x : jsstring * CacheEntry) (l : list (jsstring * CacheEntry))
  : list (jsstring * CacheEntry) :=
  match l with
  | [] => [x]
  | y :: l' =>
      if timestamp (snd x) <=? timestamp (snd y) then x :: y :: l'
      else y :: insertByTimestamp x l'
  end.

Definition sortByTimestamp (l : list (jsstring * CacheEntry)) : list (jsstring * CacheEntry) :=
  foldr insertByTimestamp [] l.

Definition CACHE_LIMIT : nat := 500.

(** [pruneCache]: above 500 entries the expired ones go; if that is not
    enough, the older half goes, [i < entries.length / 2] being
    [i < ceil(n / 2)]. *)
Definition pruneCache (ttl now : Z) (c : list (jsstring * CacheEntry))
  : list (jsstring * CacheEntry) :=
  if (length c <=? CACHE_LIMIT)%nat then c
  else
    let c1 := List.filter (fun kv => negb (ttl <? now - timestamp (snd kv))) c in
    if (CACHE_LIMIT <? length c1)%nat then
      let entries := sortByTimestamp c1 in
      fold_left (fun m kv => JSMap.delete (fst kv) m)
        (take ((length entries + 1) / 2) entries) c1
    else c1.

Section WithHost.

(** [String.prototype.toUpperCase] is a host function. *)
Variable toUpperCase : jsstring -> jsstring.

(** The text sent to the classifier model. *)
Definition classifierPrompt (truncated : jsstring) (systemPrompt : option jsstring)
  : jsstring :=
  match systemPrompt with
  | Some (c :: sp) =>
      lit "[System context: " ++ slice0 200 (c :: sp) ++ lit "]" ++ [10%N; 10%N]
        ++ lit "User prompt: " ++ truncated
  | _ => truncated
  end.

(** [classify].  [fetchReply] stands for the call of the classifier model
    made during this invocation: it maps the text sent to
    [data.choices?.[0]?.message?.content], and to [None] when the call
    throws, the response is not ok or there is no such string.  [tCheck],
    [tSet] and [tPrune] are the values of [Date.now()] at the cache check,
    at [cache.set] and in [pruneCache]. *)
Definition classify (self : AiClassifier) (prompt : jsstring)
    (systemPrompt : option jsstring) (fetchReply : jsstring -> option jsstring)
    (tCheck tSet tPrune : Z) : option AiClassifierResult * AiClassifier :=
  let truncated := slice0 (promptTruncationChars (cl_config self)) prompt in
  let cacheKey := hashPrompt truncated in
  let miss :=
    match fetchReply (classifierPrompt truncated systemPrompt) with
    | None => (None, self)
    | Some raw =>
        let content := toUpperCase (trim raw) in
        match content with
        | [] => (None, self)
        | _ :: _ =>
            match parseTier content with
            | None => (None, self)
            | Some tier =>
                let result := {| ai_tier := tier; ai_confidence := 0.85 |} in
                (Some result,
                 setCache
                   (pruneCache (cacheTtlMs (cl_config self)) tPrune
                      (JSMap.set cacheKey {| result := result; timestamp := tSet |}
                         (cache self)))
                   self)
            end
        end
    end in
  match JSMap.get cacheKey (cache self) with
  | Some cached =>
      if tCheck - timestamp cached <? cacheTtlMs (cl_config self)
      then (Some (result cached), self)
      else miss
  | None => miss
  end.

End WithHost.

End Classifier.

(** ** src/router/index.ts, [routeAsync] *)

Module RouterAsync.
Import JS Regex Router Classifier.

Local Open Scope R_scope.

Section WithHost.

Variable toLowerCase : jsstring -> jsstring.
Variable numberToString : R -> jsstring.
Variable toUpperCase : jsstring -> jsstring.
(** [x.toFixed(0)]. *)
Variable toFixed0 : R -> jsstring.

(** [aiClassifier] is the member of [options] of that name; the classifier
    after the call is returned with the decision. *)
Definition routeAsync (prompt : jsstring) (systemPrompt : option jsstring)
    (maxOutputTokens : R) (options : RouterOptions)
    (aiClassifier : option AiClassifier) (fetchReply : jsstring -> option jsstring)
    (tCheck tSet tPrune : Z) : RoutingDecision * option AiClassifier :=
  let config := config options in
  let modelPricing := modelPricing options in
  let fullText := default [] systemPrompt ++ lit " " ++ prompt in
  let totalTokens := estimateTokens fullText in
  let promptTokens := estimateTokens prompt in
  if Rgt_dec totalTokens (maxTokensForceComplex (overrides config)) then
    (selectModel COMPLEX 0.95 rules
       (lit "Input exceeds " ++ numberToString (maxTokensForceComplex (overrides config))
          ++ lit " tokens")
       (tiers config) modelPricing totalTokens maxOutputTokens,
     aiClassifier)
  else
    let hasStructuredOutput := test structuredOutputRegex prompt in
    let ruleResult :=
      classifyByRules toLowerCase numberToString prompt systemPrompt promptTokens
        (scoring config) in
    let reasoning0 :=
      lit "score=" ++ numberToString (score ruleResult) ++ lit " | "
        ++ join (lit ", ") (signals ruleResult) in
    let fallback :=
      match aiClassifier with
      | Some classifier =>
          let '(aiResult, classifier') :=
            classify toUpperCase classifier prompt systemPrompt fetchReply
              tCheck tSet tPrune in
          match aiResult with
          | Some ai =>
              (ai_tier ai, ai_confidence ai, llm,
               reasoning0 ++ lit " | AI: " ++ tierName (ai_tier ai) ++ lit " ("
                 ++ toFixed0 (ai_confidence ai * 100) ++ lit "%)",
               Some classifier')
          | None =>
              let t := ambiguousDefaultTier (overrides config) in
              (t, 0.5, rules, reasoning0 ++ lit " | AI failed -> default: " ++ tierName t,
               Some classifier')
          end
      | None =>
          let t := ambiguousDefaultTier (overrides config) in
          (t, 0.5, rules, reasoning0 ++ lit " | ambiguous -> default: " ++ tierName t,
           None)
      end in
    let '(tier1, confidence, method, reasoning1, aiClassifier') :=
      match tier ruleResult with
      | Some t =>
          if Rge_dec (confidence ruleResult) (confidenceThreshold (scoring config))
          then (t, confidence ruleResult, rules, reasoning0, aiClassifier)
          else fallback
      | None => fallback
      end in
    let minTier := structuredOutputMinTier (overrides config) in
    let '(tier2, reasoning2) :=
      if hasStructuredOutput && (tierRank tier1 <? tierRank minTier)%nat
      then (minTier,
            reasoning1 ++ lit " | upgraded to " ++ tierName minTier
              ++ lit " (structured output)")
      else (tier1, reasoning1) in
    (selectModel tier2 confidence method reasoning2
       (tiers config) modelPricing totalTokens maxOutputTokens,
     aiClassifier').

End WithHost.

End RouterAsync.

(** ** The model catalogue: src/model-sync.ts and [buildModelPricing] of src/proxy.ts *)

Module Models.
Import JS Router.

Local Open Scope R_scope.

Record ZenMuxModel : Type := {
  m_id : jsstring;
  m_name : jsstring;
  m_inputPrice : R;
  m_outputPrice : R;
  contextWindow : R;
  maxOutput : R;
  reasoning : option bool;
  vision : option bool
}.

Definition AUTO_MODEL : jsstring := lit "clawzenmux/auto".

(** [buildModelPricing]: [map.set] for every model but the meta-model. *)
Definition buildModelPricing (models : list ZenMuxModel) : gmap jsstring ModelPricing :=
  fold_left
    (fun map m =>
       if bool_decide (m_id m = AUTO_MODEL) then map
       else <[m_id m := {| inputPrice := m_inputPrice m; outputPrice := m_outputPrice m |}]> map)
    models ∅.

Record PricingEntry : Type := { pe_value : R; pe_unit : jsstring }.

Record ApiModel : Type := {
  api_id : jsstring;
  display_name : option jsstring;
  input_modalities : option (list jsstring);
  capabilities_reasoning : option bool;
  context_length : option R;
  pricings_prompt : option (list PricingEntry);
  pricings_completion : option (list PricingEntry)
}.

Definition extractPrice (entries : option (list PricingEntry)) : R :=
  match entries with
  | None | Some [] => 0
  | Some (e0 :: es) =>
      match List.find (fun e => bool_decide (pe_unit e = lit "perMTokens")) (e0 :: es) with
      | Some perM => pe_value perM
      | None => pe_value e0
      end
  end.

(** [Array.prototype.includes] on strings. *)
Definition includesString (l : list jsstring) (s : jsstring) : bool :=
  existsb (fun x => bool_decide (x = s)) l.

Definition toZenMuxModel (api : ApiModel) : ZenMuxModel :=
  let hasVision :=
    match input_modalities api with
    | None => None
    | Some l => Some (includesString l (lit "image") || includesString l (lit "video"))
    end in
  {| m_id := api_id api;
     m_name := match display_name api with
             | Some (c :: n) => c :: n
             | _ => api_id api
             end;
     m_inputPrice := extractPrice (pricings_prompt api);
     m_outputPrice := extractPrice (pricings_completion api);
     contextWindow := match context_length api with
                      | Some x => if Req_dec_T x 0 then 128000 else x
                      | None => 128000
                      end;
     maxOutput := 65536;
     reasoning := Some (default false (capabilities_reasoning api));
     vision := Some (default false hasVision) |}.

Definition autoModel : ZenMuxModel :=
  {| m_id := lit "clawzenmux/auto";
     m_name := lit "ZenMux Smart Router";
     m_inputPrice := 0;
     m_outputPrice := 0;
     contextWindow := 1050000;
     maxOutput := 128000;
     reasoning := None;
     vision := None |}.

Record CacheEntry : Type := { models : list ZenMuxModel; fetchedAt : Z }.

Definition DEFAULT_CACHE_TTL_MS : Z := 30 * 60 * 1000.

Section WithCatalogue.

(** The built-in catalogue of src/models.ts. *)
Variable ZENMUX_MODELS : list ZenMuxModel.

(** [fetchModels].  [cache] is the module variable of that name; [fetched]
    is [data.data] of the answer of the models end point, [None] when the
    call throws, the response is not ok or the answer has no such array;
    [tCheck] and [tStore] are the values of [Date.now()]. *)
Definition fetchModels (cacheTtlMs : Z) (fetched : option (list ApiModel))
    (tCheck tStore : Z) (cache : option CacheEntry)
  : list ZenMuxModel * option CacheEntry :=
  let miss :=
    match fetched with
    | Some data =>
        let models := autoModel :: List.map toZenMuxModel data in
        (models, Some {| models := models; fetchedAt := tStore |})
    | None => (ZENMUX_MODELS, cache)
    end in
  match cache with
  | Some entry =>
      if (tCheck - fetchedAt entry <? cacheTtlMs)%Z then (models entry, cache) else miss
  | None => miss
  end.

End WithCatalogue.

Definition invalidateModelCache (cache : option CacheEntry) : option CacheEntry := None.

End Models.

(** ** The HTTP front of the proxy: [startProxy] and the request headers of
    [proxyRequest], src/proxy.ts *)

Module Server.
Import JS Dedup Proxy.

Local Open Scope Z_scope.

(** A member of [req.headers]: a string, or anything else (an array of
    strings, [undefined]). *)
Inductive HeaderValue : Type :=
| HString (s : jsstring)
| HOther.

Definition USER_AGENT : jsstring := lit "clawzenmux/0.1.0".

Definition isStripped (key : jsstring) : bool :=
  bool_decide (key = lit "host") || bool_decide (key = lit "connection")
  || bool_decide (key = lit "transfer-encoding")
  || bool_decide (key = lit "content-length").

(** [headers[key] = value] on an object literal: the assignment to
    [__proto__] of a string does not create a property. *)
Definition setProperty (key value : jsstring) (o : gmap jsstring jsstring)
  : gmap jsstring jsstring :=
  if bool_decide (key = lit "__proto__") then o else <[key := value]> o.

(** The headers sent upstream. *)
Definition forwardHeaders (apiKey : jsstring) (reqHeaders : list (jsstring * HeaderValue))
  : gmap jsstring jsstring :=
  let headers :=
    fold_left
      (fun h kv =>
         if isStripped (fst kv) then h
         else match snd kv with
              | HString v => setProperty (fst kv) v h
              | HOther => h
              end)
      reqHeaders ∅ in
  let headers1 :=
    match headers !! lit "content-type" with
    | Some (_ :: _) => headers
    | _ => <[lit "content-type" := lit "application/json"]> headers
    end in
  <[lit "authorization" := lit "Bearer " ++ apiKey]>
    (<[lit "user-agent" := USER_AGENT]> headers1).

Definition jsonHeaders : list (jsstring * jsstring) :=
  [ (lit "Content-Type", lit "application/json") ].

Definition quote : list byte := [x22].

(** The decimal digits of [models.length]. *)
Definition decimal (n : nat) : list byte :=
  ascii (NilEmpty.string_of_uint (Nat.to_uint n)).

(** [JSON.stringify({ status: "ok", provider: "zenmux", models: n })]. *)
Definition healthBody (n : nat) : list byte :=
  ascii "{" ++ quote ++ ascii "status" ++ quote ++ ascii ":" ++ quote ++ ascii "ok" ++ quote
    ++ ascii "," ++ quote ++ ascii "provider" ++ quote ++ ascii ":" ++ quote
    ++ ascii "zenmux" ++ quote ++ ascii "," ++ quote ++ ascii "models" ++ quote
    ++ ascii ":" ++ decimal n ++ ascii "}".

(** [JSON.stringify({ error: "Not found" })]. *)
Definition notFoundBody : list byte :=
  ascii "{" ++ quote ++ ascii "error" ++ quote ++ ascii ":" ++ quote ++ ascii "Not found"
    ++ quote ++ ascii "}".

Definition isHealth (url : jsstring) : bool :=
  bool_decide (url = lit "/health") || isPrefix (lit "/health?") url.

Section WithHost.

Variable hash : list byte -> jsstring.
Variable JSON_parse : list byte -> option Parsed.
Variable errorJson : list byte -> Z -> list byte.
(** The UTF-8 bytes of
    [JSON.stringify({ error: { message, type: "proxy_error" } })]. *)
Variable proxyErrorJson : jsstring -> list byte.

(** The request listener of [createServer].  [url] is [req.url], [nmodels]
    is [models.length], [message] is the message of the error
    [proxyRequest] throws when it throws; the other arguments are those of
    [proxyRequest]. *)
Definition handleRequest (url : option jsstring) (body : list byte) (nmodels : nat)
    (message : jsstring) (routed : option (list byte)) (up : Upstream) (ticks : nat)
    (tStart tDone tPrune : Z) (st : State) : Result * State :=
  let answer (r : ClientResponse) :=
    ({| response := Some r; waitingOn := None; failed := false; upstreamCalls := 0 |}, st) in
  let notFound :=
    answer {| c_status := 404; c_headers := jsonHeaders; c_body := notFoundBody |} in
  match url with
  | None => notFound
  | Some u =>
      if isHealth u then
        answer {| c_status := 200; c_headers := jsonHeaders; c_body := healthBody nmodels |}
      else if negb (isPrefix (lit "/v1") u) then notFound
      else
        let '(r, st') :=
          proxyRequest hash JSON_parse errorJson {| url := u; reqBody := body |}
            routed up ticks tStart tDone tPrune st in
        if failed r then
          let reported :=
            match response r with
            | None =>
                {| c_status := 502; c_headers := jsonHeaders;
                   c_body := proxyErrorJson (lit "Proxy error: " ++ message) |}
            | Some sent =>
                {| c_status := c_status sent; c_headers := c_headers sent;
                   c_body := c_body sent ++ ascii "data: " ++ proxyErrorJson message
                               ++ [x0a; x0a] ++ DONE |}
            end in
          ({| response := Some reported; waitingOn := None; failed := false;
              upstreamCalls := upstreamCalls r |}, st')
        else (r, st')
  end.

End WithHost.

End Server.

(** * Binary64: the Number type of JavaScript

    A JavaScript number is an IEEE-754 binary64 value.  [SpecFloat] of the
    Standard Library specifies the format and its correctly rounded
    operations (round to nearest, ties to even) for any precision; here it
    is instantiated at 53 bits of precision and exponent bound 1024. *)

Module Binary64.
Import SpecFloat.

Local Open Scope Z_scope.

Definition prec : Z := 53.
Definition emax : Z := 1024.

Definition number : Type := spec_float.

Definition zero : number := S754_zero false.

(** An integer as a number. *)
Definition ofZ (z : Z) : number := binary_normalize prec emax z 0 false.

Definition one : number := Eval vm_compute in ofZ 1.

(** [x + y], [x - y], [x * y], [x / y] and [-x]. *)
Definition add : number -> number -> number := SFadd prec emax.
Definition sub : number -> number -> number := SFsub prec emax.
Definition mul : number -> number -> number := SFmul prec emax.
Definition div : number -> number -> number := SFdiv prec emax.
Definition neg : number -> number := SFopp.

(** [x < y] and [x <= y]; both are false when an operand is NaN.
    [x > y] is [lt y x] and [x >= y] is [le y x]. *)
Definition lt (x y : number) : bool := SFltb x y.
Definition le (x y : number) : bool := SFleb x y.

(** A decimal literal with the digits [digits] and [places] digits after
    the point.  A literal denotes the number nearest to its decimal value;
    with [digits] and [10 ^ places] below [2 ^ 53] both integers are
    numbers, and the nearest number to their quotient is their correctly
    rounded division. *)
Definition decimal (digits : Z) (places : nat) : number :=
  div (ofZ digits) (ofZ (10 ^ Z.of_nat places)).

(** [Math.max(x, y)] and [Math.min(x, y)]: NaN when an operand is NaN, and
    [+0] counts as larger than [-0]. *)
Definition Math_max (x y : number) : number :=
  match SFcompare x y with
  | None => S754_nan
  | Some Lt => y
  | Some Gt => x
  | Some Eq => match x with S754_zero true => y | _ => x end
  end.

Definition Math_min (x y : number) : number :=
  match SFcompare x y with
  | None => S754_nan
  | Some Lt => x
  | Some Gt => y
  | Some Eq => match x with S754_zero false => y | _ => x end
  end.

End Binary64.

(** * src/router/rules.ts over binary64

    The rule-based classifier once more, with every number a binary64
    value and every arithmetic operation rounded as the engine rounds it.
    The text-matching parts are those of [Router]. *)

Module Router64.
Import JS Regex Binary64.

Record ScoringResult : Type := {
  score : number;
  tier : option Router.Tier;
  confidence : number;
  signals : list jsstring
}.

Record TokenCountThresholds : Type := { tc_simple : number; tc_complex : number }.

Record TierBoundaries : Type := {
  simpleMedium : number;
  mediumComplex : number;
  complexReasoning : number
}.

Record ScoringConfig : Type := {
  tokenCountThresholds : TokenCountThresholds;
  codeKeywords : list jsstring;
  reasoningKeywords : list jsstring;
  simpleKeywords : list jsstring;
  technicalKeywords : list jsstring;
  creativeKeywords : list jsstring;
  imperativeVerbs : list jsstring;
  constraintIndicators : list jsstring;
  outputFormatKeywords : list jsstring;
  referenceKeywords : list jsstring;
  negationKeywords : list jsstring;
  domainSpecificKeywords : list jsstring;
  dimensionWeights : gmap jsstring number;
  tierBoundaries : TierBoundaries;
  confidenceSteepness : number;
  confidenceThreshold : number
}.

Section Rules.

(** [String.prototype.toLowerCase], the number-to-string conversion of
    template literals and [Math.exp] are host functions. *)
Variable toLowerCase : jsstring -> jsstring.
Variable numberToString : number -> jsstring.
Variable Math_exp : number -> number.

Record DimensionScore : Type := {
  d_name : jsstring;
  d_score : number;
  d_signal : option jsstring
}.

Definition scoreTokenCount (estimatedTokens : number) (thresholds : TokenCountThresholds)
  : DimensionScore :=
  if lt estimatedTokens (tc_simple thresholds) then
    {| d_name := lit "tokenCount"; d_score := neg (ofZ 1);
       d_signal := Some (lit "short (" ++ numberToString estimatedTokens ++ lit " tokens)") |}
  else if lt (tc_complex thresholds) estimatedTokens then
    {| d_name := lit "tokenCount"; d_score := ofZ 1;
       d_signal := Some (lit "long (" ++ numberToString estimatedTokens ++ lit " tokens)") |}
  else
    {| d_name := lit "tokenCount"; d_score := zero; d_signal := None |}.

Definition scoreKeywordMatch (text : jsstring) (keywords : list jsstring)
    (name signalLabel : jsstring) (low high : nat) (none_s low_s high_s : number)
  : DimensionScore :=
  let matches := Router.keywordMatches toLowerCase text keywords in
  let signal := signalLabel ++ lit " (" ++ join (lit ", ") (take 3 matches) ++ lit ")" in
  if (high <=? length matches)%nat then
    {| d_name := name; d_score := high_s; d_signal := Some signal |}
  else if (low <=? length matches)%nat then
    {| d_name := name; d_score := low_s; d_signal := Some signal |}
  else
    {| d_name := name; d_score := none_s; d_signal := None |}.

Definition scoreMultiStep (text : jsstring) : DimensionScore :=
  let hits := List.filter (fun p => test p text) Router.multiStepPatterns in
  if (0 <? length hits)%nat then
    {| d_name := lit "multiStepPatterns"; d_score := decimal 5 1;
       d_signal := Some (lit "multi-step") |}
  else
    {| d_name := lit "multiStepPatterns"; d_score := zero; d_signal := None |}.

Definition scoreQuestionComplexity (prompt : jsstring) : DimensionScore :=
  let count := countMatches (Chr (N.eqb 63)) prompt in
  if (3 <? count)%nat then
    {| d_name := lit "questionComplexity"; d_score := decimal 5 1;
       d_signal := Some (numberToString (ofZ (Z.of_nat count)) ++ lit " questions") |}
  else
    {| d_name := lit "questionComplexity"; d_score := zero; d_signal := None |}.

(** [1 / (1 + Math.exp(-steepness * distance))]. *)
Definition calibrateConfidence (distance steepness : number) : number :=
  div (ofZ 1) (add (ofZ 1) (Math_exp (mul (neg steepness) distance))).

Definition dimensions (text userText prompt : jsstring) (estimatedTokens : number)
    (config : ScoringConfig) : list DimensionScore :=
  [ scoreTokenCount estimatedTokens (tokenCountThresholds config);
    scoreKeywordMatch text (codeKeywords config)
      (lit "codePresence") (lit "code") 1 2 zero (decimal 5 1) (ofZ 1);
    scoreKeywordMatch userText (reasoningKeywords config)
      (lit "reasoningMarkers") (lit "reasoning") 1 2 zero (decimal 7 1) (ofZ 1);
    scoreKeywordMatch text (technicalKeywords config)
      (lit "technicalTerms") (lit "technical") 2 4 zero (decimal 5 1) (ofZ 1);
    scoreKeywordMatch text (creativeKeywords config)
      (lit "creativeMarkers") (lit "creative") 1 2 zero (decimal 5 1) (decimal 7 1);
    scoreKeywordMatch text (simpleKeywords config)
      (lit "simpleIndicators") (lit "simple") 1 2 zero (neg (ofZ 1)) (neg (ofZ 1));
    scoreMultiStep text;
    scoreQuestionComplexity prompt;
    scoreKeywordMatch text (imperativeVerbs config)
      (lit "imperativeVerbs") (lit "imperative") 1 2 zero (decimal 3 1) (decimal 5 1);
    scoreKeywordMatch text (constraintIndicators config)
      (lit "constraintCount") (lit "constraints") 1 3 zero (decimal 3 1) (decimal 7 1);
    scoreKeywordMatch text (outputFormatKeywords config)
      (lit "outputFormat") (lit "format") 1 2 zero (decimal 4 1) (decimal 7 1);
    scoreKeywordMatch text (referenceKeywords config)
      (lit "referenceComplexity") (lit "references") 1 2 zero (decimal 3 1) (decimal 5 1);
    scoreKeywordMatch text (negationKeywords config)
      (lit "negationComplexity") (lit "negation") 2 3 zero (decimal 3 1) (decimal 5 1);
    scoreKeywordMatch text (domainSpecificKeywords config)
      (lit "domainSpecificity") (lit "domain-specific") 1 2 zero (decimal 5 1) (decimal 8 1) ].

(** [for (const d of dimensions) weightedScore += d.score * (weights[d.name] ?? 0)]. *)
Definition weightedSum (weights : gmap jsstring number) (ds : list DimensionScore)
  : number :=
  fold_left (fun acc d => add acc (mul (d_score d) (default zero (weights !! d_name d))))
    ds zero.

Definition collectSignals (ds : list DimensionScore) : list jsstring :=
  omap d_signal ds.

Definition classifyByRules (prompt : jsstring) (systemPrompt : option jsstring)
    (estimatedTokens : number) (config : ScoringConfig) : ScoringResult :=
  let text := toLowerCase (default [] systemPrompt ++ lit " " ++ prompt) in
  let userText := toLowerCase prompt in
  let dims := dimensions text userText prompt estimatedTokens config in
  let signals := collectSignals dims in
  let weightedScore := weightedSum (dimensionWeights config) dims in
  let reasoningMatches :=
    Router.keywordMatches toLowerCase userText (reasoningKeywords config) in
  if (2 <=? length reasoningMatches)%nat then
    let confidence :=
      calibrateConfidence (Math_max weightedScore (decimal 3 1))
        (confidenceSteepness config) in
    {| score := weightedScore;
       tier := Some Router.REASONING;
       confidence := Math_max confidence (decimal 85 2);
       signals := signals |}
  else
    let b := tierBoundaries config in
    let '(tier, distanceFromBoundary) :=
      if lt weightedScore (simpleMedium b) then
        (Router.SIMPLE, sub (simpleMedium b) weightedScore)
      else if lt weightedScore (mediumComplex b) then
        (Router.MEDIUM,
         Math_min (sub weightedScore (simpleMedium b)) (sub (mediumComplex b) weightedScore))
      else if lt weightedScore (complexReasoning b) then
        (Router.COMPLEX,
         Math_min (sub weightedScore (mediumComplex b))
           (sub (complexReasoning b) weightedScore))
      else
        (Router.REASONING, sub weightedScore (complexReasoning b)) in
    let confidence := calibrateConfidence distanceFromBoundary (confidenceSteepness config) in
    if lt confidence (confidenceThreshold config) then
      {| score := weightedScore; tier := None; confidence := confidence; signals := signals |}
    else
      {| score := weightedScore; tier := Some tier; confidence := confidence;
         signals := signals |}.

End Rules.

End Router64.

(** * Definitions used by the statements *)

Module RouterSpec.
Import JS Regex Router.

Local Open Scope R_scope.



(** The same options with another scoring configuration. *)
Definition withScoring (sc : ScoringConfig) (options : RouterOptions) : RouterOptions :=
  {| config := {| scoring := sc;
                  tiers := tiers (config options);
                  overrides := overrides (config options) |};
     modelPricing := modelPricing options |}.

End RouterSpec.

(** * Matches and directives *)

Module RegexSpec.
Import JS Regex.

(** A literal under the [i] flag, read directly off the input. *)
Fixpoint litCI (w : jsstring) (prev : option N) (s : jsstring) : option mstate :=
  match w with
  | [] => Some (prev, s)
  | p :: w' =>
      match s with
      | c :: s' => if eqCI p c then litCI w' (Some c) s' else None
      | [] => None
      end
  end.

(** The code unit before the position reached after reading [x]. *)
Definition lastOr (prev : option N) (x : jsstring) : option N :=
  match last x with
  | Some c => Some c
  | None => prev
  end.

Definition isSpaceOpt (o : option N) : bool :=
  match o with
  | Some c => isSpace c
  | None => false
  end.

(** The positions, counted from [i], at which [r] matches. *)
Fixpoint matchPositions (r : regex) (prev : option N) (s : jsstring) (i : nat) : list nat :=
  match matchHere r prev s with
  | Some _ => [i]
  | None => []
  end
  ++ match s with
     | [] => []
     | c :: s' => matchPositions r (Some c) s' (S i)
     end.

End RegexSpec.

Module DirectiveSpec.
Import JS Regex Router Directive RegexSpec.

(** [w] spelled in any mix of ASCII cases. *)
Definition spells (w s : jsstring) : Prop := Forall2 (fun p c => eqCI p c = true) w s.

(** A directive naming tier [t]: the word USE, white space, the tier name. *)
Definition isDirective (t : Tier) (d : jsstring) : Prop :=
  exists u ws nm,
    d = u ++ ws ++ nm
    /\ spells (lit "USE") u
    /\ ws <> [] /\ Forall (fun c => isSpace c = true) ws
    /\ spells (tierName t) nm.

(** The positions of [text] at which the directive expression matches. *)
Definition directivePositions (text : jsstring) : list nat :=
  matchPositions TIER_OVERRIDE_REGEX None text 0.

(** The letters of the patterns are upper-case. *)
Definition allUpper (w : jsstring) : Prop := Forall (fun p => isUpper p = true) w.

(** The alternative of tier [t'] in [(SIMPLE|MEDIUM|COMPLEX|REASONING)\b],
    applied to the state [(prev, s)]. *)
Definition alternative (t' : Tier) (prev : option N) (s : jsstring) : list mstate :=
  match litCI (tierName t') prev s with
  | Some st => rmatch WordB (fst st) (snd st)
  | None => []
  end.

(** Every text obtained from [s] by deleting one contiguous substring. *)
Definition deletions (s : jsstring) : list jsstring :=
  List.flat_map
    (fun i => List.map (fun n => take i s ++ drop (i + n) s) (seq 0 (S (length s - i))))
    (seq 0 (S (length s))).

(** A content part the directive expression does not apply to: not a text
    part, or a text without a match. *)
Definition noDirectivePart (p : ContentPart) : Prop :=
  match p_text p with
  | Some text => p_type p = lit "text" -> parseForcedTier text = None
  | None => True
  end.

(** [holdsText c text rebuild]: the content [c] carries [text] in one
    place, and [rebuild text'] is [c] with [text'] in that place.  The
    content is the string [text], or an array with one text part of text
    [text] whose other parts carry no directive. *)
Inductive holdsText : Content -> jsstring -> (jsstring -> Content) -> Prop :=
| holds_string text : holdsText (CString text) text CString
| holds_part before part after text :
    p_type part = lit "text" ->
    p_text part = Some text ->
    Forall noDirectivePart (before ++ after) ->
    holdsText (CParts (before ++ part :: after)) text
      (fun text' =>
         CParts (before ++ mkPart (p_type part) (Some text') (p_extra part) :: after)).

(** The example of the README, and the same prompt with a doubled space. *)
Definition readmePrompt : jsstring :=
  lit "USE COMPLEX Design a distributed message queue architecture".

Definition spacedPrompt : jsstring :=
  lit "USE COMPLEX Design  a distributed message queue architecture".

(** A prompt whose directive follows the text without white space. *)
Definition tightPrompt : jsstring := lit "Design a message queue.USE COMPLEX".

Definition tightMessages : list ChatMessage :=
  [ {| role := lit "user"; content := CString tightPrompt |} ].

Definition sampleMessages : list ChatMessage :=
  [ {| role := lit "system"; content := CString (lit "You are a helpful assistant.") |};
    {| role := lit "user"; content := CString readmePrompt |} ].

End DirectiveSpec.

(** * Host functions and sample data used to instantiate the statements *)

Module Host.
Import JS Regex Router.

Local Open Scope R_scope.

(** [String.prototype.toLowerCase] on strings of ASCII code units. *)
Definition asciiLower (c : N) : N := if isUpper c then (c + 32)%N else c.

Definition toLowerCaseAscii (s : jsstring) : jsstring := List.map asciiLower s.

(** The number-to-string conversion only feeds the trace strings
    ([signals], [reasoning]); the sample runs print every number as [n]. *)
Definition numberToStringOpaque (x : R) : jsstring := lit "n".

(** The numeric part of [DEFAULT_ROUTING_CONFIG] in src/router/config.ts. *)
Definition defaultWeights : gmap jsstring R :=
  list_to_map
    [ (lit "tokenCount", 0.08); (lit "codePresence", 0.15);
      (lit "reasoningMarkers", 0.18); (lit "technicalTerms", 0.1);
      (lit "creativeMarkers", 0.05); (lit "simpleIndicators", 0.12);
      (lit "multiStepPatterns", 0.12); (lit "questionComplexity", 0.05);
      (lit "imperativeVerbs", 0.03); (lit "constraintCount", 0.04);
      (lit "outputFormat", 0.03); (lit "referenceComplexity", 0.02);
      (lit "negationComplexity", 0.01); (lit "domainSpecificity", 0.02) ].

Definition defaultBoundaries : TierBoundaries :=
  {| simpleMedium := 0; mediumComplex := 0.15; complexReasoning := 0.25 |}.

(** The default scoring configuration with a few of the English keywords
    of each list, and the confidence threshold left open. *)
Definition scoringWith (threshold : R) : ScoringConfig :=
  {| tokenCountThresholds := {| tc_simple := 50; tc_complex := 500 |};
     codeKeywords := [lit "function"; lit "class"; lit "import"; lit "def"];
     reasoningKeywords := [lit "prove"; lit "theorem"; lit "derive"; lit "step by step"];
     simpleKeywords := [lit "what is"; lit "define"; lit "translate"; lit "hello"];
     technicalKeywords := [lit "algorithm"; lit "optimize"; lit "architecture"];
     creativeKeywords := [lit "story"; lit "poem"];
     imperativeVerbs := [lit "build"; lit "create"];
     constraintIndicators := [lit "at most"; lit "at least"];
     outputFormatKeywords := [lit "json"; lit "yaml"];
     referenceKeywords := [lit "above"; lit "below"];
     negationKeywords := [lit "don't"; lit "avoid"];
     domainSpecificKeywords := [lit "quantum"; lit "genomics"];
     dimensionWeights := defaultWeights;
     tierBoundaries := defaultBoundaries;
     confidenceSteepness := 12;
     confidenceThreshold := threshold |}.

Definition defaultTiers : TierTable :=
  {| t_SIMPLE := {| primary := lit "deepseek/deepseek-v3.2";
                    fallback := [lit "google/gemini-2.5-flash"] |};
     t_MEDIUM := {| primary := lit "google/gemini-3-flash-preview";
                    fallback := [lit "deepseek/deepseek-v3.2"] |};
     t_COMPLEX := {| primary := lit "anthropic/claude-sonnet-4.5";
                     fallback := [lit "anthropic/claude-sonnet-4"; lit "openai/gpt-4o"] |};
     t_REASONING := {| primary := lit "deepseek/deepseek-v3.2-thinking";
                       fallback := [lit "openai/gpt-5.2"] |} |}.

Definition defaultOverrides (ceiling : R) : OverridesConfig :=
  {| maxTokensForceComplex := ceiling;
     structuredOutputMinTier := MEDIUM;
     ambiguousDefaultTier := MEDIUM |}.

Definition samplePricing : gmap jsstring ModelPricing :=
  list_to_map
    [ (lit "anthropic/claude-opus-4.6", {| inputPrice := 5; outputPrice := 25 |});
      (lit "anthropic/claude-sonnet-4.5", {| inputPrice := 3; outputPrice := 15 |}) ].

Definition sampleOptions (ceiling threshold : R) : RouterOptions :=
  {| config := {| scoring := scoringWith threshold;
                  tiers := defaultTiers;
                  overrides := defaultOverrides ceiling |};
     modelPricing := samplePricing |}.

Definition samplePrompt : jsstring := lit "prove the theorem".

End Host.

(** * Traces of the deduplicator *)

Module DedupSpec.
Import JS Dedup.

Local Open Scope Z_scope.

(** The public operations of [RequestDeduplicator]. *)
Inductive Op : Type :=
| OpGetCached (key : jsstring) (now : Z)
| OpGetInflight (key : jsstring)
| OpMarkInflight (key : jsstring)
| OpComplete (key : jsstring) (result : CachedResponse) (now : Z)
| OpRemoveInflight (key : jsstring).

Definition runOp (op : Op) (st : State) : State :=
  match op with
  | OpGetCached key now => snd (getCached key now st)
  | OpGetInflight key => snd (getInflight key st)
  | OpMarkInflight key => markInflight key st
  | OpComplete key result now => complete key result now st
  | OpRemoveInflight key => removeInflight key st
  end.

(** The states a deduplicator can be in: a fresh one, and whatever a
    sequence of operations makes of it. *)
Inductive reachable : State -> Prop :=
| reachable_create ttl : reachable (create ttl)
| reachable_step op st : reachable st -> reachable (runOp op st).

(** Every settled promise has been allocated. *)
Definition heapOk (h : Promises) : Prop :=
  forall p, is_Some (settled h !! p) -> (p < nextPromise h)%nat.

(** The promises an in-flight entry will settle are allocated, pending and
    pairwise distinct. *)
Definition entryOk (h : Promises) (e : InflightEntry) : Prop :=
  NoDup (resolverTargets (resolve e))
  /\ forall p, p ∈ resolverTargets (resolve e) ->
       (p < nextPromise h)%nat /\ settled h !! p = None.

Definition wellFormed (st : State) : Prop :=
  heapOk (heap st)
  /\ (forall k e, inflight st !! k = Some e -> entryOk (heap st) e)
  /\ (forall k1 k2 e1 e2 p,
        k1 <> k2 -> inflight st !! k1 = Some e1 -> inflight st !! k2 = Some e2 ->
        p ∈ resolverTargets (resolve e1) -> p ∉ resolverTargets (resolve e2)).

(** The completed map after [prune] at time [now]. *)
Definition unexpired (now ttl : Z) (m : gmap jsstring CachedResponse)
  : gmap jsstring CachedResponse :=
  filter (fun kv => expired now ttl (snd kv) = false) m.

End DedupSpec.

(** * The proxy: definitions used by the statements, and sample hosts *)

Module ProxySpec.
Import JS Dedup Proxy.

Local Open Scope Z_scope.

Section WithHost.

Variable errorJson : list byte -> Z -> list byte.

(** The entry [proxyRequest] hands to [deduplicator.complete] when the
    upstream call returned a response with status [ust], headers [hs] and
    body [chunks]. *)
Definition forwardedEntry (isStreaming : bool) (ust : Z)
    (hs : list (jsstring * jsstring)) (chunks : list (list byte)) (tDone : Z)
  : CachedResponse :=
  if isStreaming then
    {| status := 200;
       headers := sseHeaders;
       body := if bool_decide (ust = 200) then concat chunks
               else errEvent errorJson (concat chunks) ust ++ DONE;
       completedAt := tDone |}
  else
    {| status := ust;
       headers := responseHeadersOf hs;
       body := concat chunks;
       completedAt := tDone |}.

End WithHost.

(** Stand-ins for the host functions in the sample runs.  The digest is
    replaced by the identity on the bytes (only its being a function
    matters); the parser recognises the two members [proxyRequest] reads;
    the error object is printed for a message that needs no escaping. *)
Definition codes (b : list byte) : jsstring := List.map Byte.to_N b.

Definition sampleHash (b : list byte) : jsstring := codes b.

Definition quoted (s : string) : list byte := [x22] ++ ascii s ++ [x22].

Definition sampleParse (b : list byte) : option Parsed :=
  match b with
  | x7b :: _ =>
      Some {| p_stream := includes (codes b) (codes (quoted "stream" ++ ascii ":true"));
              p_auto := includes (codes b) (codes (quoted "model" ++ ascii ":" ++ quoted "auto")) |}
  | _ => None
  end.

Definition sampleErrorJson (errBody : list byte) (st : Z) : list byte :=
  ascii "{" ++ quoted "error" ++ ascii ":{" ++ quoted "message" ++ ascii ":"
    ++ [x22] ++ errBody ++ [x22] ++ ascii "," ++ quoted "type" ++ ascii ":"
    ++ quoted "upstream_error" ++ ascii "," ++ quoted "status" ++ ascii ":"
    ++ ascii (NilZero.string_of_int (Z.to_int st)) ++ ascii "}}".

Definition chatUrl : jsstring := lit "/v1/chat/completions".

(** [{"model":"gpt","stream":true}] and [{"model":"gpt"}]. *)
Definition streamingBody : list byte :=
  ascii "{" ++ quoted "model" ++ ascii ":" ++ quoted "gpt" ++ ascii ","
    ++ quoted "stream" ++ ascii ":true}".

Definition plainBody : list byte :=
  ascii "{" ++ quoted "model" ++ ascii ":" ++ quoted "gpt" ++ ascii "}".

Definition streamingRequest : Request := {| url := chatUrl; reqBody := streamingBody |}.
Definition plainRequest : Request := {| url := chatUrl; reqBody := plainBody |}.

(** One SSE data frame, [data: hi\n\n]. *)
Definition helloFrame : list byte := ascii "data: hi" ++ [x0a; x0a].

(** An upstream error body of 1,048,577 bytes. *)
Definition hugeErrorBody : list byte := replicate (Z.to_nat 1048577) x78.

End ProxySpec.

(** * Further definitions used by the statements *)

Module DedupMoreSpec.
Import JS Dedup DedupSpec.

(** A sequence of operations, run from left to right. *)
Definition runOps (ops : list Op) (st : State) : State :=
  fold_left (fun s op => runOp op s) ops st.

(** No in-flight entry holds a closure that settles promise [p]. *)
Definition unreferenced (p : nat) (st : State) : Prop :=
  forall k e, inflight st !! k = Some e -> p ∉ resolverTargets (resolve e).

(** Promise [p] is allocated, pending, and no closure will settle it. *)
Definition orphaned (p : nat) (st : State) : Prop :=
  wellFormed st
  /\ (p < nextPromise (heap st))%nat
  /\ settled (heap st) !! p = None
  /\ unreferenced p st.

(** An operation that leaves the completed entry of [key] alone as long as
    that entry is alive at time [now]: any operation but a [complete] of
    [key] itself, reading the clock at [now] or before. *)
Definition quiet (key : jsstring) (now : Z) (op : Op) : Prop :=
  match op with
  | OpGetCached _ t => (t <= now)%Z
  | OpComplete k _ t => k <> key /\ (t <= now)%Z
  | _ => True
  end.

End DedupMoreSpec.

Module ServerSpec.
Import JS Dedup Proxy ProxySpec Server.

(** The last string value a client header list gives to [key]. *)
Fixpoint lastString (key : jsstring) (reqHeaders : list (jsstring * HeaderValue))
  : option jsstring :=
  match reqHeaders with
  | [] => None
  | kv :: l =>
      match lastString key l with
      | Some v => Some v
      | None =>
          match snd kv with
          | HString v => if bool_decide (fst kv = key) then Some v else None
          | HOther => None
          end
      end
  end.

(** The names [forwardHeaders] sets itself or cannot set. *)
Definition isReserved (key : jsstring) : bool :=
  bool_decide (key = lit "authorization") || bool_decide (key = lit "user-agent")
  || bool_decide (key = lit "content-type") || bool_decide (key = lit "__proto__").

(** The event appended to a response whose headers were already sent. *)
Definition proxyErrorEvent (proxyErrorJson : jsstring -> list byte) (message : jsstring)
  : list byte :=
  ascii "data: " ++ proxyErrorJson message ++ [x0a; x0a] ++ DONE.

(** A sample host: the message as bytes, without escaping. *)
Definition sampleProxyErrorJson (message : jsstring) : list byte :=
  ascii "{error:" ++ omap (fun c => Byte.of_N c) message ++ ascii "}".

Definition sampleHeaders : list (jsstring * HeaderValue) :=
  [ (lit "host", HString (lit "localhost:8403"));
    (lit "authorization", HString (lit "Bearer client"));
    (lit "accept", HString (lit "text/event-stream"));
    (lit "set-cookie", HOther);
    (lit "content-length", HString (lit "12")) ].

End ServerSpec.

Module DirectiveMoreSpec.
Import JS Regex Router Directive DirectiveSpec.

(** A content without a tier directive. *)
Definition noDirective (c : Content) : Prop :=
  match c with
  | CString s => parseForcedTier s = None
  | CParts ps => Forall noDirectivePart ps
  | _ => True
  end.

(** The tier a content part names, if it is a text part with a directive. *)
Definition partTier (p : ContentPart) : option Tier :=
  if bool_decide (p_type p = lit "text") then p_text p ≫= parseForcedTier else None.

(** The part with its directives removed. *)
Definition strippedPart (p : ContentPart) : ContentPart :=
  match partTier p, p_text p with
  | Some _, Some text =>
      mkPart (p_type p) (Some (stripForcedTierDirective text)) (p_extra p)
  | _, _ => p
  end.

(** Two spaces or tabs in a row somewhere in the text. *)
Fixpoint adjacentBlanks (s : jsstring) : bool :=
  match s with
  | [] => false
  | c1 :: s' =>
      match s' with
      | c2 :: _ => isBlank c1 && isBlank c2
      | [] => false
      end || adjacentBlanks s'
  end.

Definition isBlankOpt (o : option N) : bool :=
  match o with
  | Some c => isBlank c
  | None => false
  end.

End DirectiveMoreSpec.

Module RouterMoreSpec.
Import JS Regex Router.

Local Open Scope R_scope.






(** The tier of a weighted score between the configured boundaries. *)
Definition tierOfScore (b : TierBoundaries) (w : R) : Tier :=
  if Rlt_dec w (simpleMedium b) then SIMPLE
  else if Rlt_dec w (mediumComplex b) then MEDIUM
  else if Rlt_dec w (complexReasoning b) then COMPLEX
  else REASONING.

(** The words of the structured-output expression. *)
Definition formatWordList : list jsstring :=
  [lit "json"; lit "yaml"; lit "xml"; lit "csv"].

Definition outputWordList : list jsstring :=
  [lit "format"; lit "output"; lit "respond"; lit "return"].

(** [u] is one of the words of [ws], in any mix of ASCII cases. *)
Definition spellsOneOf (ws : list jsstring) (u : jsstring) : Prop :=
  exists w, In w ws /\ DirectiveSpec.spells w u.

(** A prompt with words [u1] and [u2] on one line, each standing as a
    whole word, [y] being the text between them. *)
Definition wordsOnOneLine (a u1 y u2 z : jsstring) : Prop :=
  isWordOpt (last a) = false
  /\ y <> []
  /\ isWordOpt (head y) = false
  /\ isWordOpt (last y) = false
  /\ Forall (fun c => isLineTerminator c = false) y
  /\ isWordOpt (head z) = false.

End RouterMoreSpec.

Module ClassifierSpec.
Import JS Regex Router Classifier.

Local Open Scope Z_scope.

(** The polynomial in 31 whose coefficients are the code units of the
    text, first unit first, written in Horner form over the integers. *)
Definition poly31 (s : jsstring) : Z := fold_left (fun h c => 31 * h + Z.of_N c) s 0.

(** A sample host: upper case of the ASCII letters. *)
Definition toUpperCaseAscii (s : jsstring) : jsstring := List.map asciiUpper s.

Definition sampleConfig : ClassifierConfig :=
  {| llmModel := lit "google/gemini-2.5-flash";
     llmMaxTokens := 10;
     llmTemperature := 0;
     promptTruncationChars := 500;
     cacheTtlMs := 3600000 |}.

Definition sampleClassifier : AiClassifier :=
  {| apiBase := lit "https://zenmux.ai/api";
     apiKey := lit "key";
     cl_config := sampleConfig;
     cache := [] |}.

(** A classifier model that always answers [" Complex.\n"]. *)
Definition sampleFetch (text : jsstring) : option jsstring :=
  Some (lit " Complex." ++ [10%N]).

End ClassifierSpec.

Module ModelsSpec.
Import JS Router Models.

Local Open Scope R_scope.

(** The prices [buildModelPricing] stores for a model. *)
Definition pricingOf (m : ZenMuxModel) : ModelPricing :=
  {| inputPrice := m_inputPrice m; outputPrice := m_outputPrice m |}.

(** The last model of the list with the given id. *)
Definition lastWithId (key : jsstring) (models : list ZenMuxModel) : option ZenMuxModel :=
  last (List.filter (fun m => bool_decide (m_id m = key)) models).

Definition lastApiWithId (key : jsstring) (data : list ApiModel) : option ApiModel :=
  last (List.filter (fun a => bool_decide (api_id a = key)) data).

(** A sample answer of the models end point and a sample catalogue. *)
Definition sampleApiModel : ApiModel :=
  {| api_id := lit "openai/gpt-5";
     display_name := None;
     input_modalities := Some [lit "text"; lit "image"];
     capabilities_reasoning := None;
     context_length := None;
     pricings_prompt :=
       Some [ {| pe_value := 9; pe_unit := lit "perKTokens" |};
              {| pe_value := 1.25; pe_unit := lit "perMTokens" |} ];
     pricings_completion := None |}.

Definition sampleCatalogue : list ZenMuxModel := [autoModel].

End ModelsSpec.

(** * Binary64: definitions used by the statements, and sample hosts *)

Module Binary64Spec.
Import SpecFloat Binary64.

Local Open Scope Z_scope.

(** The representation is the canonical one of a binary64 value: a
    significand of 53 bits, or of fewer bits at the least exponent. *)
Definition valid (x : number) : Prop := valid_binary prec emax x = true.

Definition isNaN (x : number) : bool :=
  match x with
  | S754_nan => true
  | _ => false
  end.

(** Neither NaN nor an infinity. *)
Definition finite (x : number) : bool :=
  match x with
  | S754_zero _ | S754_finite _ _ _ => true
  | _ => false
  end.

Definition two : number := Eval vm_compute in ofZ 2.
Definition half : number := Eval vm_compute in decimal 5 1.

(** [2 ^ -54], a quarter of the distance from 1 to the next number. *)
Definition tiny : number := S754_finite false (2 ^ 52) (-106).

(** A positive number with a full significand at exponent [e]. *)
Definition normalAt (e : Z) (x : number) : Prop :=
  exists q, x = S754_finite false q e /\ 2 ^ 52 <= Zpos q < 2 ^ 53.

(** The numbers from 1 to 2, and those from 1/2 to 1. *)
Definition inOneTwo (s : number) : Prop := normalAt (-52) s \/ s = two.
Definition inHalfOne (c : number) : Prop := normalAt (-53) c \/ c = one.

(** [x] is a zero, a finite number or an infinity of sign [sx]. *)
Definition signed (sx : bool) (x : number) : Prop :=
  match x with
  | S754_zero s | S754_infinity s | S754_finite s _ _ => s = sx
  | S754_nan => False
  end.

(** A number from 0 to 1. *)
Definition unitRange (e : number) : Prop :=
  valid e /\ le zero e = true /\ le e one = true.

(** What the statements ask of [Math.exp]: at an argument that is not
    positive its value is a number from 0 to 1. *)
Definition expWithinUnit (Math_exp : number -> number) : Prop :=
  forall x, le x zero = true -> unitRange (Math_exp x).

(** A canonical number that is neither NaN nor an infinity. *)
Definition finiteNumber (x : number) : Prop := valid x /\ finite x = true.

End Binary64Spec.

Module Router64Spec.
Import Binary64 Router64.

(** The distance of the score [w] from the nearest boundary of the range it
    falls in, as [classifyByRules] computes it. *)
Definition distanceFromBoundary (b : TierBoundaries) (w : number) : number :=
  if lt w (simpleMedium b) then sub (simpleMedium b) w
  else if lt w (mediumComplex b) then
    Math_min (sub w (simpleMedium b)) (sub (mediumComplex b) w)
  else if lt w (complexReasoning b) then
    Math_min (sub w (mediumComplex b)) (sub (complexReasoning b) w)
  else sub w (complexReasoning b).

End Router64Spec.

Module Host64.
Import JS Regex Binary64 Binary64Spec Router64.

Local Open Scope Z_scope.

(** As in [Host], the sample runs print every number as [n]. *)
Definition numberToStringOpaque (x : number) : jsstring := lit "n".

(** [Math.ceil(s.length / 4)], the token estimate [route] passes on. *)
Definition estimateTokens (s : jsstring) : number :=
  ofZ (Z.of_nat ((length s + 3) / 4)).

(** [Math.exp] at the arguments the sample runs reach, correctly rounded:
    [exp(-80) = 0x1.7fd974d372e45p-116] and
    [exp(-3.5999999999999996) = 0x1.bfabff943b06bp-6]. *)
Definition expTable : list (number * number) :=
  [ (neg (ofZ 80), SpecFloat.S754_finite false 6752750741696069 (-168));
    (mul (neg (ofZ 12)) (decimal 3 1), SpecFloat.S754_finite false 7875526798848107 (-58)) ].

(** A stand-in for [Math.exp] in the sample runs: 1 at zero, the tabulated
    value at a tabulated argument, and 0 anywhere else.  It meets
    [expWithinUnit]; the statements hold of every host that does. *)
Definition sampleExp (x : number) : number :=
  match x with
  | SpecFloat.S754_zero _ => one
  | _ =>
      match List.find (fun kv => SpecFloat.SFeqb (fst kv) x) expTable with
      | Some kv => snd kv
      | None => zero
      end
  end.

(** The numeric part of [DEFAULT_ROUTING_CONFIG] in src/router/config.ts. *)
Definition defaultWeights : gmap jsstring number :=
  list_to_map
    [ (lit "tokenCount", decimal 8 2); (lit "codePresence", decimal 15 2);
      (lit "reasoningMarkers", decimal 18 2); (lit "technicalTerms", decimal 1 1);
      (lit "creativeMarkers", decimal 5 2); (lit "simpleIndicators", decimal 12 2);
      (lit "multiStepPatterns", decimal 12 2); (lit "questionComplexity", decimal 5 2);
      (lit "imperativeVerbs", decimal 3 2); (lit "constraintCount", decimal 4 2);
      (lit "outputFormat", decimal 3 2); (lit "referenceComplexity", decimal 2 2);
      (lit "negationComplexity", decimal 1 2); (lit "domainSpecificity", decimal 2 2) ].

Definition defaultBoundaries : TierBoundaries :=
  {| simpleMedium := zero; mediumComplex := decimal 15 2; complexReasoning := decimal 25 2 |}.

(** The keyword lists of [Host.scoringWith] and the default numbers, with
    the confidence steepness left open. *)
Definition scoringWith (steepness : number) : ScoringConfig :=
  let words := Host.scoringWith 0.6%R in
  {| tokenCountThresholds := {| tc_simple := ofZ 50; tc_complex := ofZ 500 |};
     codeKeywords := Router.codeKeywords words;
     reasoningKeywords := Router.reasoningKeywords words;
     simpleKeywords := Router.simpleKeywords words;
     technicalKeywords := Router.technicalKeywords words;
     creativeKeywords := Router.creativeKeywords words;
     imperativeVerbs := Router.imperativeVerbs words;
     constraintIndicators := Router.constraintIndicators words;
     outputFormatKeywords := Router.outputFormatKeywords words;
     referenceKeywords := Router.referenceKeywords words;
     negationKeywords := Router.negationKeywords words;
     domainSpecificKeywords := Router.domainSpecificKeywords words;
     dimensionWeights := defaultWeights;
     tierBoundaries := defaultBoundaries;
     confidenceSteepness := steepness;
     confidenceThreshold := decimal 6 1 |}.

(** A prompt without any keyword of the sample lists. *)
Definition plainPrompt : jsstring := lit "hola".

End Host64.

(** * Properties *)

(** ** The router *)

Module RouterFacts.
Import JS Regex Router RouterSpec.

Local Open Scope R_scope.







Section RulesFacts.

Variable toLowerCase : jsstring -> jsstring.
Variable numberToString : R -> jsstring.

Abbreviation classifyByRules := (classifyByRules toLowerCase numberToString).
Abbreviation route := (route toLowerCase numberToString).
Abbreviation keywordMatches := (keywordMatches toLowerCase).

(** The real-valued sigmoid of a non-negative argument is at least 1/2 and
    at most 1. *)
Lemma calibrateConfidence_bounds distance steepness :
  0 <= steepness * distance ->
  1 / 2 <= calibrateConfidence distance steepness <= 1.
Proof.
  intros Hx. unfold calibrateConfidence.
  set (e := exp (- steepness * distance)).
  assert (He0 : 0 < e) by apply exp_pos.
  assert (He1 : e <= 1).
  { unfold e. rewrite <- exp_0.
    destruct (Req_dec (- steepness * distance) 0) as [->|Hne]; [lra|].
    left. apply exp_increasing. lra. }
  assert (Hinv : 1 / (1 + e) * (1 + e) = 1) by (field; lra).
  split; nra.
Qed.


(** What [classifyByRules] returns on its two paths. *)
Lemma classifyByRules_override prompt systemPrompt estimatedTokens config :
  (2 <= length (keywordMatches (toLowerCase prompt) (reasoningKeywords config)))%nat ->
  let r := classifyByRules prompt systemPrompt estimatedTokens config in
  tier r = Some REASONING
  /\ confidence r =
       Rmax (calibrateConfidence (Rmax (score r) 0.3) (confidenceSteepness config)) 0.85.
Proof.
  intros H. unfold Router.classifyByRules.
  apply Nat.leb_le in H. rewrite H. simpl. split; reflexivity.
Qed.

Lemma classifyByRules_boundary prompt systemPrompt estimatedTokens config :
  (length (keywordMatches (toLowerCase prompt) (reasoningKeywords config)) < 2)%nat ->
  let r := classifyByRules prompt systemPrompt estimatedTokens config in
  exists distance,
    0 <= distance
    /\ confidence r = calibrateConfidence distance (confidenceSteepness config)
    /\ (tier r = None <-> confidence r < confidenceThreshold config).
Proof.
  intros H. unfold Router.classifyByRules.
  apply Nat.leb_gt in H. rewrite H.
  set (w := weightedSum _ _).
  set (b := tierBoundaries config).
  destruct (Rlt_dec w (simpleMedium b)) as [H1|H1];
    [|destruct (Rlt_dec w (mediumComplex b)) as [H2|H2];
      [|destruct (Rlt_dec w (complexReasoning b)) as [H3|H3]]];
    match goal with
    | |- context [calibrateConfidence ?d _] => exists d
    end;
    (split; [try (apply Rmin_glb); lra |]);
    match goal with
    | |- context [Rlt_dec ?a ?t] => destruct (Rlt_dec a t)
    end; simpl; (split; [reflexivity|]); split; intros; (done || lra).
Qed.

Lemma classifyByRules_cases (prompt : jsstring) (config : ScoringConfig) :
  (2 <= length (keywordMatches (toLowerCase prompt) (reasoningKeywords config)))%nat
  \/ (length (keywordMatches (toLowerCase prompt) (reasoningKeywords config)) < 2)%nat.
Proof. lia. Qed.


(** C8, as amended.  When fewer than two reasoning keywords match, or when
    the configured threshold is at most 0.85, the result has [tier = null]
    exactly when its confidence is below the threshold. *)
Theorem classifyByRules_null_iff_below_threshold
    prompt systemPrompt estimatedTokens config :
  (length (keywordMatches (toLowerCase prompt) (reasoningKeywords config)) < 2)%nat
  \/ confidenceThreshold config <= 0.85 ->
  let r := classifyByRules prompt systemPrompt estimatedTokens config in
  tier r = None <-> confidence r < confidenceThreshold config.
Proof.
  intros H r.
  destruct (classifyByRules_cases prompt config) as [Hov|Hbd].
  - destruct H as [H|H]; [lia|].
    destruct (classifyByRules_override prompt systemPrompt estimatedTokens config Hov)
      as [Ht Hc].
    fold r in Ht, Hc. rewrite Ht, Hc.
    split; [discriminate|].
    intros Hlt. exfalso.
    pose proof (Rmax_r (calibrateConfidence (Rmax (score r) 0.3)
                          (confidenceSteepness config)) 0.85).
    lra.
  - destruct (classifyByRules_boundary prompt systemPrompt estimatedTokens config Hbd)
      as (d & _ & _ & Hiff).
    exact Hiff.
Qed.

(** C4.  When the token estimate of the full text exceeds
    [maxTokensForceComplex], [route] returns tier COMPLEX with confidence
    0.95; the decision is the same for every scoring configuration (the
    classifier is not consulted) and for every other prompt and system
    prompt of the same total length. *)
Theorem route_large_context prompt systemPrompt maxOutputTokens options :
  estimateTokens (default [] systemPrompt ++ lit " " ++ prompt)
    > maxTokensForceComplex (overrides (config options)) ->
  let d := route prompt systemPrompt maxOutputTokens options in
  rd_tier d = COMPLEX
  /\ rd_confidence d = 0.95
  /\ rd_method d = rules
  /\ (forall sc, route prompt systemPrompt maxOutputTokens (withScoring sc options) = d)
  /\ (forall prompt' systemPrompt',
        length (default [] systemPrompt' ++ lit " " ++ prompt')
          = length (default [] systemPrompt ++ lit " " ++ prompt) ->
        route prompt' systemPrompt' maxOutputTokens options = d).
Proof.
  intros Hgt d. unfold d, Router.route.
  destruct (Rgt_dec _ _) as [_|Hn]; [|contradiction].
  repeat split.
  - intros sc. simpl.
    destruct (Rgt_dec _ _) as [_|Hn]; [reflexivity|contradiction].
  - intros prompt' systemPrompt' Hlen.
    unfold estimateTokens in *. rewrite Hlen.
    destruct (Rgt_dec _ _) as [_|Hn]; [reflexivity|contradiction].
Qed.

End RulesFacts.

(** *** Sample runs *)

Import Host.



Lemma classifyByRules_null_iff_below_threshold_witness :
  let r := classifyByRules toLowerCaseAscii numberToStringOpaque samplePrompt None
             (estimateTokens samplePrompt) (scoringWith 0.6) in
  tier r = None <-> confidence r < 0.6.
Proof.
  apply (classifyByRules_null_iff_below_threshold toLowerCaseAscii numberToStringOpaque
           samplePrompt None (estimateTokens samplePrompt) (scoringWith 0.6)).
  right. simpl. lra.
Defined.

Lemma route_large_context_witness :
  let d := route toLowerCaseAscii numberToStringOpaque samplePrompt None 2048
             (sampleOptions 2 0.6) in
  rd_tier d = COMPLEX /\ rd_confidence d = 0.95
  /\ route toLowerCaseAscii numberToStringOpaque samplePrompt None 2048
       (withScoring (scoringWith 0.99) (sampleOptions 2 0.6)) = d
  /\ route toLowerCaseAscii numberToStringOpaque (lit "state the theorem") None 2048
       (sampleOptions 2 0.6) = d.
Proof.
  destruct (route_large_context toLowerCaseAscii numberToStringOpaque samplePrompt None 2048
              (sampleOptions 2 0.6)) as (Ht & Hc & _ & Hsc & Hlen).
  - change (INR 5 > 2). simpl. lra.
  - split; [exact Ht|]. split; [exact Hc|].
    split; [apply Hsc|]. apply Hlen. reflexivity.
Defined.

Lemma exp_4_le_81 : exp 4 <= 81.
Proof.
  replace 4 with (1 + 1 + (1 + 1)) by lra.
  rewrite !exp_plus.
  pose proof exp_le_3. pose proof (exp_pos 1).
  assert (exp 1 * exp 1 <= 9) by nra.
  assert (0 < exp 1 * exp 1) by nra.
  nra.
Qed.

Lemma sigmoid_3_6_below_0_99 : calibrateConfidence 0.3 12 < 0.99.
Proof.
  unfold calibrateConfidence.
  set (x := (- (12) * 0.3)%R).
  assert (Hx : x + 3.6 = 0) by (unfold x; lra).
  set (e := exp x).
  assert (He : 0 < e) by apply exp_pos.
  assert (HE : 0 < exp 3.6) by apply exp_pos.
  assert (Hlt : exp 3.6 < exp 4) by (apply exp_increasing; lra).
  pose proof exp_4_le_81.
  assert (Hprod : e * exp 3.6 = 1).
  { unfold e. rewrite <- exp_plus, Hx. apply exp_0. }
  assert (Hlow : 1 / 81 < e) by nra.
  assert (Hinv : 1 / (1 + e) * (1 + e) = 1) by (field; lra).
  assert (Hq : 0 < 1 / (1 + e)) by (apply Rdiv_lt_0_compat; lra).
  set (q := 1 / (1 + e)) in *.
  assert (q * (82 / 81) < 1) by nra.
  lra.
Qed.

Lemma samplePrompt_score :
  score (classifyByRules toLowerCaseAscii numberToStringOpaque samplePrompt None
           (estimateTokens samplePrompt) (scoringWith 0.99)) = 0.1.
Proof.
  vm_compute.
  match goal with |- context [Rlt_dec ?a ?b] => destruct (Rlt_dec a b) as [H|H] end.
  - lra.
  - exfalso. apply H. lra.
Qed.

(** C8, counterexample.  With the confidence threshold raised to 0.99, the
    prompt "prove the theorem" matches two reasoning keywords; the result
    carries tier REASONING although its confidence is below the threshold. *)
Lemma classifyByRules_threshold_counterexample :
  let r := classifyByRules toLowerCaseAscii numberToStringOpaque samplePrompt None
             (estimateTokens samplePrompt) (scoringWith 0.99) in
  tier r = Some REASONING
  /\ confidence r < confidenceThreshold (scoringWith 0.99)
  /\ ~ (tier r = None <-> confidence r < confidenceThreshold (scoringWith 0.99)).
Proof.
  intros r.
  assert (Hov : (2 <= length (keywordMatches toLowerCaseAscii (toLowerCaseAscii samplePrompt)
                                (reasoningKeywords (scoringWith 0.99))))%nat)
    by (vm_compute; lia).
  destruct (classifyByRules_override toLowerCaseAscii numberToStringOpaque samplePrompt None
              (estimateTokens samplePrompt) (scoringWith 0.99) Hov) as [Ht Hc].
  fold r in Ht, Hc.
  assert (Hlt : confidence r < confidenceThreshold (scoringWith 0.99)).
  { rewrite Hc. unfold r. rewrite samplePrompt_score.
    rewrite (Rmax_right 0.1 0.3) by lra.
    simpl confidenceSteepness. simpl confidenceThreshold.
    pose proof sigmoid_3_6_below_0_99.
    apply Rmax_lub_lt; lra. }
  split; [exact Ht|]. split; [exact Hlt|].
  intros [_ H]. specialize (H Hlt). rewrite Ht in H. discriminate.
Qed.

End RouterFacts.

(** ** The deduplicator *)

Module DedupFacts.
Import JS Dedup DedupSpec Proxy ProxySpec.

Local Open Scope Z_scope.

Lemma resolvePromise_pending p r h :
  settled h !! p = None ->
  nextPromise (resolvePromise p r h) = nextPromise h
  /\ settled (resolvePromise p r h) = <[p := r]> (settled h)
  /\ settleOrder (resolvePromise p r h) = settleOrder h ++ [p].
Proof. intros H. unfold resolvePromise. rewrite H. auto. Qed.

(** Calling the closure of an entry settles its targets, in order, with
    the one result, and touches nothing else. *)
Lemma callResolver_spec f r h :
  NoDup (resolverTargets f) ->
  (forall p, p ∈ resolverTargets f -> settled h !! p = None) ->
  nextPromise (callResolver f r h) = nextPromise h
  /\ settleOrder (callResolver f r h) = settleOrder h ++ resolverTargets f
  /\ (forall p, p ∈ resolverTargets f -> settled (callResolver f r h) !! p = Some r)
  /\ (forall p, p ∉ resolverTargets f ->
        settled (callResolver f r h) !! p = settled h !! p).
Proof.
  induction f as [|orig IH outer inner]; intros Hnd Hpend; simpl.
  - rewrite app_nil_r. repeat split; auto.
    intros p Hp. by apply elem_of_nil in Hp.
  - simpl in Hnd, Hpend.
    apply NoDup_app in Hnd as (Hnd1 & Hdisj & Hnd2).
    apply NoDup_cons in Hnd2 as (Hoi & _).
    rewrite list_elem_of_singleton in Hoi.
    destruct IH as (IHn & IHo & IHin & IHout); [done | |].
    { intros p Hp. apply Hpend, elem_of_app. by left. }
    set (h1 := callResolver orig r h) in *.
    assert (Ho1 : outer ∉ resolverTargets orig).
    { intros Hin. apply (Hdisj _ Hin). left. }
    assert (Hi1 : inner ∉ resolverTargets orig).
    { intros Hin. apply (Hdisj _ Hin). right. left. }
    assert (Hop : settled h1 !! outer = None).
    { rewrite IHout by done. apply Hpend, elem_of_app. right. left. }
    destruct (resolvePromise_pending outer r h1 Hop) as (Hn2 & Hs2 & Ho2).
    set (h2 := resolvePromise outer r h1) in *.
    assert (Hip : settled h2 !! inner = None).
    { rewrite Hs2, lookup_insert_ne by done. rewrite IHout by done.
      apply Hpend, elem_of_app. right. right. left. }
    destruct (resolvePromise_pending inner r h2 Hip) as (Hn3 & Hs3 & Ho3).
    split; [congruence|]. split.
    { rewrite Ho3, Ho2, IHo. by rewrite <- !app_assoc. }
    split.
    + intros p Hp. rewrite Hs3, Hs2.
      apply elem_of_app in Hp as [Hp|Hp].
      * assert (p <> inner) by (intros ->; done).
        assert (p <> outer) by (intros ->; done).
        rewrite !lookup_insert_ne by done. by apply IHin.
      * apply elem_of_cons in Hp as [->|Hp].
        { rewrite lookup_insert_ne by done. by rewrite lookup_insert_eq. }
        apply list_elem_of_singleton in Hp as ->. by rewrite lookup_insert_eq.
    + intros p Hp. rewrite Hs3, Hs2.
      apply not_elem_of_app in Hp as [Hp1 Hp2].
      apply not_elem_of_cons in Hp2 as [Hpo Hp2].
      apply not_elem_of_cons in Hp2 as [Hpi _].
      rewrite !lookup_insert_ne by done. by apply IHout.
Qed.

(** The joiners' promises are among the targets, in the same order. *)
Lemma joiners_targets f p : p ∈ joiners f -> p ∈ resolverTargets f.
Proof.
  induction f as [|orig IH outer inner]; simpl; [done|].
  rewrite !elem_of_app. intros [H|H]; [left; auto|].
  apply list_elem_of_singleton in H as ->. right. left.
Qed.

Lemma joiners_sublist f : joiners f `sublist_of` resolverTargets f.
Proof.
  induction f as [|orig IH outer inner]; simpl; [constructor|].
  apply sublist_app; [done|].
  apply sublist_skip, sublist_cons, sublist_nil.
Qed.

(** *** The invariant *)

Lemma wellFormed_create ttl : wellFormed (create ttl).
Proof.
  split; [|split].
  - intros p [x Hx]. simpl in Hx. by rewrite lookup_empty in Hx.
  - intros k e H. simpl in H. by rewrite lookup_empty in H.
  - intros k1 k2 e1 e2 p _ H. simpl in H. by rewrite lookup_empty in H.
Qed.

Lemma wellFormed_getCached key now st :
  wellFormed st -> wellFormed (snd (getCached key now st)).
Proof.
  intros Hwf. unfold getCached.
  destruct (completed st !! key) as [entry|]; [|done].
  destruct (expired now (ttlMs st) entry); done.
Qed.

Lemma wellFormed_markInflight key st :
  wellFormed st -> wellFormed (markInflight key st).
Proof.
  intros (Hh & He & Hd). split; [|split]; simpl.
  - done.
  - intros k e Hk. apply lookup_insert_Some in Hk as [[_ <-]|[_ Hk]]; [|eauto].
    split; simpl; [constructor|]. intros p Hp. by apply elem_of_nil in Hp.
  - intros k1 k2 e1 e2 p Hne H1 H2 Hp.
    apply lookup_insert_Some in H1 as [[_ <-]|[_ H1]].
    { by apply elem_of_nil in Hp. }
    apply lookup_insert_Some in H2 as [[_ <-]|[_ H2]].
    { simpl. apply not_elem_of_nil. }
    eauto.
Qed.

Lemma wellFormed_removeInflight key st :
  wellFormed st -> wellFormed (removeInflight key st).
Proof.
  intros (Hh & He & Hd). split; [|split]; simpl.
  - done.
  - intros k e Hk. apply lookup_delete_Some in Hk as [_ Hk]. eauto.
  - intros k1 k2 e1 e2 p Hne H1 H2.
    apply lookup_delete_Some in H1 as [_ H1].
    apply lookup_delete_Some in H2 as [_ H2]. eauto.
Qed.

Lemma wellFormed_getInflight key st :
  wellFormed st -> wellFormed (snd (getInflight key st)).
Proof.
  intros (Hh & He & Hd). unfold getInflight.
  destruct (inflight st !! key) as [entry|] eqn:Hk; [|done].
  simpl. set (n := nextPromise (heap st)).
  assert (Hfresh : forall q, (n <= q)%nat -> settled (heap st) !! q = None).
  { intros q Hq. destruct (settled (heap st) !! q) eqn:E; [|done].
    assert (q < n)%nat by (apply Hh; eauto). lia. }
  destruct (He _ _ Hk) as [Hnd Hall].
  assert (Hold : forall k e p, inflight st !! k = Some e ->
                   p ∈ resolverTargets (resolve e) -> p <> n /\ p <> S n).
  { intros k e p Hke Hp. destruct (He _ _ Hke) as [_ Ha].
    destruct (Ha _ Hp) as [Hlt _]. fold n in Hlt. lia. }
  split; [|split]; simpl.
  - intros p Hp. specialize (Hh p Hp). fold n in Hh. simpl. lia.
  - intros k e Hke. apply lookup_insert_Some in Hke as [[_ <-]|[_ Hke]].
    + split; simpl.
      * apply NoDup_app. split; [done|]. split.
        { intros p Hp Hin. destruct (Hold _ _ _ Hk Hp) as [H1 H2].
          apply elem_of_cons in Hin as [->|Hin]; [done|].
          apply list_elem_of_singleton in Hin as ->. done. }
        apply NoDup_cons. split; [|apply NoDup_singleton].
        rewrite list_elem_of_singleton. lia.
      * intros p Hp. apply elem_of_app in Hp as [Hp|Hp].
        { destruct (Hall _ Hp) as [Hlt Hnone]. fold n in Hlt. split; [lia|done]. }
        apply elem_of_cons in Hp as [->|Hp]; [split; [lia|apply Hfresh; lia]|].
        apply list_elem_of_singleton in Hp as ->. split; [lia|apply Hfresh; lia].
    + destruct (He _ _ Hke) as [Hnd' Hall']. split; [done|].
      intros p Hp. destruct (Hall' _ Hp) as [Hlt Hnone]. fold n in Hlt.
      split; [simpl; lia|done].
  - intros k1 k2 e1 e2 p Hne H1 H2 Hp.
    apply lookup_insert_Some in H1 as [[<- <-]|[_ H1]];
      apply lookup_insert_Some in H2 as [[<- <-]|[Hne2 H2]]; simpl in *; try done.
    + apply elem_of_app in Hp as [Hp|Hp]; [eauto|].
      intros Hin. destruct (Hold _ _ _ H2 Hin) as [Ha Hb].
      apply elem_of_cons in Hp as [->|Hp]; [done|].
      apply list_elem_of_singleton in Hp as ->. done.
    + apply not_elem_of_app. split; [eauto|].
      destruct (Hold _ _ _ H1 Hp) as [Ha Hb].
      apply not_elem_of_cons. split; [done|].
      apply not_elem_of_cons. split; [done|]. apply not_elem_of_nil.
    + eauto.
Qed.

(** What [complete] does to each component of the state. *)
Lemma complete_inflight key result now st :
  inflight (complete key result now st) = delete key (inflight st).
Proof.
  unfold complete.
  destruct (Z.of_nat (length (body result)) <=? MAX_BODY_SIZE); simpl;
    destruct (inflight st !! key) eqn:E; simpl; try done;
    symmetry; by apply delete_id.
Qed.

Lemma complete_heap key result now st :
  heap (complete key result now st) =
    match inflight st !! key with
    | Some entry => callResolver (resolve entry) result (heap st)
    | None => heap st
    end.
Proof.
  unfold complete.
  destruct (Z.of_nat (length (body result)) <=? MAX_BODY_SIZE); simpl;
    destruct (inflight st !! key); done.
Qed.

Lemma complete_completed key result now st :
  completed (complete key result now st) =
    unexpired now (ttlMs st)
      (if Z.of_nat (length (body result)) <=? MAX_BODY_SIZE
       then <[key := result]> (completed st)
       else completed st).
Proof.
  unfold complete, unexpired.
  destruct (Z.of_nat (length (body result)) <=? MAX_BODY_SIZE); simpl;
    destruct (inflight st !! key); done.
Qed.

Lemma complete_ttlMs key result now st :
  ttlMs (complete key result now st) = ttlMs st.
Proof.
  unfold complete.
  destruct (Z.of_nat (length (body result)) <=? MAX_BODY_SIZE); simpl;
    destruct (inflight st !! key); done.
Qed.

Lemma wellFormed_complete key result now st :
  wellFormed st -> wellFormed (complete key result now st).
Proof.
  intros (Hh & He & Hd).
  unfold wellFormed. rewrite complete_inflight, complete_heap.
  destruct (inflight st !! key) as [entry|] eqn:Hk.
  - destruct (He _ _ Hk) as [Hnd Hall].
    destruct (callResolver_spec (resolve entry) result (heap st) Hnd)
      as (Hn & _ & Hin & Hout); [intros p Hp; by apply Hall|].
    split; [|split].
    + intros p Hp. rewrite Hn.
      destruct (decide (p ∈ resolverTargets (resolve entry))) as [Hp'|Hp'].
      * by apply Hall.
      * rewrite Hout in Hp by done. by apply Hh.
    + intros k e Hke. apply lookup_delete_Some in Hke as [Hne Hke].
      destruct (He _ _ Hke) as [Hnd' Hall']. split; [done|].
      intros p Hp. destruct (Hall' _ Hp) as [Hlt Hnone].
      rewrite Hn. split; [done|].
      rewrite Hout; [done|]. eapply (Hd k key); eauto.
    + intros k1 k2 e1 e2 p Hne H1 H2.
      apply lookup_delete_Some in H1 as [_ H1].
      apply lookup_delete_Some in H2 as [_ H2]. eauto.
  - split; [done|]. split.
    + intros k e Hke. apply lookup_delete_Some in Hke as [_ Hke]. eauto.
    + intros k1 k2 e1 e2 p Hne H1 H2.
      apply lookup_delete_Some in H1 as [_ H1].
      apply lookup_delete_Some in H2 as [_ H2]. eauto.
Qed.

Lemma reachable_wellFormed st : reachable st -> wellFormed st.
Proof.
  induction 1 as [ttl|op st _ IH]; [apply wellFormed_create|].
  destruct op; simpl.
  - by apply wellFormed_getCached.
  - by apply wellFormed_getInflight.
  - by apply wellFormed_markInflight.
  - by apply wellFormed_complete.
  - by apply wellFormed_removeInflight.
Qed.

(** Registering a joiner appends its promise to the joiners of the entry. *)
Lemma getInflight_joins key st entry p st2 :
  inflight st !! key = Some entry ->
  getInflight key st = (Some p, st2) ->
  exists e2, inflight st2 !! key = Some e2
             /\ joiners (resolve e2) = joiners (resolve entry) ++ [p].
Proof.
  intros Hk. unfold getInflight. rewrite Hk. simpl. intros [= <- <-].
  eexists. simpl. rewrite lookup_insert_eq. split; [reflexivity|]. reflexivity.
Qed.

(** C6.  In a state the operations can reach, with an in-flight entry for
    [key]: one call of [complete] settles the promise of every joiner with
    the result passed to it; the promises are settled in the order in which
    the joiners registered; the in-flight entry is gone afterwards; the
    result enters the completed map only when its body has at most
    [MAX_BODY_SIZE] bytes.  The joiners of an entry are the promises
    [getInflight] returned since [markInflight] created it. *)
Theorem complete_releases_joiners st key entry result now :
  reachable st ->
  inflight st !! key = Some entry ->
  let st' := complete key result now st in
  (forall p, p ∈ joiners (resolve entry) -> settled (heap st') !! p = Some result)
  /\ settleOrder (heap st') = settleOrder (heap st) ++ resolverTargets (resolve entry)
  /\ joiners (resolve entry) `sublist_of` resolverTargets (resolve entry)
  /\ NoDup (resolverTargets (resolve entry))
  /\ inflight st' !! key = None
  /\ (MAX_BODY_SIZE < Z.of_nat (length (body result)) ->
      completed st' = unexpired now (ttlMs st) (completed st))
  /\ (Z.of_nat (length (body result)) <= MAX_BODY_SIZE ->
      expired now (ttlMs st) result = false ->
      completed st' !! key = Some result)
  /\ joiners (resolve {| resolve := RNoop; waiters := [] |}) = []
  /\ inflight (markInflight key st) !! key = Some {| resolve := RNoop; waiters := [] |}
  /\ (forall p st2, getInflight key st = (Some p, st2) ->
        exists e2, inflight st2 !! key = Some e2
                   /\ joiners (resolve e2) = joiners (resolve entry) ++ [p]).
Proof.
  intros Hreach Hk st'.
  destruct (reachable_wellFormed st Hreach) as (Hh & He & Hd).
  destruct (He _ _ Hk) as [Hnd Hall].
  destruct (callResolver_spec (resolve entry) result (heap st) Hnd)
    as (Hn & Ho & Hin & Hout); [intros p Hp; by apply Hall|].
  assert (Hheap : heap st' = callResolver (resolve entry) result (heap st)).
  { unfold st'. rewrite complete_heap, Hk. done. }
  split. { intros p Hp. rewrite Hheap. apply Hin. by apply joiners_targets. }
  split. { by rewrite Hheap. }
  split. { apply joiners_sublist. }
  split. { done. }
  split. { unfold st'. rewrite complete_inflight. apply lookup_delete_eq. }
  split.
  { intros Hbig. unfold st'. rewrite complete_completed.
    destruct (Z.leb_spec (Z.of_nat (length (body result))) MAX_BODY_SIZE); [lia|done]. }
  split.
  { intros Hsmall Hfresh. unfold st'. rewrite complete_completed.
    destruct (Z.leb_spec (Z.of_nat (length (body result))) MAX_BODY_SIZE); [|lia].
    unfold unexpired. apply map_lookup_filter_Some. split; [apply lookup_insert_eq|done]. }
  split. { done. }
  split. { simpl. apply lookup_insert_eq. }
  intros p st2 Hg. by eapply getInflight_joins.
Qed.

Lemma hugeErrorBody_length : Z.of_nat (length hugeErrorBody) = 1048577.
Proof. unfold hugeErrorBody. rewrite length_replicate. apply Z2Nat.id. lia. Qed.

(** A sample run: one leader, two joiners; then the same with a result
    above the size bound. *)
Lemma complete_releases_joiners_witness :
  let key := lit "k" in
  let result := {| status := 200; headers := []; body := []; completedAt := 1000 |} in
  let large := {| status := 200; headers := []; body := hugeErrorBody;
                  completedAt := 1000 |} in
  let st := runOp (OpGetInflight key)
              (runOp (OpGetInflight key) (runOp (OpMarkInflight key) (create 30000))) in
  let st' := complete key result 1001 st in
  (settled (heap st') !! 0%nat = Some result
   /\ settled (heap st') !! 2%nat = Some result
   /\ settleOrder (heap st') = [0; 1; 2; 3]%nat
   /\ inflight st' !! key = None
   /\ completed st' !! key = Some result)
  /\ completed (complete key large 1001 st) = unexpired 1001 (ttlMs st) (completed st)
  /\ (exists e2, inflight (snd (getInflight key st)) !! key = Some e2
                 /\ joiners (resolve e2) = [0; 2; 4]%nat).
Proof.
  intros key result large st st'.
  assert (Hreach : reachable st).
  { unfold st. repeat apply reachable_step. apply reachable_create. }
  assert (Hentry : inflight st !! key
                   = Some {| resolve := RJoin (RJoin RNoop 0 1) 2 3;
                             waiters := [1; 3]%nat |})
    by (vm_compute; reflexivity).
  destruct (complete_releases_joiners st key _ result 1001 Hreach Hentry)
    as (Hall & Hord & _ & _ & Hgone & _ & Hstore & _ & _ & Hjoin).
  destruct (complete_releases_joiners st key _ large 1001 Hreach Hentry)
    as (_ & _ & _ & _ & _ & Hbig & _).
  split; [|split].
  - split; [apply Hall; vm_compute; left|].
    split; [apply Hall; vm_compute; right; left|].
    split; [exact Hord|].
    split; [exact Hgone|].
    apply Hstore; vm_compute; [discriminate | reflexivity].
  - apply Hbig. cbn [body large]. rewrite hugeErrorBody_length. unfold MAX_BODY_SIZE. lia.
  - destruct (getInflight key st) as [[p|] st2] eqn:Eg.
    + destruct (Hjoin p st2 eq_refl) as (e2 & He2 & Hj).
      exists e2. split; [exact He2|].
      rewrite Hj. vm_compute in Eg. injection Eg as <- _. reflexivity.
    + vm_compute in Eg. discriminate Eg.
Defined.

End DedupFacts.

(** ** The proxy *)

Module ProxyFacts.
Import JS Dedup DedupSpec DedupFacts Proxy ProxySpec.

Local Open Scope Z_scope.

Lemma removeInflight_spec key st :
  completed (removeInflight key st) = completed st
  /\ inflight (removeInflight key st) !! key = None
  /\ ttlMs (removeInflight key st) = ttlMs st.
Proof. unfold removeInflight; simpl. by rewrite lookup_delete_eq. Qed.

Lemma onClose_completed flag key st :
  completed (onClose flag key st) = completed st
  /\ ttlMs (onClose flag key st) = ttlMs st.
Proof. destruct flag; done. Qed.

Lemma unexpired_lookup now ttl m k e :
  unexpired now ttl m !! k = Some e <-> m !! k = Some e /\ expired now ttl e = false.
Proof. unfold unexpired. by rewrite map_lookup_filter_Some. Qed.

Lemma not_expired now ttl e : now - completedAt e <= ttl -> expired now ttl e = false.
Proof. intros H. unfold expired. apply Z.ltb_ge. lia. Qed.

Section WithHost.

Variable hash : list byte -> jsstring.
Variable JSON_parse : list byte -> option Parsed.
Variable errorJson : list byte -> Z -> list byte.

Abbreviation routingStage := (routingStage JSON_parse).
Abbreviation proxyStart := (proxyStart hash JSON_parse).
Abbreviation proxyForward := (proxyForward errorJson).
Abbreviation proxyRequest := (proxyRequest hash JSON_parse errorJson).
Abbreviation forwardedEntry := (forwardedEntry errorJson).
Abbreviation errEvent := (errEvent errorJson).

(** The first sight of a key goes to the forwarding path. *)
Lemma proxyStart_fresh req routed now st isStreaming body :
  routingStage req routed = (isStreaming, body) ->
  completed st !! hash body = None ->
  inflight st !! hash body = None ->
  proxyStart req routed now st
  = (Forward (hash body) isStreaming body, markInflight (hash body) st).
Proof.
  intros Hr Hc Hi. unfold Proxy.proxyStart. rewrite Hr.
  unfold getCached. rewrite Hc. unfold getInflight. rewrite Hi. reflexivity.
Qed.

(** A live completed entry is replayed. *)
Lemma proxyStart_hit req routed now st isStreaming body cached :
  routingStage req routed = (isStreaming, body) ->
  completed st !! hash body = Some cached ->
  expired now (ttlMs st) cached = false ->
  proxyStart req routed now st = (CacheHit (replay cached), st).
Proof.
  intros Hr Hc He. unfold Proxy.proxyStart. rewrite Hr.
  unfold getCached. rewrite Hc, He. reflexivity.
Qed.

(** What the forwarding path does with a response read to its end. *)
Lemma proxyForward_response key isStreaming ust hs chunks ticks tDone tPrune st :
  let fin := fst (proxyForward key isStreaming (UResponse ust hs chunks)
                    ticks tDone tPrune st) in
  snd (proxyForward key isStreaming (UResponse ust hs chunks) ticks tDone tPrune st)
    = complete key (forwardedEntry isStreaming ust hs chunks tDone) tPrune st
  /\ threw fin = false
  /\ sent fin =
       Some (if isStreaming then
               {| c_status := 200; c_headers := earlyHeaders;
                  c_body := (HEARTBEAT ++ concat (replicate ticks HEARTBEAT))
                            ++ body (forwardedEntry true ust hs chunks tDone) |}
             else replay (forwardedEntry false ust hs chunks tDone)).
Proof.
  unfold Proxy.proxyForward, ProxySpec.forwardedEntry.
  destruct isStreaming; [destruct (bool_decide (ust = 200))|]; simpl; done.
Qed.

(** What it does when the call or the body read fails. *)
Lemma proxyForward_failure key isStreaming up ticks tDone tPrune st :
  up = UThrow \/ (exists ust hs chunks, up = UReadError ust hs chunks) ->
  snd (proxyForward key isStreaming up ticks tDone tPrune st) = removeInflight key st
  /\ threw (fst (proxyForward key isStreaming up ticks tDone tPrune st)) = true.
Proof.
  intros [->|(ust & hs & chunks & ->)]; unfold Proxy.proxyForward;
    destruct isStreaming; done.
Qed.

(** C2, as amended.  On the forwarding path the completed map changes only
    when the upstream call returned a response that was read to its end:
    that response is handed to [complete] whatever its status.  When the
    call or the body read throws, and when the close handler runs before
    completion, the in-flight entry is removed and the completed map stays
    as it was. *)
Theorem failures_are_not_cached key isStreaming up ticks tDone tPrune st :
  let fin := fst (proxyForward key isStreaming up ticks tDone tPrune st) in
  let st' := snd (proxyForward key isStreaming up ticks tDone tPrune st) in
  (up = UThrow \/ (exists ust hs chunks, up = UReadError ust hs chunks) ->
     threw fin = true /\ completed st' = completed st /\ inflight st' !! key = None)
  /\ (forall ust hs chunks, up = UResponse ust hs chunks ->
        threw fin = false
        /\ st' = complete key (forwardedEntry isStreaming ust hs chunks tDone) tPrune st
        /\ inflight st' !! key = None)
  /\ (completed (onClose false key st) = completed st
      /\ inflight (onClose false key st) !! key = None)
  /\ (completed (removeInflight key st) = completed st
      /\ inflight (removeInflight key st) !! key = None)
  /\ (forall k e, completed st' !! k = Some e ->
        completed st !! k = Some e
        \/ (k = key /\ exists ust hs chunks,
              up = UResponse ust hs chunks
              /\ e = forwardedEntry isStreaming ust hs chunks tDone)).
Proof.
  intros fin st'.
  split.
  { intros Hfail.
    destruct (proxyForward_failure key isStreaming up ticks tDone tPrune st Hfail)
      as [Hs Ht].
    unfold fin, st'. rewrite Hs, Ht.
    destruct (removeInflight_spec key st) as (Hc & Hi & _). done. }
  split.
  { intros ust hs chunks ->.
    destruct (proxyForward_response key isStreaming ust hs chunks ticks tDone tPrune st)
      as (Hs & Ht & _).
    unfold fin, st'. rewrite Hs, Ht. split; [done|]. split; [done|].
    rewrite complete_inflight. apply lookup_delete_eq. }
  split. { destruct (removeInflight_spec key st) as (Hc & Hi & _). done. }
  split. { destruct (removeInflight_spec key st) as (Hc & Hi & _). done. }
  intros k e Hk. unfold st' in Hk.
  destruct up as [ust hs chunks|ust hs chunks|].
  - destruct (proxyForward_response key isStreaming ust hs chunks ticks tDone tPrune st)
      as (Hs & _ & _).
    rewrite Hs, complete_completed in Hk.
    apply unexpired_lookup in Hk as [Hk _].
    destruct (Z.of_nat (length (body (forwardedEntry isStreaming ust hs chunks tDone)))
                <=? MAX_BODY_SIZE); [|by left].
    apply lookup_insert_Some in Hk as [[<- <-]|[_ Hk]]; [|by left].
    right. split; [done|]. by exists ust, hs, chunks.
  - destruct (proxyForward_failure key isStreaming (UReadError ust hs chunks)
                ticks tDone tPrune st) as [Hs _]; [right; eauto|].
    rewrite Hs in Hk. by left.
  - destruct (proxyForward_failure key isStreaming UThrow ticks tDone tPrune st)
      as [Hs _]; [by left|].
    rewrite Hs in Hk. by left.
Qed.

(** One request on a fresh key whose upstream call returns a response. *)
Lemma proxyRequest_fresh_response
    req routed ust hs chunks ticks tStart tDone tPrune st isStreaming out :
  routingStage req routed = (isStreaming, out) ->
  completed st !! hash out = None ->
  inflight st !! hash out = None ->
  let run := proxyRequest req routed (UResponse ust hs chunks)
               ticks tStart tDone tPrune st in
  let entry := forwardedEntry isStreaming ust hs chunks tDone in
  upstreamCalls (fst run) = 1%nat
  /\ failed (fst run) = false
  /\ response (fst run) =
       Some (if isStreaming then
               {| c_status := 200; c_headers := earlyHeaders;
                  c_body := (HEARTBEAT ++ concat (replicate ticks HEARTBEAT))
                            ++ body entry |}
             else replay entry)
  /\ ttlMs (snd run) = ttlMs st
  /\ completed (snd run)
     = unexpired tPrune (ttlMs st)
         (if Z.of_nat (length (body entry)) <=? MAX_BODY_SIZE
          then <[hash out := entry]> (completed st)
          else completed st).
Proof.
  intros Hr Hc Hi run entry. unfold run, Proxy.proxyRequest.
  rewrite (proxyStart_fresh req routed tStart st isStreaming out Hr Hc Hi).
  destruct (proxyForward_response (hash out) isStreaming ust hs chunks ticks tDone tPrune
              (markInflight (hash out) st)) as (Hs & Ht & Hsent).
  destruct (Proxy.proxyForward _ _ _ _ _ _ _ _) as [fin st2]. simpl in *.
  subst st2. rewrite Ht.
  destruct (onClose_completed (completedFlag fin) (hash out)
              (complete (hash out) (forwardedEntry isStreaming ust hs chunks tDone) tPrune
                 (markInflight (hash out) st))) as [Hoc Hot].
  rewrite Hoc, Hot, complete_ttlMs, complete_completed. simpl.
  split; [done|]. split; [done|]. split; [|done].
  rewrite Hsent. f_equal. destruct isStreaming; done.
Qed.

(** One request whose key has a live completed entry. *)
Lemma proxyRequest_hit req routed up ticks tStart tDone tPrune st isStreaming body cached :
  routingStage req routed = (isStreaming, body) ->
  completed st !! hash body = Some cached ->
  expired tStart (ttlMs st) cached = false ->
  proxyRequest req routed up ticks tStart tDone tPrune st
  = ({| response := Some (replay cached); waitingOn := None; failed := false;
        upstreamCalls := 0 |}, st).
Proof.
  intros Hr Hc He. unfold Proxy.proxyRequest.
  by rewrite (proxyStart_hit req routed tStart st isStreaming body cached Hr Hc He).
Qed.

(** C5, as amended.  Two requests run one after the other whose outbound
    bodies are the same bytes, the first being the first sight of the key
    and answered by the upstream with a body within [MAX_BODY_SIZE], the
    second starting within the TTL: one upstream call is made for the
    pair, and the second request is answered with the stored entry.  For a
    non-streaming request that answer has the status, headers and body of
    the first answer. *)
Theorem replay_within_ttl
    req routed1 routed2 up2 ust hs chunks ticks1 ticks2
    tStart1 tDone1 tPrune1 tStart2 tDone2 tPrune2 st isStreaming out :
  routingStage req routed1 = (isStreaming, out) ->
  snd (routingStage req routed2) = out ->
  completed st !! hash out = None ->
  inflight st !! hash out = None ->
  let entry := forwardedEntry isStreaming ust hs chunks tDone1 in
  Z.of_nat (length (body entry)) <= MAX_BODY_SIZE ->
  tPrune1 - tDone1 <= ttlMs st ->
  tStart2 - tDone1 <= ttlMs st ->
  let run1 := proxyRequest req routed1 (UResponse ust hs chunks)
                ticks1 tStart1 tDone1 tPrune1 st in
  let run2 := proxyRequest req routed2 up2 ticks2 tStart2 tDone2 tPrune2 (snd run1) in
  upstreamCalls (fst run1) = 1%nat
  /\ upstreamCalls (fst run2) = 0%nat
  /\ response (fst run2) = Some (replay entry)
  /\ (isStreaming = false -> response (fst run2) = response (fst run1)).
Proof.
  intros Hr1 Hr2 Hc Hi entry Hsize Hp Ht run1 run2.
  destruct (proxyRequest_fresh_response req routed1 ust hs chunks ticks1 tStart1 tDone1
              tPrune1 st isStreaming out Hr1 Hc Hi) as (Hcalls & _ & Hresp & Httl & Hcomp).
  fold run1 in Hcalls, Hresp, Httl, Hcomp. fold entry in Hresp, Hcomp.
  assert (Hstored : completed (snd run1) !! hash out = Some entry).
  { rewrite Hcomp. apply unexpired_lookup. split.
    - destruct (Z.leb_spec (Z.of_nat (length (body entry))) MAX_BODY_SIZE); [|lia].
      apply lookup_insert_eq.
    - apply not_expired. unfold entry, ProxySpec.forwardedEntry.
      destruct isStreaming; simpl; lia. }
  assert (Hlive : expired tStart2 (ttlMs (snd run1)) entry = false).
  { rewrite Httl. apply not_expired. unfold entry, ProxySpec.forwardedEntry.
    destruct isStreaming; simpl; lia. }
  destruct (routingStage req routed2) as [s2 out2] eqn:Hr2'. simpl in Hr2. subst out2.
  assert (Hrun2 : run2 = ({| response := Some (replay entry); waitingOn := None;
                            failed := false; upstreamCalls := 0 |}, snd run1)).
  { unfold run2.
    apply (proxyRequest_hit req routed2 up2 ticks2 tStart2 tDone2 tPrune2 (snd run1)
             s2 out entry Hr2' Hstored Hlive). }
  rewrite Hrun2. simpl.
  split; [done|]. split; [done|]. split; [done|].
  intros ->. by rewrite Hresp.
Qed.

(** C9, as amended.  A streaming request on the forwarding path whose
    upstream call returns a status other than 200 is answered with status
    200 and content type text/event-stream; the body is the heartbeat
    frames, the error as one SSE data event, and the terminator.  The event
    and the terminator are stored as a completed entry of status 200 when
    they are at most [MAX_BODY_SIZE] bytes; a longer event stream is not
    stored. *)
Theorem streaming_upstream_error
    req routed ust hs chunks ticks tStart tDone tPrune st key out st1 :
  proxyStart req routed tStart st = (Forward key true out, st1) ->
  ust <> 200 ->
  let ev := errEvent (concat chunks) ust in
  let run := proxyRequest req routed (UResponse ust hs chunks)
               ticks tStart tDone tPrune st in
  response (fst run)
    = Some {| c_status := 200; c_headers := earlyHeaders;
              c_body := (HEARTBEAT ++ concat (replicate ticks HEARTBEAT)) ++ ev ++ DONE |}
  /\ (lit "content-type", lit "text/event-stream") ∈ earlyHeaders
  /\ failed (fst run) = false
  /\ upstreamCalls (fst run) = 1%nat
  /\ (Z.of_nat (length (ev ++ DONE)) <= MAX_BODY_SIZE ->
      tPrune - tDone <= ttlMs st1 ->
      completed (snd run) !! key
        = Some {| status := 200; headers := sseHeaders; body := ev ++ DONE;
                  completedAt := tDone |})
  /\ (MAX_BODY_SIZE < Z.of_nat (length (ev ++ DONE)) ->
      completed (snd run) = unexpired tPrune (ttlMs st1) (completed st1)).
Proof.
  intros Hstart Hne ev run.
  assert (Hentry : forwardedEntry true ust hs chunks tDone
                   = {| status := 200; headers := sseHeaders; body := ev ++ DONE;
                        completedAt := tDone |}).
  { unfold ProxySpec.forwardedEntry. by rewrite bool_decide_eq_false_2. }
  destruct (proxyForward_response key true ust hs chunks ticks tDone tPrune st1)
    as (Hs & Ht & Hsent).
  rewrite Hentry in Hs, Hsent.
  unfold run, Proxy.proxyRequest. rewrite Hstart.
  destruct (Proxy.proxyForward _ _ _ _ _ _ _ _) as [fin st2].
  cbn [fst snd] in Hs, Ht, Hsent. subst st2.
  cbn [fst snd response failed upstreamCalls].
  destruct (onClose_completed (completedFlag fin) key
              (complete key {| status := 200; headers := sseHeaders; body := ev ++ DONE;
                               completedAt := tDone |} tPrune st1)) as [Hoc _].
  rewrite Hoc, complete_completed. cbn [body].
  split; [done|].
  split; [left|].
  split; [done|]. split; [done|].
  split.
  - intros Hsize Hp.
    destruct (Z.leb_spec (Z.of_nat (length (ev ++ DONE))) MAX_BODY_SIZE); [|lia].
    apply unexpired_lookup. split; [apply lookup_insert_eq|].
    apply not_expired. cbn [completedAt]. lia.
  - intros Hbig.
    destruct (Z.leb_spec (Z.of_nat (length (ev ++ DONE))) MAX_BODY_SIZE); [lia|done].
Qed.

End WithHost.

(** *** Sample runs *)

Abbreviation sampleRequest :=
  (Proxy.proxyRequest sampleHash sampleParse sampleErrorJson).

Lemma failures_are_not_cached_witness :
  let key := sampleHash plainBody in
  let st := markInflight key (create DEFAULT_TTL_MS) in
  let failing := Proxy.proxyForward sampleErrorJson key false UThrow 0 1500 1500 st in
  let answered := Proxy.proxyForward sampleErrorJson key false
                    (UResponse 200 [] [helloFrame]) 0 1500 1500 st in
  (threw (fst failing) = true
   /\ completed (snd failing) = completed st
   /\ inflight (snd failing) !! key = None)
  /\ (threw (fst answered) = false /\ inflight (snd answered) !! key = None)
  /\ (completed st !! key
        = Some (forwardedEntry sampleErrorJson false 200 [] [helloFrame] 1500)
      \/ exists ust hs chunks, UResponse 200 [] [helloFrame] = UResponse ust hs chunks).
Proof.
  intros key st failing answered.
  destruct (failures_are_not_cached sampleErrorJson key false UThrow 0 1500 1500 st)
    as (Hfail & _).
  destruct (failures_are_not_cached sampleErrorJson key false
              (UResponse 200 [] [helloFrame]) 0 1500 1500 st)
    as (_ & Hresp & _ & _ & Honly).
  split; [apply Hfail; by left|].
  split.
  - destruct (Hresp 200 [] [helloFrame] eq_refl) as (Ht & _ & Hi). by split.
  - destruct (Honly key (forwardedEntry sampleErrorJson false 200 [] [helloFrame] 1500))
      as [H|[_ H]]; [vm_compute; reflexivity | by left |].
    right. by exists 200, [], [helloFrame].
Defined.

(** C2, counterexample.  A streaming request whose upstream call returns
    503: the error event becomes a completed entry, and the retry one
    second later is answered from the cache with that error, without an
    upstream call, although the upstream would now answer 200. *)
Lemma cached_upstream_error_counterexample :
  let key := sampleHash streamingBody in
  let errorStream := errEvent sampleErrorJson (ascii "overloaded") 503 ++ DONE in
  let run1 := sampleRequest streamingRequest None
                (UResponse 503 [] [ascii "overloaded"]) 0 1000 1500 1500
                (create DEFAULT_TTL_MS) in
  let run2 := sampleRequest streamingRequest None
                (UResponse 200 [] [helloFrame]) 0 2500 3000 3000 (snd run1) in
  completed (snd run1) !! key
    = Some {| status := 200; headers := sseHeaders; body := errorStream;
              completedAt := 1500 |}
  /\ upstreamCalls (fst run2) = 0%nat
  /\ response (fst run2)
     = Some {| c_status := 200; c_headers := sseHeaders; c_body := errorStream |}.
Proof. vm_compute. repeat split; reflexivity. Qed.

Lemma replay_within_ttl_witness :
  let run1 := sampleRequest plainRequest None
                (UResponse 200 [(lit "content-type", lit "application/json")]
                   [ascii "{}"]) 0 1000 1500 1500 (create DEFAULT_TTL_MS) in
  let run2 := sampleRequest plainRequest None UThrow 0 2500 3000 3000 (snd run1) in
  upstreamCalls (fst run1) = 1%nat
  /\ upstreamCalls (fst run2) = 0%nat
  /\ response (fst run2) = response (fst run1).
Proof.
  intros run1 run2.
  destruct (replay_within_ttl sampleHash sampleParse sampleErrorJson plainRequest None None
              UThrow 200 [(lit "content-type", lit "application/json")] [ascii "{}"]
              0%nat 0%nat 1000 1500 1500 2500 3000 3000 (create DEFAULT_TTL_MS)
              false plainBody) as (H1 & H2 & _ & H4).
  - vm_compute. reflexivity.
  - vm_compute. reflexivity.
  - apply lookup_empty.
  - apply lookup_empty.
  - vm_compute. discriminate.
  - vm_compute. discriminate.
  - vm_compute. discriminate.
  - split; [exact H1|]. split; [exact H2|]. by apply H4.
Defined.

(** C5, counterexample.  A streaming request answered 200 by the upstream,
    repeated one second later: the first answer carries the three early
    headers and starts with a heartbeat frame, the second carries one
    header and no heartbeat. *)
Lemma streaming_replay_counterexample :
  let run1 := sampleRequest streamingRequest None
                (UResponse 200 [] [helloFrame]) 0 1000 1500 1500
                (create DEFAULT_TTL_MS) in
  let run2 := sampleRequest streamingRequest None
                (UResponse 200 [] [helloFrame]) 0 2500 3000 3000 (snd run1) in
  response (fst run1)
    = Some {| c_status := 200; c_headers := earlyHeaders;
              c_body := HEARTBEAT ++ helloFrame |}
  /\ response (fst run2)
     = Some {| c_status := 200; c_headers := sseHeaders; c_body := helloFrame |}
  /\ response (fst run2) <> response (fst run1).
Proof. vm_compute. repeat split; try reflexivity. discriminate. Qed.

Local Opaque hugeErrorBody.

Lemma hugeEvent_too_long :
  MAX_BODY_SIZE
  < Z.of_nat (length (errEvent sampleErrorJson (concat [hugeErrorBody]) 500 ++ DONE)).
Proof.
  cbn [concat]. unfold errEvent, sampleErrorJson.
  rewrite !length_app, !Nat2Z.inj_add, hugeErrorBody_length.
  unfold MAX_BODY_SIZE. lia.
Qed.

Lemma streaming_upstream_error_witness :
  let key := sampleHash streamingBody in
  let st := create DEFAULT_TTL_MS in
  let ev := errEvent sampleErrorJson (ascii "overloaded") 503 in
  let run := sampleRequest streamingRequest None
               (UResponse 503 [] [ascii "overloaded"]) 2 1000 1500 1500 st in
  let large := sampleRequest streamingRequest None
                 (UResponse 500 [] [hugeErrorBody]) 0 1000 1500 1500 st in
  response (fst run)
    = Some {| c_status := 200; c_headers := earlyHeaders;
              c_body := (HEARTBEAT ++ HEARTBEAT ++ HEARTBEAT) ++ ev ++ DONE |}
  /\ completed (snd run) !! key
     = Some {| status := 200; headers := sseHeaders; body := ev ++ DONE;
               completedAt := 1500 |}
  /\ completed (snd large)
     = unexpired 1500 (ttlMs (markInflight key st)) (completed (markInflight key st)).
Proof.
  intros key st ev run large.
  assert (Hstart : Proxy.proxyStart sampleHash sampleParse streamingRequest None 1000 st
                   = (Forward key true streamingBody, markInflight key st))
    by (vm_compute; reflexivity).
  destruct (streaming_upstream_error sampleHash sampleParse sampleErrorJson
              streamingRequest None 503 [] [ascii "overloaded"] 2%nat 1000 1500 1500
              st key streamingBody (markInflight key st) Hstart)
    as (Hr & _ & _ & _ & Hstore & _); [discriminate|].
  destruct (streaming_upstream_error sampleHash sampleParse sampleErrorJson
              streamingRequest None 500 [] [hugeErrorBody] 0%nat 1000 1500 1500
              st key streamingBody (markInflight key st) Hstart)
    as (_ & _ & _ & _ & _ & Hbig); [discriminate|].
  split; [exact Hr|]. split.
  - apply Hstore; vm_compute; discriminate.
  - apply Hbig. apply hugeEvent_too_long.
Defined.

(** C9, counterexample.  The upstream answers a streaming request with
    status 500 and a body of 1,048,577 bytes: the request is answered with
    status 200 and the error event, and no completed entry is stored. *)
Lemma huge_error_event_counterexample :
  let key := sampleHash streamingBody in
  let st := create DEFAULT_TTL_MS in
  let run := sampleRequest streamingRequest None
               (UResponse 500 [] [hugeErrorBody]) 0 1000 1500 1500 st in
  Proxy.proxyStart sampleHash sampleParse streamingRequest None 1000 st
    = (Forward key true streamingBody, markInflight key st)
  /\ response (fst run)
     = Some {| c_status := 200; c_headers := earlyHeaders;
               c_body := HEARTBEAT ++ errEvent sampleErrorJson hugeErrorBody 500 ++ DONE |}
  /\ completed (snd run) !! key = None.
Proof.
  intros key st run.
  assert (Hr : Proxy.routingStage sampleParse streamingRequest None = (true, streamingBody))
    by (vm_compute; reflexivity).
  destruct (proxyRequest_fresh_response sampleHash sampleParse sampleErrorJson
              streamingRequest None 500 [] [hugeErrorBody] 0%nat 1000 1500 1500 st
              true streamingBody Hr (lookup_empty _) (lookup_empty _))
    as (_ & _ & Hresp & _ & Hcomp).
  fold run in Hresp, Hcomp.
  split; [|split].
  - apply (proxyStart_fresh sampleHash sampleParse streamingRequest None 1000 st
             true streamingBody Hr); apply lookup_empty.
  - rewrite Hresp. unfold forwardedEntry. cbn [body concat replicate].
    rewrite bool_decide_eq_false_2 by discriminate.
    rewrite !app_nil_r. reflexivity.
  - fold key in Hcomp. rewrite Hcomp.
    assert (Hbig : (Z.of_nat (length (body (forwardedEntry sampleErrorJson true 500 []
                                             [hugeErrorBody] 1500)))
                    <=? MAX_BODY_SIZE) = false).
    { apply Z.leb_gt. unfold forwardedEntry. cbn [body].
      rewrite bool_decide_eq_false_2 by discriminate.
      apply hugeEvent_too_long. }
    rewrite Hbig.
    destruct (unexpired 1500 (ttlMs st) (completed st) !! key) eqn:E; [|done].
    apply unexpired_lookup in E as [E _].
    unfold st, create in E. cbn [completed] in E.
    rewrite lookup_empty in E. discriminate E.
Qed.

End ProxyFacts.

(** ** The matcher *)

Module RegexFacts.
Import JS Regex RegexSpec.

Lemma flat_map_flat_map {A B C} (f : A -> list B) (g : B -> list C) (l : list A) :
  List.flat_map g (List.flat_map f l) = List.flat_map (fun x => List.flat_map g (f x)) l.
Proof.
  induction l as [|x l IH]; simpl; [done|].
  by rewrite flat_map_app, IH.
Qed.

Lemma rmatch_Seq_assoc a b r prev s :
  rmatch (Seq (Seq a b) r) prev s = rmatch (Seq a (Seq b r)) prev s.
Proof. simpl. apply flat_map_flat_map. Qed.

Lemma rmatch_Seq_Chr p r prev s :
  rmatch (Seq (Chr p) r) prev s =
    match s with
    | c :: s' => if p c then rmatch r (Some c) s' else []
    | [] => []
    end.
Proof.
  simpl. destruct s as [|c s']; [done|].
  destruct (p c); simpl; [apply app_nil_r|done].
Qed.

Lemma rmatch_Seq_Alt a b r prev s :
  rmatch (Seq (Alt a b) r) prev s = rmatch (Seq a r) prev s ++ rmatch (Seq b r) prev s.
Proof. simpl. apply flat_map_app. Qed.

Lemma rmatch_Seq_WordB r prev s :
  rmatch (Seq WordB r) prev s =
    if xorb (isWordOpt prev) (isWordOpt (head s)) then rmatch r prev s else [].
Proof.
  simpl. destruct (xorb _ _); simpl; [apply app_nil_r|done].
Qed.

Lemma rmatch_Seq_LitCI w r prev s :
  rmatch (Seq (LitCI w) r) prev s =
    match litCI w prev s with
    | Some st => rmatch r (fst st) (snd st)
    | None => []
    end.
Proof.
  revert prev s. induction w as [|p w IH]; intros prev s.
  - simpl. apply app_nil_r.
  - change (LitCI (p :: w)) with (Seq (Chr (eqCI p)) (LitCI w)).
    rewrite rmatch_Seq_assoc, rmatch_Seq_Chr. simpl.
    destruct s as [|c s']; [done|].
    destruct (eqCI p c); [apply IH|done].
Qed.

Lemma rmatch_Star r prev s :
  rmatch (Star r) prev s = star_iter (rmatch r) (length s) prev s.
Proof. reflexivity. Qed.

Lemma rmatch_Seq a b prev s :
  rmatch (Seq a b) prev s
  = List.flat_map (fun st : mstate => rmatch b (fst st) (snd st)) (rmatch a prev s).
Proof. reflexivity. Qed.

Lemma star_iter_S step fuel prev s :
  star_iter step (S fuel) prev s =
    List.flat_map
      (fun st : mstate =>
         if (length (snd st) <? length s)%nat
         then star_iter step fuel (fst st) (snd st)
         else [])
      (step prev s)
    ++ [(prev, s)].
Proof. reflexivity. Qed.

Lemma rmatch_Space prev c s :
  rmatch Space prev (c :: s) = if isSpace c then [(Some c, s)] else [].
Proof. reflexivity. Qed.

(** Reading the white space before a continuation that cannot start with a
    white-space character: the iteration takes all of it. *)
Lemma rmatch_Seq_Star_Space_done r prev rest :
  isSpaceOpt (head rest) = false ->
  rmatch (Seq (Star Space) r) prev rest = rmatch r prev rest.
Proof.
  intros H. rewrite rmatch_Seq, rmatch_Star.
  destruct rest as [|c s'].
  - simpl. apply app_nil_r.
  - simpl in H. cbn [length]. rewrite star_iter_S, rmatch_Space, H.
    cbn [List.flat_map app fst snd]. apply app_nil_r.
Qed.

Lemma rmatch_Seq_Star_Space r :
  (forall pv c s', isSpace c = true -> rmatch r pv (c :: s') = []) ->
  forall ws a rest,
    Forall (fun c => isSpace c = true) ws ->
    isSpaceOpt (head rest) = false ->
    rmatch (Seq (Star Space) r) (last a) (ws ++ rest) = rmatch r (last (a ++ ws)) rest.
Proof.
  intros Hr ws. induction ws as [|c ws IH]; intros a rest Hws Hrest.
  - rewrite app_nil_r. by apply rmatch_Seq_Star_Space_done.
  - apply Forall_cons in Hws as [Hc Hws].
    rewrite rmatch_Seq, rmatch_Star.
    change (length ((c :: ws) ++ rest)) with (S (length (ws ++ rest))).
    change ((c :: ws) ++ rest) with (c :: (ws ++ rest)).
    rewrite star_iter_S, rmatch_Space, Hc.
    cbn [List.flat_map fst snd].
    assert (Hlt : (length (ws ++ rest) <? length (c :: ws ++ rest))%nat = true)
      by (apply Nat.ltb_lt; simpl; lia).
    rewrite Hlt, app_nil_r, flat_map_app.
    cbn [List.flat_map fst snd]. rewrite Hr by done. rewrite !app_nil_r.
    rewrite <- rmatch_Star, <- rmatch_Seq.
    specialize (IH (a ++ [c]) rest Hws Hrest).
    rewrite last_snoc in IH. rewrite IH.
    by rewrite <- app_assoc.
Qed.

(** *** Scanning *)

Lemma lastOr_nil prev : lastOr prev [] = prev.
Proof. reflexivity. Qed.

Lemma lastOr_cons prev c x : lastOr prev (c :: x) = lastOr (Some c) x.
Proof.
  unfold lastOr. destruct x as [|d x]; [done|].
  rewrite last_cons_cons.
  destruct (last (d :: x)) eqn:E; [done|].
  by apply last_None in E.
Qed.

Lemma lastOr_app prev x y : lastOr prev (x ++ y) = lastOr (lastOr prev x) y.
Proof.
  revert prev. induction x as [|c x IH]; intros prev; [done|].
  simpl. by rewrite !lastOr_cons, IH.
Qed.

Lemma lastOr_last a x : lastOr (last a) x = last (a ++ x).
Proof.
  revert a. induction x as [|c x IH]; intros a.
  - by rewrite app_nil_r.
  - rewrite lastOr_cons. specialize (IH (a ++ [c])).
    rewrite last_snoc in IH. by rewrite IH, <- app_assoc.
Qed.

Lemma execFrom_eq r prev s :
  execFrom r prev s =
    match matchHere r prev s with
    | Some rest => Some ([], take (length s - length rest) s, rest)
    | None =>
        match s with
        | [] => None
        | c :: s' =>
            match execFrom r (Some c) s' with
            | Some (pre, m, rest) => Some (c :: pre, m, rest)
            | None => None
            end
        end
    end.
Proof. destruct s; reflexivity. Qed.

Lemma matchPositions_eq r prev s i :
  matchPositions r prev s i =
    match matchHere r prev s with
    | Some _ => [i]
    | None => []
    end
    ++ match s with
       | [] => []
       | c :: s' => matchPositions r (Some c) s' (S i)
       end.
Proof. destruct s; reflexivity. Qed.

Lemma matchPositions_ge r prev s i p : In p (matchPositions r prev s i) -> i <= p.
Proof.
  revert prev i. induction s as [|c s IH]; intros prev i; rewrite matchPositions_eq.
  - rewrite app_nil_r. destruct (matchHere r prev []); simpl; [|done].
    intros [<-|[]]. lia.
  - rewrite in_app_iff. intros [H|H].
    + destruct (matchHere r prev (c :: s)); simpl in H; [|done].
      destruct H as [<-|[]]. lia.
    + apply IH in H. lia.
Qed.

(** The positions in [x ++ y] are positions inside [x] followed by the
    positions of [y]. *)
Lemma matchPositions_app r x y prev i :
  exists l,
    matchPositions r prev (x ++ y) i
      = l ++ matchPositions r (lastOr prev x) y (i + length x)
    /\ forall p, In p l -> p < i + length x.
Proof.
  revert prev i. induction x as [|c x IH]; intros prev i.
  - exists []. simpl. rewrite Nat.add_0_r. split; [done|]. intros p [].
  - destruct (IH (Some c) (S i)) as (l & Hl & Hlt).
    change ((c :: x) ++ y) with (c :: (x ++ y)).
    rewrite matchPositions_eq, Hl, lastOr_cons.
    exists (match matchHere r prev (c :: x ++ y) with Some _ => [i] | None => [] end ++ l).
    split.
    + rewrite <- app_assoc. do 3 f_equal. simpl. lia.
    + intros p Hp. apply in_app_iff in Hp as [Hp|Hp].
      * destruct (matchHere r prev (c :: x ++ y)); simpl in Hp; [|done].
        destruct Hp as [<-|[]]. simpl. lia.
      * apply Hlt in Hp. simpl. lia.
Qed.

(** With a single match, at the end of [x], nothing matches after it. *)
Lemma matchPositions_after r x d y prev i :
  d <> [] ->
  matchPositions r prev (x ++ d ++ y) i = [i + length x] ->
  matchPositions r (lastOr prev (x ++ d)) y (i + length (x ++ d)) = [].
Proof.
  intros Hd H.
  destruct (matchPositions_app r (x ++ d) y prev i) as (l & Hl & _).
  rewrite <- app_assoc, H in Hl.
  destruct (matchPositions r (lastOr prev (x ++ d)) y (i + length (x ++ d)))
    as [|p T] eqn:E; [done|].
  exfalso.
  assert (Hge : i + length (x ++ d) <= p).
  { eapply matchPositions_ge. rewrite E. by left. }
  assert (Hin : In p [i + length x]).
  { rewrite Hl. apply in_app_iff. right. by left. }
  destruct Hin as [Hp|[]].
  rewrite length_app in Hge.
  destruct d; [done|]. simpl in Hge. lia.
Qed.

(** [exec] with a single match. *)
Lemma exec_unique r pre tail rest prev i :
  matchPositions r prev (pre ++ tail) i = [i + length pre] ->
  matchHere r (lastOr prev pre) tail = Some rest ->
  execFrom r prev (pre ++ tail)
  = Some (pre, take (length tail - length rest) tail, rest).
Proof.
  revert prev i. induction pre as [|c pre IH]; intros prev i H Hm.
  - rewrite lastOr_nil in Hm. simpl. rewrite execFrom_eq, Hm. reflexivity.
  - change ((c :: pre) ++ tail) with (c :: (pre ++ tail)) in *.
    rewrite matchPositions_eq in H. rewrite execFrom_eq.
    destruct (matchHere r prev (c :: pre ++ tail)).
    { simpl in H. injection H as H _. lia. }
    simpl in H. rewrite lastOr_cons in Hm.
    rewrite (IH (Some c) (S i)); [done| |done].
    rewrite H. f_equal. simpl. lia.
Qed.

(** [replace] where nothing matches. *)
Lemma replace_none r rep s prev i :
  matchPositions r prev s i = [] ->
  replaceFrom r rep 0 prev s = s.
Proof.
  revert prev i. induction s as [|c s IH]; intros prev i H;
    rewrite matchPositions_eq in H.
  - simpl. destruct (matchHere r prev []); [done|reflexivity].
  - simpl. destruct (matchHere r prev (c :: s)); [done|].
    simpl in H. by rewrite (IH _ _ H).
Qed.

Lemma replace_skip r rep x y prev :
  replaceFrom r rep (length x) prev (x ++ y) = replaceFrom r rep 0 (lastOr prev x) y.
Proof.
  revert prev. induction x as [|c x IH]; intros prev; [done|].
  simpl. by rewrite IH, lastOr_cons.
Qed.

(** [replace] with a single match. *)
Lemma replace_unique r rep pre d post prev i :
  d <> [] ->
  matchPositions r prev (pre ++ d ++ post) i = [i + length pre] ->
  matchHere r (lastOr prev pre) (d ++ post) = Some post ->
  replaceFrom r rep 0 prev (pre ++ d ++ post) = pre ++ rep ++ post.
Proof.
  intros Hd H Hm.
  pose proof (matchPositions_after r pre d post prev i Hd H) as HT.
  revert prev i H Hm HT. induction pre as [|c pre IH]; intros prev i H Hm HT.
  - rewrite lastOr_nil in Hm. simpl in HT. simpl.
    destruct d as [|c d]; [done|].
    change ((c :: d) ++ post) with (c :: (d ++ post)) in *.
    simpl. rewrite Hm.
    rewrite length_app.
    replace (S (length d + length post) - length post) with (S (length d)) by lia.
    rewrite replace_skip. rewrite lastOr_cons in HT.
    by rewrite (replace_none _ _ _ _ _ HT).
  - change ((c :: pre) ++ d ++ post) with (c :: (pre ++ d ++ post)) in *.
    rewrite matchPositions_eq in H. simpl.
    destruct (matchHere r prev (c :: pre ++ d ++ post)).
    { simpl in H. injection H as H _. lia. }
    simpl in H. rewrite lastOr_cons in Hm.
    change ((c :: pre) ++ d) with (c :: (pre ++ d)) in HT. rewrite lastOr_cons in HT.
    rewrite (IH (Some c) (S i)); [done| | done |].
    + rewrite H. f_equal. simpl. lia.
    + rewrite <- HT. f_equal. simpl. lia.
Qed.

End RegexFacts.

(** ** The tier directive *)

Module DirectiveFacts.
Import JS Regex RegexSpec RegexFacts Router Directive DirectiveSpec.

Ltac split_comparisons :=
  repeat match goal with
         | |- context [(?a <=? ?b)%N] =>
             destruct (N.leb_spec a b); try (exfalso; lia)
         | |- context [(?a =? ?b)%N] =>
             destruct (N.eqb_spec a b); try (exfalso; lia)
         | |- context [(?a <? ?b)%N] =>
             destruct (N.ltb_spec a b); try (exfalso; lia)
         end.

(** A code unit that matches an upper-case letter of the pattern is that
    letter in one of its two cases. *)
Lemma eqCI_upper p c :
  isUpper p = true -> eqCI p c = true ->
  (c = p \/ c = (p + 32)%N) /\ (65 <= p <= 90)%N.
Proof.
  unfold eqCI, asciiUpper, isUpper, isLower, between.
  intros Hp H.
  apply andb_true_iff in Hp as [Hp1 Hp2]. apply N.leb_le in Hp1, Hp2.
  apply andb_true_iff in H as [Hc H]. apply N.ltb_lt in Hc.
  split; [|lia].
  revert H. split_comparisons; simpl in *; intros Heq; try discriminate Heq; lia.
Qed.

Lemma letter_isWordChar p c :
  (c = p \/ c = (p + 32)%N) -> (65 <= p <= 90)%N -> isWordChar c = true.
Proof.
  intros Hc Hp. unfold isWordChar, isDigit, isUpper, isLower, between.
  split_comparisons; simpl; try reflexivity; exfalso; lia.
Qed.

Lemma letter_not_space p c :
  (c = p \/ c = (p + 32)%N) -> (65 <= p <= 90)%N -> isSpace c = false.
Proof.
  intros Hc Hp. unfold isSpace, between.
  split_comparisons; simpl; try reflexivity; exfalso; lia.
Qed.

Lemma letter_asciiUpper p c :
  (c = p \/ c = (p + 32)%N) -> (65 <= p <= 90)%N -> asciiUpper c = p.
Proof.
  intros Hc Hp. unfold asciiUpper, isLower, between.
  split_comparisons; simpl; lia.
Qed.

Lemma space_not_eqCI p c : isUpper p = true -> isSpace c = true -> eqCI p c = false.
Proof.
  intros Hp Hs. destruct (eqCI p c) eqn:E; [|done].
  destruct (eqCI_upper p c Hp E) as [Hc Hr].
  by rewrite (letter_not_space p c Hc Hr) in Hs.
Qed.

Lemma other_letter_not_eqCI p q c :
  isUpper p = true -> isUpper q = true -> p <> q ->
  eqCI p c = true -> eqCI q c = false.
Proof.
  intros Hp Hq Hne H. destruct (eqCI q c) eqn:E; [|done].
  destruct (eqCI_upper p c Hp H) as [Hc Hr].
  destruct (eqCI_upper q c Hq E) as [Hc' Hr'].
  exfalso. lia.
Qed.

(** *** Words of the pattern *)

Lemma allUpper_USE : allUpper (lit "USE").
Proof. repeat constructor. Qed.

Lemma allUpper_tierName t : allUpper (tierName t).
Proof. destruct t; repeat constructor. Qed.

Lemma spells_litCI w u a rest :
  spells w u -> litCI w (last a) (u ++ rest) = Some (last (a ++ u), rest).
Proof.
  intros H. revert a. induction H as [|p c w u Hpc H IH]; intros a.
  - simpl. by rewrite app_nil_r.
  - simpl. rewrite Hpc. specialize (IH (a ++ [c])).
    rewrite last_snoc in IH. rewrite IH. by rewrite <- app_assoc.
Qed.

Lemma spells_letters w u :
  allUpper w -> spells w u ->
  Forall2 (fun p c => (c = p \/ c = (p + 32)%N) /\ (65 <= p <= 90)%N) w u.
Proof.
  intros Hw H. induction H as [|p c w u Hpc H IH]; [constructor|].
  apply Forall_cons in Hw as [Hp Hw].
  constructor; [by apply eqCI_upper | by apply IH].
Qed.

Lemma spells_words w u : allUpper w -> spells w u -> Forall (fun c => isWordChar c = true) u.
Proof.
  intros Hw H. pose proof (spells_letters w u Hw H) as HL.
  induction HL as [|p c w' u' [Hc Hr] _ IH]; constructor.
  - by apply (letter_isWordChar p c).
  - apply Forall_cons in Hw as [_ Hw]. apply Forall2_cons in H as [_ H]. by apply IH.
Qed.

Lemma spells_asciiUpper w u : allUpper w -> spells w u -> List.map asciiUpper u = w.
Proof.
  intros Hw H. pose proof (spells_letters w u Hw H) as HL.
  clear Hw H. induction HL as [|p c w' u' [Hc Hr] _ IH]; [done|].
  simpl. by rewrite IH, (letter_asciiUpper p c Hc Hr).
Qed.

Lemma spells_head_not_space w u rest :
  allUpper w -> w <> [] -> spells w u -> isSpaceOpt (head (u ++ rest)) = false.
Proof.
  intros Hw Hne H. destruct H as [|p c w' u' Hpc H]; [done|].
  apply Forall_cons in Hw as [Hp _].
  destruct (eqCI_upper p c Hp Hpc) as [Hc Hr].
  simpl. by apply (letter_not_space p c).
Qed.

Lemma spells_head_word w u rest :
  allUpper w -> w <> [] -> spells w u -> isWordOpt (head (u ++ rest)) = true.
Proof.
  intros Hw Hne H. destruct H as [|p c w' u' Hpc H]; [done|].
  apply Forall_cons in Hw as [Hp _].
  destruct (eqCI_upper p c Hp Hpc) as [Hc Hr].
  simpl. by apply (letter_isWordChar p c).
Qed.

Lemma last_word a u :
  Forall (fun c => isWordChar c = true) u -> u <> [] -> isWordOpt (last (a ++ u)) = true.
Proof.
  intros Hu Hne. destruct u as [|c u] using rev_ind; [done|].
  rewrite app_assoc, last_snoc. cbn [isWordOpt].
  apply Forall_app in Hu as [_ Hc]. apply Forall_cons in Hc as [Hc _]. exact Hc.
Qed.

Lemma tierName_cons t : exists p w, tierName t = p :: w /\ isUpper p = true.
Proof. destruct t; eexists _, _; split; reflexivity. Qed.

Lemma tierName_head_inj t t' p w w' :
  tierName t = p :: w -> tierName t' = p :: w' -> t = t'.
Proof.
  destruct t, t'; intros H H'; try reflexivity;
    injection H as <- _; injection H' as H' _; discriminate H'.
Qed.

(** *** The directive expression at a directive *)

Lemma rmatch_tierWords prev s :
  rmatch (Seq tierWords WordB) prev s
  = alternative SIMPLE prev s ++ alternative MEDIUM prev s
    ++ alternative COMPLEX prev s ++ alternative REASONING prev s.
Proof.
  unfold tierWords. cbn [AltOf].
  rewrite !rmatch_Seq_Alt, !rmatch_Seq_LitCI. reflexivity.
Qed.

Lemma alternative_other t t' prev nm post :
  t <> t' -> spells (tierName t) nm -> alternative t' prev (nm ++ post) = [].
Proof.
  intros Hne H. unfold alternative.
  destruct (tierName_cons t) as (p & w & Et & Hp).
  destruct (tierName_cons t') as (q & w' & Et' & Hq).
  assert (Hpq : p <> q).
  { intros ->. apply Hne. eapply tierName_head_inj; eauto. }
  unfold spells in H. rewrite Et in H. rewrite Et'.
  apply Forall2_cons_inv_l in H as (c & u & Hpc & _ & ->).
  simpl. by rewrite (other_letter_not_eqCI p q c Hp Hq Hpq Hpc).
Qed.

Lemma alternative_self t a nm post :
  spells (tierName t) nm -> isWordOpt (head post) = false ->
  alternative t (last a) (nm ++ post) = [(last (a ++ nm), post)].
Proof.
  intros H Hpost. unfold alternative.
  rewrite (spells_litCI _ _ a post H). cbn [fst snd rmatch].
  assert (Hne : nm <> []).
  { intros ->. apply Forall2_nil_inv_r in H. by destruct t. }
  rewrite (last_word a nm (spells_words _ _ (allUpper_tierName t) H) Hne), Hpost.
  reflexivity.
Qed.

Lemma rmatch_tierWords_at t a nm post :
  spells (tierName t) nm -> isWordOpt (head post) = false ->
  rmatch (Seq tierWords WordB) (last a) (nm ++ post) = [(last (a ++ nm), post)].
Proof.
  intros H Hpost. rewrite rmatch_tierWords.
  destruct t;
    rewrite (alternative_self _ a nm post H Hpost);
    repeat match goal with
           | H0 : spells (tierName ?t0) nm
             |- context [alternative ?t' (last a) (nm ++ post)] =>
               rewrite (alternative_other t0 t' (last a) nm post ltac:(discriminate) H0)
           end;
    reflexivity.
Qed.

Lemma rmatch_tierWords_space pv c s :
  isSpace c = true -> rmatch (Seq tierWords WordB) pv (c :: s) = [].
Proof.
  intros Hc. rewrite rmatch_tierWords. unfold alternative.
  assert (Hnone : forall t, litCI (tierName t) pv (c :: s) = None).
  { intros t. destruct (tierName_cons t) as (p & w & -> & Hp).
    simpl. by rewrite (space_not_eqCI p c Hp Hc). }
  by rewrite !Hnone.
Qed.

(** The directive expression matches a directive that stands between word
    boundaries, and consumes exactly the directive. *)
Lemma matchHere_directive t pre d post :
  isDirective t d ->
  isWordOpt (last pre) = false ->
  isWordOpt (head post) = false ->
  matchHere TIER_OVERRIDE_REGEX (last pre) (d ++ post) = Some post.
Proof.
  intros (u & ws & nm & -> & Hu & Hws & Hsp & Hnm) Hpre Hpost.
  unfold matchHere, TIER_OVERRIDE_REGEX, Plus.
  rewrite <- !app_assoc.
  rewrite rmatch_Seq_WordB, Hpre.
  rewrite (spells_head_word _ u _ allUpper_USE ltac:(done) Hu). cbn [xorb].
  rewrite rmatch_Seq_LitCI, (spells_litCI _ _ pre _ Hu). cbn [fst snd].
  rewrite rmatch_Seq_assoc.
  destruct ws as [|c ws]; [done|].
  apply Forall_cons in Hsp as [Hc Hsp].
  change (Seq Space ?r) with (Seq (Chr isSpace) r).
  rewrite rmatch_Seq_Chr. cbn [app]. rewrite Hc.
  change (Some c) with (last [c]).
  rewrite (rmatch_Seq_Star_Space _ rmatch_tierWords_space ws [c] (nm ++ post) Hsp).
  - by rewrite (rmatch_tierWords_at t _ nm post Hnm Hpost).
  - apply (spells_head_not_space _ nm post (allUpper_tierName t)); [by destruct t|done].
Qed.

(** *** Parsing and stripping a single directive *)

Lemma lastOr_None x : lastOr None x = last x.
Proof. change None with (last (@nil N)). by rewrite lastOr_last. Qed.

Lemma isDirective_nonempty t d : isDirective t d -> d <> [].
Proof.
  intros (u & ws & nm & -> & Hu & _).
  unfold spells in Hu. apply Forall2_cons_inv_l in Hu as (c & u' & _ & _ & ->). done.
Qed.

Lemma trimStart_spaces ws rest :
  Forall (fun c => isSpace c = true) ws ->
  isSpaceOpt (head rest) = false ->
  trimStart (ws ++ rest) = rest.
Proof.
  intros Hws Hrest. induction Hws as [|c ws Hc _ IH].
  - destruct rest as [|c rest]; [done|]. simpl in *. by rewrite Hrest.
  - simpl. by rewrite Hc.
Qed.

Lemma tierOfName_tierName t : tierOfName (tierName t) = Some t.
Proof. destruct t; vm_compute; reflexivity. Qed.

Section SingleDirective.

Variables (t : Tier) (pre d post : jsstring).
Hypothesis Hdir : isDirective t d.
Hypothesis Hpre : isWordOpt (last pre) = false.
Hypothesis Hpost : isWordOpt (head post) = false.
Hypothesis Honly : directivePositions (pre ++ d ++ post) = [length pre].

Lemma exec_directive :
  exec TIER_OVERRIDE_REGEX (pre ++ d ++ post) = Some (pre, d, post).
Proof using Hdir Hpre Hpost Honly.
  unfold exec.
  rewrite (exec_unique TIER_OVERRIDE_REGEX pre (d ++ post) post None 0).
  - rewrite length_app.
    replace (length d + length post - length post) with (length d) by lia.
    by rewrite take_app_length.
  - exact Honly.
  - rewrite lastOr_None. by apply (matchHere_directive t).
Qed.

Lemma parse_directive : parseForcedTier (pre ++ d ++ post) = Some t.
Proof using Hdir Hpre Hpost Honly.
  unfold parseForcedTier. rewrite exec_directive.
  destruct Hdir as (u & ws & nm & -> & Hu & _ & Hsp & Hnm).
  assert (Hlen : length u = 3).
  { unfold spells in Hu. apply Forall2_length in Hu. by rewrite <- Hu. }
  rewrite <- Hlen, drop_app_length.
  rewrite <- (app_nil_r nm) at 1. rewrite app_assoc, app_nil_r.
  rewrite (trimStart_spaces ws nm Hsp).
  - rewrite (spells_asciiUpper _ nm (allUpper_tierName t) Hnm).
    apply tierOfName_tierName.
  - rewrite <- (app_nil_r nm).
    apply (spells_head_not_space _ nm [] (allUpper_tierName t)); [|done].
    destruct (tierName_cons t) as (p & w & -> & _). done.
Qed.

Lemma strip_directive :
  stripForcedTierDirective (pre ++ d ++ post)
  = trim (replaceAll blankRun (lit " ") (pre ++ post)).
Proof using Hdir Hpre Hpost Honly.
  unfold stripForcedTierDirective. f_equal. f_equal.
  unfold replaceAll.
  rewrite (replace_unique TIER_OVERRIDE_REGEX [] pre d post None 0).
  - reflexivity.
  - by apply (isDirective_nonempty t).
  - exact Honly.
  - rewrite lastOr_None. by apply (matchHere_directive t).
Qed.

End SingleDirective.

Lemma trim_id s :
  isSpaceOpt (head s) = false -> isSpaceOpt (last s) = false -> trim s = s.
Proof.
  intros Hh Hl. unfold trim, trimEnd.
  assert (Hs : trimStart s = s).
  { destruct s as [|c s]; [done|]. simpl in *. by rewrite Hh. }
  rewrite Hs.
  destruct s as [|c s _] using rev_ind; [done|].
  rewrite last_snoc in Hl. rewrite rev_app_distr. simpl in *.
  rewrite Hl. simpl. by rewrite rev_involutive.
Qed.

Lemma replaceAll_none r rep s :
  matchPositions r None s 0 = [] -> replaceAll r rep s = s.
Proof. apply replace_none. Qed.

Lemma stripPart_none ft p : noDirectivePart p -> stripPart ft p = (ft, p).
Proof.
  unfold noDirectivePart, stripPart. intros H.
  destruct (p_text p) as [text|]; [|done].
  case_bool_decide as Ht; [|done].
  rewrite (H Ht). by destruct ft.
Qed.

Lemma stripParts_none ft ps : Forall noDirectivePart ps -> stripParts ft ps = (ft, ps).
Proof.
  intros H. induction H as [|p ps Hp _ IH]; [done|].
  simpl. by rewrite (stripPart_none ft p Hp), IH.
Qed.

Lemma stripParts_directive before part after text t :
  p_type part = lit "text" ->
  p_text part = Some text ->
  Forall noDirectivePart (before ++ after) ->
  parseForcedTier text = Some t ->
  stripParts None (before ++ part :: after)
  = (Some t,
     before ++ mkPart (p_type part) (Some (stripForcedTierDirective text)) (p_extra part)
       :: after).
Proof.
  intros Hty Htx Hno Hparse.
  apply Forall_app in Hno as [Hb Ha].
  induction Hb as [|p before Hp _ IH].
  - simpl. unfold stripPart at 1. rewrite Htx, Hty, bool_decide_eq_true_2 by done.
    rewrite Hparse. by rewrite (stripParts_none (Some t) after Ha).
  - simpl. by rewrite (stripPart_none None p Hp), IH.
Qed.

Lemma extract_directive msg text rebuild t :
  holdsText (content msg) text rebuild ->
  parseForcedTier text = Some t ->
  extractAndStripForcedTier (Some msg)
  = (Some t, Some {| role := role msg;
                     content := rebuild (stripForcedTierDirective text) |}).
Proof.
  intros Hc Hp. unfold extractAndStripForcedTier.
  inversion Hc as [text' Hc' | before part after text' Hty Htx Hno Hc']; subst.
  - by rewrite Hp.
  - by rewrite (stripParts_directive before part after text t Hty Htx Hno Hp).
Qed.

Lemma deletions_complete (a b c : jsstring) : a ++ c ∈ deletions (a ++ b ++ c).
Proof.
  unfold deletions. apply list_elem_of_In, in_flat_map.
  exists (length a). split.
  - apply in_seq. rewrite !length_app. lia.
  - apply in_map_iff. exists (length b). split.
    + rewrite take_app_length.
      rewrite <- (drop_drop (a ++ b ++ c) (length b) (length a)).
      by rewrite drop_app_length, drop_app_length.
    + apply in_seq. rewrite !length_app. lia.
Qed.

(** C1, as amended.  The last user message carries, as its string content
    or as its one text part with a directive, a text that contains one
    directive [d] naming tier [t], between word boundaries, and the
    directive expression matches nowhere else in it.  Then the context
    handed to the router carries [t] as forced tier, the resolved tier is
    [t], the message array is the original one with that text replaced,
    the prompt is the text of the new content, and the new text is the
    original text without the directive, with every run of two or more
    spaces or tabs replaced by one space and the white space at both ends
    removed.  It is the original text without the directive, unchanged,
    when that text has no such run and no white space at its ends. *)
Theorem directive_forces_tier
    messages hasResponseFormat i msg rebuild pre d post t routed
    messages' prompt systemPrompt ctx :
  lastUserIndex messages = Some i ->
  messages !! i = Some msg ->
  holdsText (content msg) (pre ++ d ++ post) rebuild ->
  isDirective t d ->
  isWordOpt (last pre) = false ->
  isWordOpt (head post) = false ->
  directivePositions (pre ++ d ++ post) = [length pre] ->
  prepareRouting messages hasResponseFormat = (messages', prompt, systemPrompt, ctx) ->
  let forwarded := trim (replaceAll blankRun (lit " ") (pre ++ post)) in
  forcedTier ctx = Some t
  /\ resolveTier ctx routed = t
  /\ messages' = <[i := {| role := role msg; content := rebuild forwarded |}]> messages
  /\ prompt = extractText (rebuild forwarded)
  /\ extractText (CString forwarded) = forwarded
  /\ (matchPositions blankRun None (pre ++ post) 0 = [] ->
      isSpaceOpt (head (pre ++ post)) = false ->
      isSpaceOpt (last (pre ++ post)) = false ->
      forwarded = pre ++ post).
Proof.
  intros Hidx Hmsg Hcontent Hdir Hpre Hpost Honly Hprep forwarded.
  pose proof (parse_directive t pre d post Hdir Hpre Hpost Honly) as Hparse.
  pose proof (strip_directive t pre d post Hdir Hpre Hpost Honly) as Hstrip.
  fold forwarded in Hstrip.
  pose proof (extract_directive msg _ rebuild t Hcontent Hparse) as Hex.
  rewrite Hstrip in Hex.
  unfold prepareRouting in Hprep. rewrite Hidx in Hprep.
  change (Some i ≫= (fun i => messages !! i)) with (messages !! i) in Hprep.
  rewrite Hmsg, Hex in Hprep.
  cbv beta iota zeta in Hprep.
  injection Hprep as <- <- _ <-.
  split; [reflexivity|]. split; [reflexivity|]. split; [reflexivity|].
  split; [reflexivity|]. split; [reflexivity|].
  intros Hblank Hh Hl. unfold forwarded.
  rewrite (replaceAll_none _ _ _ Hblank). by apply trim_id.
Qed.

Lemma isDirective_USE_COMPLEX : isDirective COMPLEX (lit "USE COMPLEX").
Proof.
  exists (lit "USE"), (lit " "), (lit "COMPLEX").
  split; [reflexivity|]. split; [repeat constructor|].
  split; [discriminate|]. split; repeat constructor.
Qed.

Lemma directive_forces_tier_witness :
  let result := prepareRouting sampleMessages false in
  let tight := prepareRouting tightMessages false in
  (forcedTier (snd result) = Some COMPLEX
   /\ resolveTier (snd result) SIMPLE = COMPLEX
   /\ snd (fst (fst result)) = lit "Design a distributed message queue architecture")
  /\ snd (fst (fst tight)) = lit "Design a message queue.".
Proof.
  intros result tight.
  destruct result as [[[messages' prompt] systemPrompt] ctx] eqn:E.
  destruct tight as [[[messages2 prompt2] systemPrompt2] ctx2] eqn:E2.
  destruct (directive_forces_tier sampleMessages false 1
              {| role := lit "user"; content := CString readmePrompt |}
              CString [] (lit "USE COMPLEX")
              (lit " Design a distributed message queue architecture")
              COMPLEX SIMPLE messages' prompt systemPrompt ctx)
    as (Hf & Hr & _ & Hp & _).
  - vm_compute. reflexivity.
  - reflexivity.
  - apply holds_string.
  - exact isDirective_USE_COMPLEX.
  - reflexivity.
  - reflexivity.
  - vm_compute. reflexivity.
  - exact E.
  - destruct (directive_forces_tier tightMessages false 0
                {| role := lit "user"; content := CString tightPrompt |}
                CString (lit "Design a message queue.") (lit "USE COMPLEX") []
                COMPLEX SIMPLE messages2 prompt2 systemPrompt2 ctx2)
      as (_ & _ & _ & Hp2 & _ & Hsame).
    + vm_compute. reflexivity.
    + reflexivity.
    + apply holds_string.
    + exact isDirective_USE_COMPLEX.
    + reflexivity.
    + reflexivity.
    + vm_compute. reflexivity.
    + exact E2.
    + split.
      * split; [exact Hf|]. split; [exact Hr|].
        cbn [fst snd]. rewrite Hp. vm_compute. reflexivity.
      * cbn [fst snd]. rewrite Hp2. cbn [extractText].
        rewrite Hsame; [by rewrite app_nil_r | | |]; vm_compute; reflexivity.
Defined.

(** C1, counterexample.  For the prompt of the README with a doubled space
    after "Design", the forced tier is COMPLEX and the directive is the
    first eleven code units, but the forwarded text is neither the original
    without the directive nor the original without any one substring: the
    space after the directive and one of the two spaces are gone. *)
Lemma stripped_text_counterexample :
  let message := {| role := lit "user"; content := CString spacedPrompt |} in
  let forwarded := lit "Design a distributed message queue architecture" in
  exec TIER_OVERRIDE_REGEX spacedPrompt
    = Some ([], lit "USE COMPLEX",
            lit " Design  a distributed message queue architecture")
  /\ extractAndStripForcedTier (Some message)
     = (Some COMPLEX, Some {| role := lit "user"; content := CString forwarded |})
  /\ forwarded <> [] ++ lit " Design  a distributed message queue architecture"
  /\ forwarded ∉ deletions spacedPrompt.
Proof.
  split; [vm_compute; reflexivity|].
  split; [vm_compute; reflexivity|].
  split; [vm_compute; discriminate|].
  apply (proj1 (bool_decide_eq_false _)). vm_compute. reflexivity.
Qed.

End DirectiveFacts.

(** ** The AI classifier *)

Module ClassifierMore.
Import JS Regex RegexSpec RegexFacts Router Directive DirectiveFacts.
Import Classifier ClassifierSpec.

Local Open Scope Z_scope.

(** *** [parseTier] *)

Lemma replaceFrom_class p prev s :
  replaceFrom (Chr p) [] 0 prev s = List.filter (fun c => negb (p c)) s.
Proof.
  revert prev. induction s as [|c s IH]; intros prev; [done|].
  cbn [replaceFrom List.filter]. unfold matchHere. cbn [rmatch].
  destruct (p c); simpl.
  - replace (S (length s) - length s)%nat with 1%nat by lia. apply IH.
  - by rewrite IH.
Qed.

Lemma tierOfName_Some s t : tierOfName s = Some t <-> s = tierName t.
Proof.
  split; [|intros ->; apply tierOfName_tierName].
  unfold tierOfName. repeat case_bool_decide; intros [= <-]; done.
Qed.

(** X22.  [parseTier] reads the tier spelled by the capital letters of the text
    and ignores every other character: it answers [t] exactly when the
    capital letters A-Z of the text, in order, spell the name of [t]. *)
Theorem parseTier_spec raw t :
  parseTier raw = Some t <-> List.filter isUpper raw = tierName t.
Proof.
  unfold parseTier, replaceAll. rewrite replaceFrom_class, tierOfName_Some.
  assert (H : List.filter (fun c => negb (negb (isUpper c))) raw = List.filter isUpper raw).
  { apply List.filter_ext. intros c. apply negb_involutive. }
  by rewrite H.
Qed.

(** *** [hashPrompt] *)

Lemma toInt32_shift x k : toInt32 (x + k * 2 ^ 32) = toInt32 x.
Proof.
  unfold toInt32. replace (x + k * 2 ^ 32 + 2 ^ 31) with (x + 2 ^ 31 + k * 2 ^ 32) by ring.
  by rewrite Z_mod_plus_full.
Qed.

Lemma toInt32_repr x : exists k, toInt32 x = x + k * 2 ^ 32.
Proof.
  exists (- ((x + 2 ^ 31) / 2 ^ 32)). unfold toInt32.
  pose proof (Z_div_mod_eq_full (x + 2 ^ 31) (2 ^ 32)). lia.
Qed.

Lemma toInt32_range x : - 2 ^ 31 <= toInt32 x < 2 ^ 31.
Proof.
  unfold toInt32. pose proof (Z.mod_pos_bound (x + 2 ^ 31) (2 ^ 32) ltac:(lia)). lia.
Qed.

Lemma hashStep_poly h c P :
  h = toInt32 P -> hashStep h c = toInt32 (31 * P + Z.of_N c).
Proof.
  intros ->. unfold hashStep.
  destruct (toInt32_repr P) as [k0 H0].
  destruct (toInt32_repr (toInt32 P)) as [k1 H1].
  destruct (toInt32_repr (toInt32 (toInt32 P) * 2 ^ 5)) as [k2 H2].
  rewrite H2, H1, H0.
  replace ((P + k0 * 2 ^ 32 + k1 * 2 ^ 32) * 2 ^ 5 + k2 * 2 ^ 32 - (P + k0 * 2 ^ 32)
           + Z.of_N c)
    with (31 * P + Z.of_N c + (31 * k0 + 32 * k1 + k2) * 2 ^ 32) by ring.
  apply toInt32_shift.
Qed.

Lemma hashCode_poly s : hashCode s = toInt32 (poly31 s).
Proof.
  unfold hashCode, poly31.
  induction s as [|c s IH] using rev_ind; [done|].
  rewrite !fold_left_app. cbn [fold_left]. by apply hashStep_poly.
Qed.

(** X23.  The key of the classifier cache.  The hash is Horner's polynomial in
    31 over the code units of the text, reduced to a signed 32-bit
    integer; so it is not injective: two texts that differ only by [Aa]
    standing in one where [BB] stands in the other have the same hash, and
    hence the same cache key. *)
Theorem hashCode_polynomial s :
  hashCode s = toInt32 (poly31 s)
  /\ - 2 ^ 31 <= hashCode s < 2 ^ 31
  /\ (forall p q,
        hashCode (p ++ lit "Aa" ++ q) = hashCode (p ++ lit "BB" ++ q)
        /\ hashPrompt (p ++ lit "Aa" ++ q) = hashPrompt (p ++ lit "BB" ++ q)).
Proof.
  split; [apply hashCode_poly|].
  split; [rewrite hashCode_poly; apply toInt32_range|].
  intros p q.
  assert (H : hashCode (p ++ lit "Aa" ++ q) = hashCode (p ++ lit "BB" ++ q)).
  { rewrite !hashCode_poly. f_equal. unfold poly31.
    rewrite !fold_left_app. f_equal. cbn [lit fold_left List.map list_ascii_of_string].
    change (Z.of_N (N_of_ascii "A")) with 65.
    change (Z.of_N (N_of_ascii "a")) with 97.
    change (Z.of_N (N_of_ascii "B")) with 66.
    lia. }
  split; [exact H|]. unfold hashPrompt. by rewrite H.
Qed.

(** *** The cache *)

Lemma get_set {V} k (v : V) m : JSMap.get k (JSMap.set k v m) = Some v.
Proof.
  unfold JSMap.get. induction m as [|[k' v'] m IH]; simpl.
  - by rewrite bool_decide_eq_true_2.
  - destruct (bool_decide (k' = k)) eqn:E; simpl.
    + by rewrite bool_decide_eq_true_2.
    + by rewrite E.
Qed.

Lemma length_set {V} k (v : V) m : (length (JSMap.set k v m) <= S (length m))%nat.
Proof.
  induction m as [|[k' v'] m IH]; simpl; [lia|].
  destruct (bool_decide (k' = k)); simpl; lia.
Qed.

(** [set] on a new key appends; on a present key it keeps the length. *)
Lemma set_cases {V} k (v : V) m :
  (length (JSMap.set k v m) = length m)
  \/ (JSMap.set k v m = m ++ [(k, v)] /\ Forall (fun kv => fst kv <> k) m).
Proof.
  induction m as [|[k' v'] m IH]; simpl; [right; by split|].
  destruct (bool_decide (k' = k)) eqn:E; simpl; [by left|].
  apply bool_decide_eq_false in E.
  destruct IH as [IH|[IH1 IH2]]; [left; lia|].
  right. rewrite IH1. split; [done|]. by constructor.
Qed.

Lemma get_app_new {V} k (v : V) m :
  Forall (fun kv => fst kv <> k) m -> JSMap.get k (m ++ [(k, v)]) = Some v.
Proof.
  unfold JSMap.get. induction 1 as [|[k' v'] m Hk _ IH]; simpl.
  - by rewrite bool_decide_eq_true_2.
  - by rewrite bool_decide_eq_false_2.
Qed.

Lemma get_delete_ne {V} k k' (m : list (jsstring * V)) :
  k' <> k -> JSMap.get k (JSMap.delete k' m) = JSMap.get k m.
Proof.
  intros Hne. unfold JSMap.get, JSMap.delete.
  induction m as [|[k0 v0] m IH]; [done|].
  cbn [List.filter List.find fst].
  destruct (bool_decide (k0 = k')) eqn:E1; cbn [negb].
  - apply bool_decide_eq_true in E1. subst k0.
    by rewrite bool_decide_eq_false_2.
  - cbn [List.find fst]. destruct (bool_decide (k0 = k)); [done|]. exact IH.
Qed.

Lemma get_deletes {V} k (ks : list (jsstring * V)) (m : list (jsstring * V)) :
  Forall (fun kv => fst kv <> k) ks ->
  JSMap.get k (fold_left (fun m kv => JSMap.delete (fst kv) m) ks m) = JSMap.get k m.
Proof.
  intros H. revert m. induction H as [|kv ks Hk _ IH]; intros m; [done|].
  simpl. rewrite IH. by apply get_delete_ne.
Qed.

Lemma length_delete {V} k (m : list (jsstring * V)) :
  (length (JSMap.delete k m) <= length m)%nat.
Proof. unfold JSMap.delete. apply List.filter_length_le. Qed.

Lemma length_delete_in {V} (x : jsstring * V) (m : list (jsstring * V)) :
  In x m -> (length (JSMap.delete (fst x) m) < length m)%nat.
Proof.
  unfold JSMap.delete. induction m as [|y m IH]; [done|].
  intros [->|Hin]; cbn [List.filter].
  - rewrite bool_decide_eq_true_2 by done. cbn [negb].
    pose proof (List.filter_length_le (fun kv => negb (bool_decide (fst kv = fst x))) m).
    simpl. lia.
  - specialize (IH Hin). destruct (negb _); simpl; lia.
Qed.

Lemma length_deletes {V} (ks m : list (jsstring * V)) :
  (length (fold_left (fun m kv => JSMap.delete (fst kv) m) ks m) <= length m)%nat.
Proof.
  revert m. induction ks as [|kv ks IH]; intros m; [done|].
  simpl. etransitivity; [apply IH|]. apply length_delete.
Qed.

(** The stable sort keeps the entries, and keeps an entry that is last and
    not older than the others in the last place. *)
Lemma insertByTimestamp_In x y l : In y (insertByTimestamp x l) <-> y = x \/ In y l.
Proof.
  induction l as [|z l IH]; simpl; [intuition|].
  destruct (timestamp (snd x) <=? timestamp (snd z)); simpl; [intuition|].
  rewrite IH. intuition.
Qed.

Lemma sortByTimestamp_In y l : In y (sortByTimestamp l) <-> In y l.
Proof.
  induction l as [|x l IH]; simpl; [done|].
  rewrite insertByTimestamp_In, IH. intuition.
Qed.

Lemma length_insertByTimestamp x l : length (insertByTimestamp x l) = S (length l).
Proof.
  induction l as [|z l IH]; simpl; [done|].
  destruct (timestamp (snd x) <=? timestamp (snd z)); simpl; [done|]. by rewrite IH.
Qed.

Lemma length_sortByTimestamp l : length (sortByTimestamp l) = length l.
Proof.
  induction l as [|x l IH]; simpl; [done|].
  by rewrite length_insertByTimestamp, IH.
Qed.

Lemma insertByTimestamp_snoc x s e :
  timestamp (snd x) <= timestamp (snd e) ->
  insertByTimestamp x (s ++ [e]) = insertByTimestamp x s ++ [e].
Proof.
  intros Hle. induction s as [|y s IH]; simpl.
  - destruct (Z.leb_spec (timestamp (snd x)) (timestamp (snd e))); [done|lia].
  - destruct (timestamp (snd x) <=? timestamp (snd y)); [done|]. by rewrite IH.
Qed.

Lemma sortByTimestamp_snoc l e :
  Forall (fun x => timestamp (snd x) <= timestamp (snd e)) l ->
  sortByTimestamp (l ++ [e]) = sortByTimestamp l ++ [e].
Proof.
  induction 1 as [|x l Hx _ IH]; [done|].
  simpl. fold (sortByTimestamp (l ++ [e])). fold (sortByTimestamp l).
  rewrite IH. by apply insertByTimestamp_snoc.
Qed.

(** The entry just stored survives [pruneCache]. *)
Lemma pruneCache_keeps_new ttl now key e c :
  (length c <= CACHE_LIMIT)%nat ->
  Forall (fun kv => timestamp (snd kv) <= timestamp e) c ->
  now - timestamp e <= ttl ->
  JSMap.get key (pruneCache ttl now (JSMap.set key e c)) = Some e.
Proof.
  intros Hlen Hts Hlive. unfold pruneCache.
  destruct (Nat.leb_spec (length (JSMap.set key e c)) CACHE_LIMIT) as [_|Hbig];
    [apply get_set|].
  destruct (set_cases key e c) as [Heq|[Hset Hnew]]; [lia|].
  rewrite Hset, List.filter_app. cbn [List.filter snd].
  assert (Hkeep : negb (ttl <? now - timestamp e) = true).
  { apply negb_true_iff, Z.ltb_ge. lia. }
  rewrite Hkeep.
  set (f := List.filter (fun kv => negb (ttl <? now - timestamp (snd kv))) c).
  assert (Hfnew : Forall (fun kv => fst kv <> key) f).
  { apply Forall_forall. intros kv Hkv. apply list_elem_of_In, List.filter_In in Hkv as [Hkv _].
    rewrite Forall_forall in Hnew. by apply Hnew, list_elem_of_In. }
  assert (Hfts : Forall (fun x => timestamp (snd x) <= timestamp (snd (key, e))) f).
  { apply Forall_forall. intros kv Hkv. apply list_elem_of_In, List.filter_In in Hkv as [Hkv _].
    rewrite Forall_forall in Hts. by apply Hts, list_elem_of_In. }
  destruct (CACHE_LIMIT <? length (f ++ [(key, e)]))%nat eqn:Hstill;
    [|by apply get_app_new].
  apply Nat.ltb_lt in Hstill. rewrite length_app in Hstill. cbn [length] in Hstill.
  unfold CACHE_LIMIT in Hstill.
  rewrite get_deletes; [by apply get_app_new|].
  rewrite (sortByTimestamp_snoc f (key, e) Hfts).
  rewrite length_app, length_sortByTimestamp. cbn [length].
  rewrite take_app_le.
  2:{ rewrite length_sortByTimestamp.
      assert ((length f + 1 + 1) / 2 <= length f)%nat; [|done].
      apply Nat.Div0.div_le_upper_bound. lia. }
  apply Forall_forall. intros kv Hkv.
  apply subseteq_take in Hkv.
  apply list_elem_of_In in Hkv.
  apply (proj1 (sortByTimestamp_In _ _)) in Hkv.
  apply list_elem_of_In in Hkv.
  rewrite Forall_forall in Hfnew. by apply Hfnew.
Qed.

(** [pruneCache] brings a cache of at most 501 entries down to at most 500. *)
Lemma pruneCache_bound ttl now c :
  (length c <= S CACHE_LIMIT)%nat -> (length (pruneCache ttl now c) <= CACHE_LIMIT)%nat.
Proof.
  intros Hlen. unfold pruneCache.
  destruct (Nat.leb_spec (length c) CACHE_LIMIT) as [H|H]; [done|].
  set (f := List.filter _ c).
  assert (Hf : (length f <= length c)%nat) by apply List.filter_length_le.
  destruct (Nat.ltb_spec CACHE_LIMIT (length f)) as [Hstill|Hok]; [|done].
  pose proof (length_sortByTimestamp f) as Hs.
  destruct (sortByTimestamp f) as [|x entries] eqn:Es.
  { simpl in Hs. unfold CACHE_LIMIT in *. lia. }
  assert (Hx : In x f). { apply sortByTimestamp_In. rewrite Es. by left. }
  replace ((length (x :: entries) + 1) / 2)%nat
    with (S ((length (x :: entries) - 1) / 2))%nat.
  2:{ simpl length. replace (S (length entries) + 1)%nat
        with (length entries + 1 * 2)%nat by lia.
      rewrite Nat.div_add by lia.
      replace (S (length entries) - 1)%nat with (length entries) by lia. lia. }
  cbn [take fold_left].
  pose proof (length_deletes (take ((length (x :: entries) - 1) / 2) entries)
                (JSMap.delete (fst x) f)).
  pose proof (length_delete_in x f Hx). unfold CACHE_LIMIT in *. lia.
Qed.

Section WithHost.

Variable toUpperCase : jsstring -> jsstring.

Abbreviation classify := (classify toUpperCase).

(** What a call that misses the cache returns. *)
Lemma classify_miss self prompt systemPrompt fetchReply tCheck tSet tPrune :
  let key := hashPrompt (slice0 (promptTruncationChars (cl_config self)) prompt) in
  (forall e, JSMap.get key (cache self) = Some e ->
     cacheTtlMs (cl_config self) <= tCheck - timestamp e) ->
  let run := classify self prompt systemPrompt fetchReply tCheck tSet tPrune in
  (fst run = None /\ snd run = self)
  \/ (exists t,
        fst run = Some {| ai_tier := t; ai_confidence := 0.85 |}
        /\ snd run
           = setCache
               (pruneCache (cacheTtlMs (cl_config self)) tPrune
                  (JSMap.set key {| result := {| ai_tier := t; ai_confidence := 0.85 |};
                                    timestamp := tSet |} (cache self)))
               self).
Proof.
  intros key Hmiss run. unfold run, Classifier.classify. fold key.
  assert (Hbody :
    forall x : option AiClassifierResult * AiClassifier,
      x = match fetchReply
                  (classifierPrompt
                     (slice0 (promptTruncationChars (cl_config self)) prompt) systemPrompt)
          with
          | None => (None, self)
          | Some raw =>
              match toUpperCase (trim raw) with
              | [] => (None, self)
              | _ :: _ =>
                  match parseTier (toUpperCase (trim raw)) with
                  | None => (None, self)
                  | Some tier =>
                      (Some {| ai_tier := tier; ai_confidence := 0.85 |},
                       setCache
                         (pruneCache (cacheTtlMs (cl_config self)) tPrune
                            (JSMap.set key
                               {| result := {| ai_tier := tier; ai_confidence := 0.85 |};
                                  timestamp := tSet |} (cache self)))
                         self)
                  end
              end
          end ->
      (fst x = None /\ snd x = self)
      \/ (exists t,
            fst x = Some {| ai_tier := t; ai_confidence := 0.85 |}
            /\ snd x
               = setCache
                   (pruneCache (cacheTtlMs (cl_config self)) tPrune
                      (JSMap.set key
                         {| result := {| ai_tier := t; ai_confidence := 0.85 |};
                            timestamp := tSet |} (cache self)))
                   self)).
  { intros x ->. destruct (fetchReply _) as [raw|]; [|by left].
    destruct (toUpperCase (trim raw)) as [|c content]; [by left|].
    destruct (parseTier (c :: content)) as [t|]; [|by left].
    right. by exists t. }
  destruct (JSMap.get key (cache self)) as [cached|] eqn:Hget.
  - specialize (Hmiss cached eq_refl).
    destruct (Z.ltb_spec (tCheck - timestamp cached) (cacheTtlMs (cl_config self)));
      [lia|].
    by apply Hbody.
  - by apply Hbody.
Qed.

(** X24.  A classification is remembered.  After a call that missed the cache
    and got a tier from the model, every call made within the TTL for a
    prompt with the same cache key (the same prompt, a prompt with the
    same first [promptTruncationChars] code units, or one whose hash
    collides) returns the same result without consulting the model, and
    leaves the classifier as it is.  The clock is assumed not to run
    backwards and the cache to hold at most 500 entries. *)
Theorem classify_cache_hit
    self prompt systemPrompt fetchReply tCheck tSet tPrune r self'
    prompt2 systemPrompt2 fetchReply2 tCheck2 tSet2 tPrune2 :
  let n := promptTruncationChars (cl_config self) in
  let ttl := cacheTtlMs (cl_config self) in
  (length (cache self) <= CACHE_LIMIT)%nat ->
  Forall (fun kv => timestamp (snd kv) <= tSet) (cache self) ->
  (forall e, JSMap.get (hashPrompt (slice0 n prompt)) (cache self) = Some e ->
     ttl <= tCheck - timestamp e) ->
  classify self prompt systemPrompt fetchReply tCheck tSet tPrune = (Some r, self') ->
  tPrune - tSet <= ttl ->
  tCheck2 - tSet < ttl ->
  hashPrompt (slice0 n prompt2) = hashPrompt (slice0 n prompt) ->
  classify self' prompt2 systemPrompt2 fetchReply2 tCheck2 tSet2 tPrune2 = (Some r, self')
  /\ ai_confidence r = 0.85%R.
Proof.
  intros n ttl Hlen Hts Hmiss Hrun Hprune Hlive Hkey.
  destruct (classify_miss self prompt systemPrompt fetchReply tCheck tSet tPrune Hmiss)
    as [[Hn _]|(t & Hr & Hs)]; rewrite Hrun in *; cbn [fst snd] in *; [done|].
  injection Hr as ->. subst self'. split; [|done].
  unfold Classifier.classify. cbn [cl_config cache setCache].
  fold n. rewrite Hkey.
  rewrite (pruneCache_keeps_new _ tPrune _ _ (cache self) Hlen); [| done | done].
  cbn [timestamp result]. fold ttl.
  destruct (Z.ltb_spec (tCheck2 - tSet) ttl); [done|lia].
Qed.

(** X25.  The cache stays small: a classifier whose cache holds at most 500
    entries holds at most 500 entries after any call of [classify]; and a
    call that returns nothing leaves the classifier as it was. *)
Theorem classify_cache_bounded
    self prompt systemPrompt fetchReply tCheck tSet tPrune :
  (length (cache self) <= CACHE_LIMIT)%nat ->
  let run := classify self prompt systemPrompt fetchReply tCheck tSet tPrune in
  (length (cache (snd run)) <= CACHE_LIMIT)%nat
  /\ (fst run = None -> snd run = self)
  /\ cl_config (snd run) = cl_config self.
Proof.
  intros Hlen run. unfold run, Classifier.classify.
  set (key := hashPrompt _).
  assert (Hstore : forall t,
            (length (pruneCache (cacheTtlMs (cl_config self)) tPrune
                       (JSMap.set key
                          {| result := {| ai_tier := t; ai_confidence := 0.85 |};
                             timestamp := tSet |} (cache self))) <= CACHE_LIMIT)%nat).
  { intros t. apply pruneCache_bound.
    etransitivity; [apply length_set|]. lia. }
  destruct (JSMap.get key (cache self)) as [cached|];
    [destruct (_ <? _); [done|]|];
    (destruct (fetchReply _) as [raw|]; [|done]);
    (destruct (toUpperCase (trim raw)) as [|c content]; [done|]);
    (destruct (parseTier (c :: content)) as [t|]; [|done]);
    cbn [fst snd cache setCache cl_config]; (split; [apply Hstore|done]).
Qed.

End WithHost.

(** *** Sample runs *)

Lemma classify_cache_hit_witness :
  let r := {| ai_tier := COMPLEX; ai_confidence := 0.85 |} in
  let first := Classifier.classify toUpperCaseAscii sampleClassifier (lit "Aa") None
                 sampleFetch 1000 1001 1002 in
  first = (Some r, snd first)
  /\ Classifier.classify toUpperCaseAscii (snd first) (lit "BB") None (fun _ => None)
       2000 2001 2002 = (Some r, snd first).
Proof.
  intros r first.
  assert (Hfirst : first = (Some r, snd first)).
  { apply injective_projections; [vm_compute; reflexivity|reflexivity]. }
  split; [exact Hfirst|].
  apply (classify_cache_hit toUpperCaseAscii sampleClassifier (lit "Aa") None sampleFetch
           1000 1001 1002 r (snd first) (lit "BB") None (fun _ => None) 2000 2001 2002).
  - simpl. unfold CACHE_LIMIT. lia.
  - constructor.
  - intros e He. vm_compute in He. discriminate He.
  - exact Hfirst.
  - simpl. lia.
  - simpl. lia.
  - vm_compute. reflexivity.
Defined.

Lemma classify_cache_bounded_witness :
  let run := Classifier.classify toUpperCaseAscii sampleClassifier (lit "hola") None
               sampleFetch 1000 1001 1002 in
  (length (cache (snd run)) <= CACHE_LIMIT)%nat.
Proof.
  intros run.
  apply (classify_cache_bounded toUpperCaseAscii sampleClassifier (lit "hola") None
           sampleFetch 1000 1001 1002).
  simpl. unfold CACHE_LIMIT. lia.
Defined.

End ClassifierMore.

(** ** The deduplicator: further properties *)

Module DedupMore.
Import JS Dedup DedupSpec DedupMoreSpec DedupFacts.

Local Open Scope Z_scope.

Lemma getCached_inflight key now st :
  inflight (snd (getCached key now st)) = inflight st
  /\ heap (snd (getCached key now st)) = heap st
  /\ ttlMs (snd (getCached key now st)) = ttlMs st.
Proof.
  unfold getCached. destruct (completed st !! key) as [e|]; [|done].
  destruct (expired now (ttlMs st) e); done.
Qed.

Lemma runOp_ttlMs op st : ttlMs (runOp op st) = ttlMs st.
Proof.
  destruct op as [k now|k|k|k result now|k]; cbn [runOp]; try done.
  - by destruct (getCached_inflight k now st) as (_ & _ & H).
  - unfold getInflight. by destruct (inflight st !! k).
  - apply complete_ttlMs.
Qed.

Lemma quiet_step key now r op st :
  quiet key now op ->
  now - completedAt r <= ttlMs st ->
  completed st !! key = Some r ->
  completed (runOp op st) !! key = Some r.
Proof.
  intros Hq Hlive Hk.
  destruct op as [k t|k|k|k result t|k]; cbn [runOp quiet] in *; try done.
  - unfold getCached. destruct (completed st !! k) as [e|] eqn:Ek; [|done].
    destruct (expired t (ttlMs st) e) eqn:He; [|done].
    simpl. rewrite lookup_delete_ne; [done|].
    intros ->. rewrite Hk in Ek. injection Ek as <-.
    unfold expired in He. apply Z.ltb_lt in He. lia.
  - unfold getInflight. by destruct (inflight st !! k).
  - destruct Hq as [Hne Ht]. rewrite complete_completed.
    apply map_lookup_filter_Some. split.
    + destruct (_ <=? _); [by rewrite lookup_insert_ne|done].
    + simpl. unfold expired. apply Z.ltb_ge. lia.
Qed.

(** X1.  A completed response stays retrievable until its TTL has passed.
    Once an entry is in the completed map, [getCached] at any time within
    the TTL of the entry returns it, whatever operations were run in
    between (reads, joins, marks, removals, completions of other keys,
    each with its pruning), provided none of them completed the same key
    again and none read a clock later than the time of the final read. *)
Theorem completed_entry_survives st key r ops now :
  completed st !! key = Some r ->
  Forall (quiet key now) ops ->
  now - completedAt r <= ttlMs st ->
  getCached key now (runOps ops st) = (Some r, runOps ops st).
Proof.
  intros Hk Hops Hlive.
  assert (H : completed (runOps ops st) !! key = Some r
              /\ ttlMs (runOps ops st) = ttlMs st).
  { revert st Hk Hlive. induction Hops as [|op ops Hq _ IH]; intros st Hk Hlive; [done|].
    cbn [runOps fold_left]. fold (runOps ops (runOp op st)).
    destruct (IH (runOp op st)) as [H1 H2].
    - by apply (quiet_step key now).
    - by rewrite runOp_ttlMs.
    - split; [done|]. by rewrite H2, runOp_ttlMs. }
  destruct H as [Hc Ht]. unfold getCached. rewrite Hc.
  unfold expired. rewrite Ht.
  destruct (Z.ltb_spec (ttlMs st) (now - completedAt r)); [lia|done].
Qed.

(** X2.  Every response held in the completed map of a deduplicator has a body
    of at most [MAX_BODY_SIZE] bytes, whatever operations were run. *)
Theorem completed_bodies_bounded st key r :
  reachable st ->
  completed st !! key = Some r ->
  Z.of_nat (length (body r)) <= MAX_BODY_SIZE.
Proof.
  intros Hreach. revert key r.
  induction Hreach as [ttl|op st _ IH]; intros key r Hk.
  - simpl in Hk. by rewrite lookup_empty in Hk.
  - destruct op as [k now|k|k|k result now|k]; cbn [runOp] in Hk.
    + unfold getCached in Hk. destruct (completed st !! k) as [e|] eqn:Ek; [|eauto].
      destruct (expired now (ttlMs st) e); [|eauto].
      simpl in Hk. apply lookup_delete_Some in Hk as [_ Hk]. eauto.
    + unfold getInflight in Hk. destruct (inflight st !! k); simpl in Hk; eauto.
    + eauto.
    + rewrite complete_completed in Hk. unfold unexpired in Hk.
      apply map_lookup_filter_Some in Hk as [Hk _].
      destruct (Z.of_nat (length (body result)) <=? MAX_BODY_SIZE) eqn:Hsz; [|eauto].
      apply lookup_insert_Some in Hk as [[_ <-]|[_ Hk]]; [|eauto].
      by apply Z.leb_le.
    + eauto.
Qed.

Lemma orphaned_step p op st : orphaned p st -> orphaned p (runOp op st).
Proof.
  intros (Hwf & Hlt & Hpend & Hun).
  assert (Hwf' : wellFormed (runOp op st)).
  { destruct op; simpl;
      [by apply wellFormed_getCached | by apply wellFormed_getInflight
      | by apply wellFormed_markInflight | by apply wellFormed_complete
      | by apply wellFormed_removeInflight]. }
  split; [exact Hwf'|]. clear Hwf'.
  destruct op as [k now|k|k|k result now|k]; cbn [runOp].
  - destruct (getCached_inflight k now st) as (Hi & Hh & _).
    unfold unreferenced. rewrite Hi, Hh. done.
  - unfold getInflight. destruct (inflight st !! k) as [entry|] eqn:Hk; [|done].
    simpl. split; [lia|]. split; [done|].
    intros k' e Hke. simpl in Hke.
    apply lookup_insert_Some in Hke as [[_ <-]|[_ Hke]]; [|eauto].
    simpl. apply not_elem_of_app. split; [eauto|].
    apply not_elem_of_cons. split; [lia|].
    apply not_elem_of_cons. split; [lia|]. apply not_elem_of_nil.
  - split; [done|]. split; [done|].
    intros k' e Hke. simpl in Hke.
    apply lookup_insert_Some in Hke as [[_ <-]|[_ Hke]]; [|eauto].
    apply not_elem_of_nil.
  - unfold unreferenced. rewrite complete_inflight, complete_heap.
    destruct (inflight st !! k) as [entry|] eqn:Hk.
    + destruct Hwf as (_ & He & _). destruct (He _ _ Hk) as [Hnd Hall].
      destruct (callResolver_spec (resolve entry) result (heap st) Hnd)
        as (Hn & _ & _ & Hout); [intros q Hq; by apply Hall|].
      rewrite Hn, Hout by eauto.
      split; [done|]. split; [done|].
      intros k' e Hke. apply lookup_delete_Some in Hke as [_ Hke]. eauto.
    + split; [done|]. split; [done|].
      intros k' e Hke. apply lookup_delete_Some in Hke as [_ Hke]. eauto.
  - split; [done|]. split; [done|].
    intros k' e Hke. simpl in Hke. apply lookup_delete_Some in Hke as [_ Hke]. eauto.
Qed.

Lemma orphaned_steps p ops st : orphaned p st -> orphaned p (runOps ops st).
Proof.
  revert st. induction ops as [|op ops IH]; intros st H; [done|].
  simpl. apply IH. by apply orphaned_step.
Qed.

(** The promise [getInflight] hands out in a reachable state. *)
Lemma getInflight_promise key st p st1 :
  reachable st ->
  getInflight key st = (Some p, st1) ->
  wellFormed st1
  /\ p = nextPromise (heap st)
  /\ (p < nextPromise (heap st1))%nat
  /\ settled (heap st1) !! p = None
  /\ settled (heap st) !! p = None
  /\ unreferenced p st
  /\ inflight (removeInflight key st1) = delete key (inflight st)
  /\ inflight (markInflight key st1)
     = <[key := {| resolve := RNoop; waiters := [] |}]> (inflight st).
Proof.
  intros Hreach Hg.
  pose proof (reachable_wellFormed st Hreach) as Hwf.
  pose proof (wellFormed_getInflight key st Hwf) as Hwf1.
  rewrite Hg in Hwf1. simpl in Hwf1.
  destruct Hwf as (Hh & He & Hd).
  unfold getInflight in Hg.
  destruct (inflight st !! key) as [entry|] eqn:Hk; [|done].
  simpl in Hg. injection Hg as <- <-.
  assert (Hfresh : settled (heap st) !! nextPromise (heap st) = None).
  { destruct (settled (heap st) !! nextPromise (heap st)) eqn:E; [|done].
    assert (nextPromise (heap st) < nextPromise (heap st))%nat by (apply Hh; eauto). lia. }
  split; [exact Hwf1|]. split; [done|]. split; [simpl; lia|].
  split; [done|]. split; [done|]. split.
  { intros k e Hke Hin. destruct (He _ _ Hke) as [_ Hall].
    destruct (Hall _ Hin) as [Hlt _]. lia. }
  split; simpl.
  - by rewrite delete_insert_eq.
  - by rewrite insert_insert_eq.
Qed.

(** X3.  A joiner whose leader fails is never answered.  When [getInflight] has
    handed promise [p] to a joiner and the in-flight entry is then dropped
    by [removeInflight] (the leader's upstream call threw, or its client
    went away) or replaced by [markInflight], no later sequence of
    operations settles [p]: not even a later successful [complete] of the
    same key. *)
Theorem orphaned_joiner_never_released st key p st1 ops :
  reachable st ->
  getInflight key st = (Some p, st1) ->
  settled (heap (runOps ops (removeInflight key st1))) !! p = None
  /\ settled (heap (runOps ops (markInflight key st1))) !! p = None.
Proof.
  intros Hreach Hg.
  destruct (getInflight_promise key st p st1 Hreach Hg)
    as (Hwf1 & _ & Hlt & Hpend & _ & Hun & Hrm & Hmk).
  split.
  - apply (orphaned_steps p ops). split; [by apply wellFormed_removeInflight|].
    split; [done|]. split; [done|].
    intros k e Hke. rewrite Hrm in Hke.
    apply lookup_delete_Some in Hke as [_ Hke]. eauto.
  - apply (orphaned_steps p ops). split; [by apply wellFormed_markInflight|].
    split; [done|]. split; [done|].
    intros k e Hke. rewrite Hmk in Hke.
    apply lookup_insert_Some in Hke as [[_ <-]|[_ Hke]]; [apply not_elem_of_nil|eauto].
Qed.

(** X4.  The promise [getInflight] returns is new: it is pending before and
    after the call, no closure registered earlier settles it, and after
    the call the entry of the key, and only that entry, settles it. *)
Theorem getInflight_promise_is_fresh st key p st1 :
  reachable st ->
  getInflight key st = (Some p, st1) ->
  settled (heap st) !! p = None
  /\ settled (heap st1) !! p = None
  /\ unreferenced p st
  /\ (forall k e, inflight st1 !! k = Some e ->
        p ∈ resolverTargets (resolve e) <-> k = key)
  /\ completed st1 = completed st.
Proof.
  intros Hreach Hg.
  destruct (getInflight_promise key st p st1 Hreach Hg)
    as (Hwf1 & Hp & Hlt & Hpend1 & Hpend & Hun & _ & _).
  split; [done|]. split; [done|]. split; [done|].
  unfold getInflight in Hg.
  destruct (inflight st !! key) as [entry|] eqn:Hk; [|done].
  simpl in Hg. injection Hg as <- <-. simpl. split; [|done].
  intros k e Hke. apply lookup_insert_Some in Hke as [[<- <-]|[Hne Hke]].
  - simpl. split; [done|]. intros _. apply elem_of_app. right. left.
  - split; [|done]. intros Hin. exfalso. by apply (Hun _ _ Hke).
Qed.

(** X5.  [complete] releases the joiners of its own key only: the in-flight
    entry of any other key is kept as it is and every promise it will
    settle is still pending. *)
Theorem complete_leaves_other_keys st key result now k2 e2 :
  reachable st ->
  k2 <> key ->
  inflight st !! k2 = Some e2 ->
  let st' := complete key result now st in
  inflight st' !! k2 = Some e2
  /\ (forall p, p ∈ resolverTargets (resolve e2) -> settled (heap st') !! p = None)
  /\ nextPromise (heap st') = nextPromise (heap st).
Proof.
  intros Hreach Hne Hk2 st'.
  destruct (reachable_wellFormed st Hreach) as (Hh & He & Hd).
  unfold st'. rewrite complete_inflight, complete_heap.
  split; [by rewrite lookup_delete_ne|].
  destruct (He _ _ Hk2) as [_ Hall2].
  destruct (inflight st !! key) as [entry|] eqn:Hk.
  - destruct (He _ _ Hk) as [Hnd Hall].
    destruct (callResolver_spec (resolve entry) result (heap st) Hnd)
      as (Hn & _ & _ & Hout); [intros q Hq; by apply Hall|].
    split; [|done]. intros p Hp. rewrite Hout; [by apply Hall2|].
    by apply (Hd k2 key e2 entry).
  - split; [|done]. intros p Hp. by apply Hall2.
Qed.

(** *** Sample runs *)

Lemma completed_entry_survives_witness :
  let key := lit "k" in
  let other := lit "o" in
  let r := {| status := 200; headers := []; body := [x68; x69]; completedAt := 1000 |} in
  let st := complete key r 1001 (markInflight key (create 30000)) in
  let ops := [OpGetCached key 2000; OpMarkInflight key; OpGetInflight key;
              OpRemoveInflight key; OpMarkInflight other; OpComplete other r 31000] in
  getCached key 31000 (runOps ops st) = (Some r, runOps ops st).
Proof.
  intros key other r st ops.
  apply (completed_entry_survives st key r ops 31000).
  - vm_compute. reflexivity.
  - unfold ops. repeat constructor; (discriminate || (simpl; lia)).
  - unfold st. rewrite complete_ttlMs. simpl. lia.
Defined.

Lemma completed_bodies_bounded_witness :
  let key := lit "k" in
  let r := {| status := 200; headers := []; body := [x68; x69]; completedAt := 1000 |} in
  let st := runOp (OpComplete key r 1001) (runOp (OpMarkInflight key) (create 30000)) in
  completed st !! key = Some r /\ Z.of_nat (length (body r)) <= MAX_BODY_SIZE.
Proof.
  intros key r st.
  assert (Hk : completed st !! key = Some r) by (vm_compute; reflexivity).
  split; [exact Hk|].
  apply (completed_bodies_bounded st key r); [|exact Hk].
  unfold st. repeat apply reachable_step. apply reachable_create.
Defined.

Lemma orphaned_joiner_never_released_witness :
  let key := lit "k" in
  let r := {| status := 200; headers := []; body := [x68; x69]; completedAt := 1000 |} in
  let st := markInflight key (create 30000) in
  let st1 := snd (getInflight key st) in
  let ops := [OpMarkInflight key; OpGetInflight key; OpComplete key r 1001] in
  settled (heap (runOps ops (removeInflight key st1))) !! 0%nat = None
  /\ settled (heap (runOps ops (markInflight key st1))) !! 0%nat = None.
Proof.
  intros key r st st1 ops.
  apply (orphaned_joiner_never_released st key 0 st1 ops).
  - apply (reachable_step (OpMarkInflight key)), reachable_create.
  - vm_compute. reflexivity.
Defined.

Lemma getInflight_promise_is_fresh_witness :
  let key := lit "k" in
  let st := markInflight key (create 30000) in
  let st1 := snd (getInflight key st) in
  settled (heap st) !! 0%nat = None
  /\ settled (heap st1) !! 0%nat = None
  /\ (exists e, inflight st1 !! key = Some e /\ 0%nat ∈ resolverTargets (resolve e)).
Proof.
  intros key st st1.
  destruct (getInflight_promise_is_fresh st key 0 st1) as (H1 & H2 & _ & H4 & _).
  - apply (reachable_step (OpMarkInflight key)), reachable_create.
  - vm_compute. reflexivity.
  - split; [exact H1|]. split; [exact H2|].
    assert (He : is_Some (inflight st1 !! key)) by (vm_compute; eauto).
    destruct He as [e He]. exists e. split; [exact He|]. by apply (H4 key e He).
Defined.

Lemma complete_leaves_other_keys_witness :
  let a := lit "a" in
  let b := lit "b" in
  let r := {| status := 200; headers := []; body := [x68; x69]; completedAt := 1000 |} in
  let st := runOp (OpGetInflight b)
              (runOp (OpMarkInflight b) (runOp (OpMarkInflight a) (create 30000))) in
  let e2 := {| resolve := RJoin RNoop 0 1; waiters := [1%nat] |} in
  inflight (complete a r 1001 st) !! b = Some e2
  /\ settled (heap (complete a r 1001 st)) !! 0%nat = None.
Proof.
  intros a b r st e2.
  destruct (complete_leaves_other_keys st a r 1001 b e2) as (H1 & H2 & _).
  - unfold st. repeat apply reachable_step. apply reachable_create.
  - discriminate.
  - vm_compute. reflexivity.
  - split; [exact H1|]. apply H2. vm_compute. left.
Defined.

End DedupMore.

(** ** The tier directive: further properties *)

Module DirectiveMore.
Import JS Regex RegexSpec RegexFacts Router Directive DirectiveSpec DirectiveFacts.
Import DirectiveMoreSpec.

(** X10.  [lastUserIndex] finds the last message of role [user]: the message at
    the index it returns is a user message and no later message is; it
    returns nothing exactly when no message is a user message. *)
Theorem lastUserIndex_spec messages :
  match lastUserIndex messages with
  | Some i =>
      (exists m, messages !! i = Some m /\ role m = lit "user")
      /\ (forall j m, (i < j)%nat -> messages !! j = Some m -> role m <> lit "user")
  | None => Forall (fun m => role m <> lit "user") messages
  end.
Proof.
  induction messages as [|m ms IH]; [constructor|].
  simpl. destruct (lastUserIndex ms) as [i|].
  - destruct IH as [(m' & Hm' & Hr) Hlater]. split; [by exists m'|].
    intros j mj Hj Hmj. destruct j as [|j]; [lia|].
    apply (Hlater j mj); [lia|done].
  - case_bool_decide as Hu.
    + split; [by exists m|].
      intros j mj Hj Hmj. destruct j as [|j]; [lia|]. simpl in Hmj.
      rewrite Forall_forall in IH. apply IH. by apply (list_elem_of_lookup_2 ms j).
    + by constructor.
Qed.

Lemma extractAndStrip_none m :
  noDirective (content m) -> extractAndStripForcedTier (Some m) = (None, Some m).
Proof.
  destruct m as [r c]. unfold noDirective, extractAndStripForcedTier. simpl.
  destruct c as [|s|ps|]; try done.
  - by intros ->.
  - intros H. by rewrite (stripParts_none None ps H).
Qed.

(** X11.  A request whose last user message holds no tier directive goes to the
    router as it came: the message array is unchanged, no tier is forced
    and the prompt is the text of the last user message (the empty string
    when there is no user message). *)
Theorem prepareRouting_without_directive messages hasResponseFormat :
  (forall i m, lastUserIndex messages = Some i -> messages !! i = Some m ->
     noDirective (content m)) ->
  let result := prepareRouting messages hasResponseFormat in
  fst (fst (fst result)) = messages
  /\ forcedTier (snd result) = None
  /\ structuredOutputRequired (snd result) = hasResponseFormat
  /\ snd (fst (fst result))
     = match lastUserIndex messages ≫= (fun i => messages !! i) with
       | Some m => extractText (content m)
       | None => []
       end.
Proof.
  intros H. unfold prepareRouting.
  destruct (lastUserIndex messages) as [i|] eqn:Hi; simpl.
  - destruct (messages !! i) as [m|] eqn:Hm.
    + rewrite (extractAndStrip_none m (H i m eq_refl Hm)). simpl.
      rewrite (list_insert_id _ _ _ Hm). done.
    + done.
  - done.
Qed.

Lemma stripPart_map ft p :
  stripPart ft p
  = (match ft with
     | Some t => Some t
     | None => partTier p
     end, strippedPart p).
Proof.
  unfold stripPart, strippedPart, partTier.
  destruct (p_text p) as [text|]; destruct (bool_decide (p_type p = lit "text"));
    cbn [mbind option_bind]; try (by destruct ft).
  destruct (parseForcedTier text); by destruct ft.
Qed.

Lemma stripParts_map ft ps :
  stripParts ft ps
  = (match ft with
     | Some t => Some t
     | None => head (omap partTier ps)
     end, List.map strippedPart ps).
Proof.
  revert ft. induction ps as [|p ps IH]; intros ft; [by destruct ft|].
  cbn [stripParts List.map]. rewrite stripPart_map, IH.
  destruct ft as [t|]; [done|]. simpl. by destruct (partTier p).
Qed.

(** X12.  A message whose content is an array of parts: the forced tier is the
    one named by the first text part that holds a directive, and every
    text part that holds a directive is forwarded with its directives
    removed, also those after the first, whose tier is ignored; the other
    parts are forwarded as they are. *)
Theorem extractAndStrip_parts r ps :
  extractAndStripForcedTier (Some {| role := r; content := CParts ps |})
  = (head (omap partTier ps),
     Some {| role := r; content := CParts (List.map strippedPart ps) |}).
Proof. unfold extractAndStripForcedTier. cbn [content role]. by rewrite stripParts_map. Qed.

(** *** The text left after the directive is removed *)

Lemma star_blank_head fuel s prev :
  length s <= fuel ->
  exists bs rest pv,
    s = bs ++ rest
    /\ Forall (fun c => isBlank c = true) bs
    /\ isBlankOpt (head rest) = false
    /\ head (star_iter (rmatch (Chr isBlank)) fuel prev s) = Some (pv, rest).
Proof.
  revert s prev. induction fuel as [|fuel IH]; intros s prev Hlen.
  - destruct s; [|simpl in Hlen; lia]. by exists [], [], prev.
  - rewrite star_iter_S. destruct s as [|c s'].
    + by exists [], [], prev.
    + cbn [rmatch]. destruct (isBlank c) eqn:Hc.
      * cbn [List.flat_map fst snd]. rewrite app_nil_r.
        assert (Hlt : (length s' <? length (c :: s')) = true)
          by (apply Nat.ltb_lt; simpl; lia).
        rewrite Hlt.
        destruct (IH s' (Some c)) as (bs & rest & pv & -> & Hbs & Hrest & Hhead);
          [simpl in Hlen; lia|].
        exists (c :: bs), rest, pv. split; [done|]. split; [by constructor|].
        split; [done|].
        destruct (star_iter _ _ _ _) as [|x l]; [done|]. done.
      * exists [], (c :: s'), prev. simpl. by rewrite Hc.
Qed.

Lemma matchHere_blankRun prev s :
  match matchHere blankRun prev s with
  | Some rest =>
      exists c bs, s = c :: bs ++ rest
                   /\ bs <> []
                   /\ isBlank c = true
                   /\ isBlankOpt (head rest) = false
  | None =>
      match s with
      | c1 :: c2 :: _ => isBlank c1 && isBlank c2 = false
      | _ => True
      end
  end.
Proof.
  unfold matchHere, blankRun, AtLeast2. rewrite rmatch_Seq_Chr.
  destruct s as [|c1 s1]; [done|].
  destruct (isBlank c1) eqn:H1; [|by destruct s1].
  rewrite rmatch_Seq_Chr. destruct s1 as [|c2 s2]; [done|].
  destruct (isBlank c2) eqn:H2; [|done].
  rewrite rmatch_Star.
  destruct (star_blank_head (length s2) s2 (Some c2)) as (bs & rest & pv & -> & _ & Hr & Hh);
    [done|].
  rewrite Hh. simpl. exists c1, (c2 :: bs). done.
Qed.

Lemma replace_blankRun_spec n :
  forall s prev, length s <= n ->
    let out := replaceFrom blankRun (lit " ") 0 prev s in
    adjacentBlanks out = false
    /\ (isBlankOpt (head s) = false -> isBlankOpt (head out) = false).
Proof.
  induction n as [|n IH]; intros s prev Hlen out.
  - destruct s; [|simpl in Hlen; lia]. unfold out. simpl.
    pose proof (matchHere_blankRun prev []) as H.
    by destruct (matchHere blankRun prev []).
  - destruct s as [|c s']; [apply (IH [] prev); simpl; lia|].
    unfold out. cbn [replaceFrom].
    pose proof (matchHere_blankRun prev (c :: s')) as H.
    destruct (matchHere blankRun prev (c :: s')) as [rest|].
    + destruct H as (c' & bs & Heq & Hne & Hc & Hrest).
      injection Heq as <- ->.
      rewrite length_cons, length_app.
      replace (S (length bs + length rest) - length rest) with (S (length bs)) by lia.
      destruct bs as [|b bs]; [done|].
      rewrite replace_skip.
      destruct (IH rest (lastOr (Some c) (b :: bs))) as [Hadj Hhead].
      { simpl in Hlen. rewrite length_app in Hlen. simpl in Hlen. lia. }
      specialize (Hhead Hrest).
      split.
      * change (lit " " ++ ?x) with (32%N :: x). cbn [adjacentBlanks].
        rewrite Hadj.
        destruct (replaceFrom blankRun (lit " ") 0 _ rest) as [|o out']; [done|].
        simpl in Hhead. rewrite Hhead. by rewrite andb_false_r.
      * simpl. by rewrite Hc.
    + destruct (IH s' (Some c)) as [Hadj Hhead]; [simpl in Hlen; lia|].
      split; [|done].
      cbn [adjacentBlanks]. rewrite Hadj.
      destruct (replaceFrom blankRun (lit " ") 0 (Some c) s') as [|o out'] eqn:Eo;
        [done|].
      rewrite orb_false_r.
      destruct (isBlank c) eqn:Hc; [|done].
      destruct s' as [|c2 s2]; [by simpl in Eo|].
      simpl in H, Hhead. simpl. exact (Hhead H).
Qed.

Lemma adjacentBlanks_app x y :
  adjacentBlanks (x ++ y) = false -> adjacentBlanks x = false /\ adjacentBlanks y = false.
Proof.
  induction x as [|c x IH]; [done|].
  cbn [app adjacentBlanks]. intros H.
  apply orb_false_iff in H as [H1 H2]. destruct (IH H2) as [Hx Hy].
  split; [|done]. rewrite Hx, orb_false_r.
  destruct x as [|c2 x]; [done|]. done.
Qed.

Lemma trimStart_suffix s : exists ws, s = ws ++ trimStart s.
Proof.
  induction s as [|c s [ws IH]]; [by exists []|].
  simpl. destruct (isSpace c); [|by exists []].
  exists (c :: ws). simpl. by f_equal.
Qed.

Lemma trimStart_head s : isSpaceOpt (head (trimStart s)) = false.
Proof.
  induction s as [|c s IH]; [done|].
  simpl. destruct (isSpace c) eqn:Hc; [done|]. simpl. done.
Qed.

Lemma trimEnd_prefix s : exists ws, s = trimEnd s ++ ws.
Proof.
  unfold trimEnd. destruct (trimStart_suffix (rev s)) as [ws H].
  exists (rev ws). rewrite <- rev_app_distr, <- H. by rewrite rev_involutive.
Qed.

Lemma last_rev_head {A} (l : list A) : last (rev l) = head l.
Proof. destruct l as [|a l]; [done|]. simpl. by rewrite last_snoc. Qed.

Lemma trim_ends s :
  isSpaceOpt (head (trim s)) = false /\ isSpaceOpt (last (trim s)) = false.
Proof.
  unfold trim. split.
  - destruct (trimEnd_prefix (trimStart s)) as [ws H].
    pose proof (trimStart_head s) as Hh. rewrite H in Hh.
    by destruct (trimEnd (trimStart s)).
  - unfold trimEnd. rewrite last_rev_head. apply trimStart_head.
Qed.

(** X13.  The text [stripForcedTierDirective] returns never has two spaces or
    tabs in a row, and neither begins nor ends with a white-space
    character, whatever the input. *)
Theorem stripForcedTierDirective_normal_form text :
  let out := stripForcedTierDirective text in
  adjacentBlanks out = false
  /\ isSpaceOpt (head out) = false
  /\ isSpaceOpt (last out) = false.
Proof.
  intros out. unfold out, stripForcedTierDirective.
  set (x := replaceAll TIER_OVERRIDE_REGEX [] text).
  split; [|apply trim_ends].
  destruct (replace_blankRun_spec (length x) x None) as [Hadj _]; [done|].
  fold (replaceAll blankRun (lit " ") x) in Hadj.
  set (y := replaceAll blankRun (lit " ") x) in *.
  unfold trim.
  destruct (trimStart_suffix y) as [ws Hy].
  destruct (trimEnd_prefix (trimStart y)) as [ws' Hy'].
  rewrite Hy in Hadj. apply adjacentBlanks_app in Hadj as [_ Hadj].
  rewrite Hy' in Hadj. by apply adjacentBlanks_app in Hadj as [Hadj _].
Qed.

(** [exec] at the leftmost match. *)
Lemma exec_leftmost r pre tail rest prev i :
  (forall p, In p (matchPositions r prev (pre ++ tail) i) -> i + length pre <= p) ->
  matchHere r (lastOr prev pre) tail = Some rest ->
  execFrom r prev (pre ++ tail)
  = Some (pre, take (length tail - length rest) tail, rest).
Proof.
  revert prev i. induction pre as [|c pre IH]; intros prev i H Hm.
  - rewrite lastOr_nil in Hm. simpl. rewrite execFrom_eq, Hm. reflexivity.
  - change ((c :: pre) ++ tail) with (c :: (pre ++ tail)) in *.
    rewrite execFrom_eq.
    destruct (matchHere r prev (c :: pre ++ tail)) eqn:Hhere.
    { specialize (H i). rewrite matchPositions_eq, Hhere in H.
      simpl in H. specialize (H (or_introl eq_refl)). lia. }
    rewrite lastOr_cons in Hm.
    rewrite (IH (Some c) (S i)); [done| |done].
    intros p Hp. specialize (H p). rewrite matchPositions_eq, Hhere in H.
    simpl in H. specialize (H Hp). lia.
Qed.

(** X28.  The first directive decides.  When a text holds a directive naming
    tier [t] between word boundaries and the directive expression matches
    nowhere before it, [parseForcedTier] returns [t], however many
    directives naming other tiers follow; a message with that text as its
    content is forced to [t] and forwarded with all its directives
    removed. *)
Theorem first_directive_decides t pre d post r :
  isDirective t d ->
  isWordOpt (last pre) = false ->
  isWordOpt (head post) = false ->
  (forall p, In p (directivePositions (pre ++ d ++ post)) -> length pre <= p) ->
  parseForcedTier (pre ++ d ++ post) = Some t
  /\ extractAndStripForcedTier (Some {| role := r; content := CString (pre ++ d ++ post) |})
     = (Some t,
        Some {| role := r;
                content := CString (stripForcedTierDirective (pre ++ d ++ post)) |}).
Proof.
  intros Hdir Hpre Hpost Hfirst.
  assert (Hparse : parseForcedTier (pre ++ d ++ post) = Some t).
  { unfold parseForcedTier, exec.
    rewrite (exec_leftmost TIER_OVERRIDE_REGEX pre (d ++ post) post None 0).
    - rewrite length_app.
      replace (length d + length post - length post) with (length d) by lia.
      rewrite take_app_length.
      destruct Hdir as (u & ws & nm & -> & Hu & _ & Hsp & Hnm).
      assert (Hlen : length u = 3).
      { unfold spells in Hu. apply Forall2_length in Hu. by rewrite <- Hu. }
      rewrite <- Hlen, drop_app_length.
      rewrite <- (app_nil_r nm) at 1. rewrite app_assoc, app_nil_r.
      rewrite (trimStart_spaces ws nm Hsp).
      + rewrite (spells_asciiUpper _ nm (allUpper_tierName t) Hnm).
        apply tierOfName_tierName.
      + rewrite <- (app_nil_r nm).
        apply (spells_head_not_space _ nm [] (allUpper_tierName t)); [|done].
        destruct (tierName_cons t) as (p & w & -> & _). done.
    - intros p Hp. simpl. by apply Hfirst.
    - rewrite lastOr_None. by apply (matchHere_directive t). }
  split; [exact Hparse|].
  unfold extractAndStripForcedTier. cbn [content role]. by rewrite Hparse.
Qed.

(** *** Sample runs *)

Lemma prepareRouting_without_directive_witness :
  let messages :=
    [ {| role := lit "system"; content := CString (lit "Be brief.") |};
      {| role := lit "user"; content := CString (lit "Explain recursion briefly.") |} ] in
  let result := prepareRouting messages false in
  fst (fst (fst result)) = messages
  /\ forcedTier (snd result) = None
  /\ snd (fst (fst result)) = lit "Explain recursion briefly.".
Proof.
  intros messages result.
  destruct (prepareRouting_without_directive messages false) as (H1 & H2 & _ & H4).
  - intros i m Hi Hm.
    assert (i = 1%nat) by (vm_compute in Hi; congruence). subst i.
    injection Hm as <-. vm_compute. reflexivity.
  - split; [exact H1|]. split; [exact H2|]. unfold result. rewrite H4.
    vm_compute. reflexivity.
Defined.

Lemma first_directive_decides_witness :
  parseForcedTier (lit "use simple, not USE COMPLEX") = Some SIMPLE.
Proof.
  apply (first_directive_decides SIMPLE [] (lit "use simple") (lit ", not USE COMPLEX")
           (lit "user")).
  - exists (lit "use"), (lit " "), (lit "simple").
    split; [reflexivity|]. split; [repeat constructor|].
    split; [discriminate|]. split; repeat constructor.
  - reflexivity.
  - reflexivity.
  - intros p _. simpl. lia.
Defined.

End DirectiveMore.

(** ** The model catalogue *)

Module ModelsMore.
Import JS Router Models ModelsSpec.

Lemma buildModelPricing_fold (ms : list ZenMuxModel)
    (acc : gmap jsstring ModelPricing) (key : jsstring) :
  fold_left
    (fun map m =>
       if bool_decide (m_id m = AUTO_MODEL) then map
       else <[m_id m := {| inputPrice := m_inputPrice m; outputPrice := m_outputPrice m |}]> map)
    ms acc !! key
  = match lastWithId key ms with
    | Some m => if bool_decide (key = AUTO_MODEL) then acc !! key else Some (pricingOf m)
    | None => acc !! key
    end.
Proof.
  unfold lastWithId. induction ms as [|m ms IH] using rev_ind; [done|].
  rewrite fold_left_app, List.filter_app. cbn [fold_left List.filter].
  destruct (bool_decide (m_id m = key)) eqn:Hk.
  - apply bool_decide_eq_true in Hk. subst key. rewrite last_snoc.
    destruct (bool_decide (m_id m = AUTO_MODEL)) eqn:Ha.
    + rewrite IH. destruct (last _); done.
    + by rewrite lookup_insert_eq.
  - apply bool_decide_eq_false in Hk. rewrite app_nil_r.
    destruct (bool_decide (m_id m = AUTO_MODEL)); [apply IH|].
    rewrite lookup_insert_ne by done. apply IH.
Qed.

(** X26.  The pricing map built from a model list never prices the auto
    meta-model, and gives every other id the prices of the last model of
    the list with that id; an id that does not occur has no price. *)
Theorem buildModelPricing_lookup (ms : list ZenMuxModel) (key : jsstring) :
  buildModelPricing ms !! key
  = if bool_decide (key = AUTO_MODEL) then None
    else pricingOf <$> lastWithId key ms.
Proof.
  unfold buildModelPricing. rewrite buildModelPricing_fold, lookup_empty.
  destruct (lastWithId key ms); destruct (bool_decide (key = AUTO_MODEL)); done.
Qed.

Lemma last_map {A B} (f : A -> B) (l : list A) : last (List.map f l) = f <$> last l.
Proof.
  induction l as [|a l IH] using rev_ind; [done|].
  rewrite List.map_app. simpl. by rewrite !last_snoc.
Qed.

Lemma filter_map_id key data :
  List.filter (fun m => bool_decide (m_id m = key)) (List.map toZenMuxModel data)
  = List.map toZenMuxModel (List.filter (fun a => bool_decide (api_id a = key)) data).
Proof.
  induction data as [|a data IH]; [done|].
  cbn [List.map List.filter]. change (m_id (toZenMuxModel a)) with (api_id a).
  destruct (bool_decide (api_id a = key)); simpl; by rewrite IH.
Qed.

Section WithCatalogue.

Variable ZENMUX_MODELS : list ZenMuxModel.

Abbreviation fetchModels := (fetchModels ZENMUX_MODELS).

(** X27.  The model list is fetched at most once per TTL.  A call that finds no
    fresh cache entry and gets an answer returns the auto meta-model
    followed by the converted models, and every call within the TTL of
    that fetch returns the same list without fetching.  A call whose fetch
    fails returns the built-in catalogue and leaves the cache as it is,
    also when the cache holds a stale list; after [invalidateModelCache]
    the next call fetches again.  In the pricing map built from
    a fetched list the auto meta-model has no price and every other model
    has the prices extracted from its last entry in the answer. *)
Theorem fetchModels_cache ttl data tCheck tStore cache :
  (forall entry, cache = Some entry -> (ttl <= tCheck - fetchedAt entry)%Z) ->
  let run := fetchModels ttl (Some data) tCheck tStore cache in
  fst run = autoModel :: List.map toZenMuxModel data
  /\ (forall fetched2 tCheck2 tStore2,
        (tCheck2 - tStore < ttl)%Z ->
        fetchModels ttl fetched2 tCheck2 tStore2 (snd run) = run)
  /\ fetchModels ttl None tCheck tStore cache = (ZENMUX_MODELS, cache)
  /\ (forall data2 tCheck2 tStore2,
        fst (fetchModels ttl (Some data2) tCheck2 tStore2 (invalidateModelCache (snd run)))
        = autoModel :: List.map toZenMuxModel data2)
  /\ buildModelPricing (fst run) !! AUTO_MODEL = None
  /\ (forall a,
        lastApiWithId (api_id a) data = Some a ->
        api_id a <> AUTO_MODEL ->
        buildModelPricing (fst run) !! api_id a
        = Some {| inputPrice := extractPrice (pricings_prompt a);
                  outputPrice := extractPrice (pricings_completion a) |}).
Proof.
  intros Hmiss run.
  assert (Hrun : run = (autoModel :: List.map toZenMuxModel data,
                        Some {| models := autoModel :: List.map toZenMuxModel data;
                                fetchedAt := tStore |})).
  { unfold run, Models.fetchModels. destruct cache as [entry|]; [|done].
    specialize (Hmiss entry eq_refl).
    destruct (Z.ltb_spec (tCheck - fetchedAt entry) ttl); [lia|done]. }
  rewrite Hrun. cbn [fst snd].
  split; [done|]. split.
  { intros fetched2 tCheck2 tStore2 Hlive. unfold Models.fetchModels.
    cbn [fetchedAt models].
    destruct (Z.ltb_spec (tCheck2 - tStore) ttl); [done|lia]. }
  split.
  { unfold Models.fetchModels. destruct cache as [entry|]; [|done].
    specialize (Hmiss entry eq_refl).
    destruct (Z.ltb_spec (tCheck - fetchedAt entry) ttl); [lia|done]. }
  split; [done|].
  split.
  { rewrite buildModelPricing_lookup. by rewrite bool_decide_eq_true_2. }
  intros a Hlast Hne.
  rewrite buildModelPricing_lookup, bool_decide_eq_false_2 by done.
  unfold lastWithId. cbn [List.filter].
  rewrite bool_decide_eq_false_2 by (intros H; apply Hne; by rewrite <- H).
  rewrite filter_map_id, last_map. unfold lastApiWithId in Hlast. rewrite Hlast.
  reflexivity.
Qed.

End WithCatalogue.

(** *** Sample runs *)

Lemma fetchModels_cache_witness :
  let run := Models.fetchModels sampleCatalogue 1800000 (Some [sampleApiModel])
               1000 1200 None in
  fst run = [autoModel; toZenMuxModel sampleApiModel]
  /\ Models.fetchModels sampleCatalogue 1800000 None 5000 5200 (snd run) = run
  /\ buildModelPricing (fst run) !! lit "openai/gpt-5"
     = Some {| inputPrice := 1.25; outputPrice := 0 |}.
Proof.
  intros run.
  destruct (fetchModels_cache sampleCatalogue 1800000 [sampleApiModel] 1000 1200 None)
    as (H1 & H2 & _ & _ & _ & H5); [discriminate|].
  split; [exact H1|]. split; [apply H2; lia|].
  change (lit "openai/gpt-5") with (api_id sampleApiModel). unfold run.
  rewrite (H5 sampleApiModel).
  - unfold extractPrice, sampleApiModel.
    cbn [pricings_prompt pricings_completion List.find pe_unit pe_value].
    rewrite bool_decide_eq_false_2 by discriminate.
    rewrite bool_decide_eq_true_2 by reflexivity. reflexivity.
  - unfold lastApiWithId. cbn [List.filter]. by rewrite bool_decide_eq_true_2.
  - discriminate.
Defined.

End ModelsMore.

(** ** The proxy: further properties *)

Module ProxyMore.
Import JS Dedup DedupSpec DedupFacts Proxy ProxySpec ProxyFacts Server ServerSpec.

Local Open Scope Z_scope.

Lemma reachable_getCached key now st : reachable st -> reachable (snd (getCached key now st)).
Proof. intros H. apply (reachable_step (OpGetCached key now) st H). Qed.

Lemma reachable_getInflight key st : reachable st -> reachable (snd (getInflight key st)).
Proof. intros H. apply (reachable_step (OpGetInflight key) st H). Qed.

Lemma reachable_markInflight key st : reachable st -> reachable (markInflight key st).
Proof. intros H. apply (reachable_step (OpMarkInflight key) st H). Qed.

Section WithHost.

Variable hash : list byte -> jsstring.
Variable JSON_parse : list byte -> option Parsed.
Variable errorJson : list byte -> Z -> list byte.
Variable proxyErrorJson : jsstring -> list byte.

Abbreviation routingStage := (routingStage JSON_parse).
Abbreviation proxyStart := (proxyStart hash JSON_parse).
Abbreviation proxyForward := (proxyForward errorJson).
Abbreviation proxyRequest := (proxyRequest hash JSON_parse errorJson).
Abbreviation forwardedEntry := (forwardedEntry errorJson).
Abbreviation handleRequest := (handleRequest hash JSON_parse errorJson proxyErrorJson).

(** What a start on the forwarding path tells about the states. *)
Lemma proxyStart_Forward req routed now st key isStreaming out st1 :
  proxyStart req routed now st = (Forward key isStreaming out, st1) ->
  routingStage req routed = (isStreaming, out)
  /\ key = hash out
  /\ st1 = markInflight key (snd (getCached key now st))
  /\ inflight st !! key = None
  /\ completed st1 !! key = None.
Proof.
  unfold Proxy.proxyStart.
  destruct (routingStage req routed) as [s body] eqn:Hr.
  destruct (getCached (hash body) now st) as [[cached|] s1] eqn:Hg; [done|].
  destruct (getInflight (hash body) s1) as [[p|] s2] eqn:Hi; [done|].
  intros [= <- <- <- <-].
  unfold getInflight in Hi.
  destruct (inflight s1 !! hash body) as [e|] eqn:He; [done|].
  injection Hi as <-.
  assert (Hs1 : inflight s1 = inflight st /\ completed s1 !! hash body = None).
  { unfold getCached in Hg. destruct (completed st !! hash body) as [c|] eqn:Hc.
    - destruct (expired now (ttlMs st) c); [|done].
      injection Hg as <-. simpl. by rewrite lookup_delete_eq.
    - injection Hg as <-. done. }
  destruct Hs1 as [Hi1 Hc1].
  split; [done|]. split; [done|]. split; [by rewrite Hg|].
  split; [by rewrite <- Hi1|]. done.
Qed.

(** X6.  Deduplication of concurrent requests.  While a request is on the
    forwarding path, a second request with the same outbound body makes no
    upstream call and waits on a promise.  When the first request's
    upstream call returns a response, whatever its status and size, that
    promise is settled with the entry built from the response, and for a
    non-streaming request the entry replays the very answer the first
    client got.  When the first request's call or body read throws, the
    promise is left pending. *)
Theorem joiner_receives_leader_response
    reqA routedA tA reqB routedB tB upB ticksB tDoneB tPruneB st key s out stA sB :
  reachable st ->
  proxyStart reqA routedA tA st = (Forward key s out, stA) ->
  routingStage reqB routedB = (sB, out) ->
  exists p stB,
    proxyRequest reqB routedB upB ticksB tB tDoneB tPruneB stA
      = ({| response := None; waitingOn := Some p; failed := false; upstreamCalls := 0 |},
         stB)
    /\ settled (heap stB) !! p = None
    /\ (forall ust hs chunks ticks tDone tPrune,
          let run := proxyForward key s (UResponse ust hs chunks) ticks tDone tPrune stB in
          let entry := forwardedEntry s ust hs chunks tDone in
          settled (heap (snd run)) !! p = Some entry
          /\ inflight (snd run) !! key = None
          /\ (s = false -> sent (fst run) = Some (replay entry)))
    /\ (forall up ticks tDone tPrune,
          up = UThrow \/ (exists ust hs chunks, up = UReadError ust hs chunks) ->
          settled (heap (snd (proxyForward key s up ticks tDone tPrune stB))) !! p = None).
Proof.
  intros Hreach HA HB.
  destruct (proxyStart_Forward reqA routedA tA st key s out stA HA)
    as (HrA & Hkey & HstA & HiA & HcA).
  assert (HreachA : reachable stA).
  { rewrite HstA. by apply reachable_markInflight, reachable_getCached. }
  assert (HentryA : inflight stA !! key = Some {| resolve := RNoop; waiters := [] |}).
  { rewrite HstA. simpl. apply lookup_insert_eq. }
  assert (HgB : getCached key tB stA = (None, stA)).
  { unfold getCached. by rewrite HcA. }
  destruct (getInflight key stA) as [[p|] stB] eqn:HiB;
    [|unfold getInflight in HiB; rewrite HentryA in HiB; done].
  exists p, stB.
  assert (HreachB : reachable stB).
  { pose proof (reachable_getInflight key stA HreachA) as H. by rewrite HiB in H. }
  destruct (getInflight_joins key stA _ p stB HentryA HiB) as (e2 & He2 & Hj).
  simpl in Hj.
  assert (Hpend : settled (heap stB) !! p = None).
  { destruct (reachable_wellFormed stB HreachB) as (_ & He & _).
    destruct (He _ _ He2) as [_ Hall]. apply Hall.
    apply joiners_targets. rewrite Hj. left. }
  split.
  { unfold Proxy.proxyRequest, Proxy.proxyStart.
    rewrite HB, <- Hkey, HgB, HiB. reflexivity. }
  split; [exact Hpend|]. split.
  - intros ust hs chunks ticks tDone tPrune run entry.
    destruct (proxyForward_response errorJson key s ust hs chunks ticks tDone tPrune stB)
      as (Hs & _ & Hsent).
    fold run in Hs, Hsent. fold entry in Hs.
    destruct (reachable_wellFormed stB HreachB) as (_ & He & _).
    destruct (He _ _ He2) as [Hnd Hall].
    destruct (callResolver_spec (resolve e2) entry (heap stB) Hnd)
      as (_ & _ & Hin & _); [intros q Hq; by apply Hall|].
    rewrite Hs, complete_heap, complete_inflight, He2.
    split; [|split].
    + apply Hin, joiners_targets. rewrite Hj. left.
    + apply lookup_delete_eq.
    + intros ->. exact Hsent.
  - intros up ticks tDone tPrune Hfail.
    destruct (proxyForward_failure errorJson key s up ticks tDone tPrune stB Hfail)
      as [Hs _].
    rewrite Hs. exact Hpend.
Qed.

(** X7.  A failure does not block the key.  When the first request for an
    outbound body fails (the upstream call or the body read throws), the
    completed map is as before and the in-flight marker is gone, so the
    same request sent again is forwarded upstream again and answered with
    the upstream response. *)
Theorem retry_after_failure
    req routed up ust hs chunks ticks1 ticks2 tStart1 tDone1 tPrune1
    tStart2 tDone2 tPrune2 st isStreaming out :
  routingStage req routed = (isStreaming, out) ->
  completed st !! hash out = None ->
  inflight st !! hash out = None ->
  up = UThrow \/ (exists ust' hs' chunks', up = UReadError ust' hs' chunks') ->
  let run1 := proxyRequest req routed up ticks1 tStart1 tDone1 tPrune1 st in
  let run2 := proxyRequest req routed (UResponse ust hs chunks)
                ticks2 tStart2 tDone2 tPrune2 (snd run1) in
  let entry := forwardedEntry isStreaming ust hs chunks tDone2 in
  failed (fst run1) = true
  /\ upstreamCalls (fst run1) = 1%nat
  /\ completed (snd run1) = completed st
  /\ inflight (snd run1) !! hash out = None
  /\ failed (fst run2) = false
  /\ upstreamCalls (fst run2) = 1%nat
  /\ response (fst run2) =
       Some (if isStreaming then
               {| c_status := 200; c_headers := earlyHeaders;
                  c_body := (HEARTBEAT ++ concat (replicate ticks2 HEARTBEAT))
                            ++ body entry |}
             else replay entry).
Proof.
  intros Hr Hc Hi Hfail run1 run2 entry.
  assert (H1 : failed (fst run1) = true /\ upstreamCalls (fst run1) = 1%nat
               /\ completed (snd run1) = completed st
               /\ inflight (snd run1) !! hash out = None).
  { unfold run1, Proxy.proxyRequest.
    rewrite (proxyStart_fresh hash JSON_parse req routed tStart1 st isStreaming out Hr Hc Hi).
    destruct (proxyForward_failure errorJson (hash out) isStreaming up ticks1 tDone1 tPrune1
                (markInflight (hash out) st) Hfail) as [Hs Ht].
    destruct (Proxy.proxyForward _ _ _ _ _ _ _ _) as [fin st2].
    cbn [fst snd] in Hs, Ht. subst st2. cbn [fst snd failed upstreamCalls].
    split; [exact Ht|]. split; [reflexivity|].
    destruct (completedFlag fin); cbn [onClose]; simpl; rewrite ?lookup_delete_eq; done. }
  destruct H1 as (Hf1 & Hu1 & Hc1 & Hi1).
  split; [exact Hf1|]. split; [exact Hu1|]. split; [exact Hc1|]. split; [exact Hi1|].
  assert (Hc2 : completed (snd run1) !! hash out = None) by (by rewrite Hc1).
  destruct (proxyRequest_fresh_response hash JSON_parse errorJson req routed ust hs chunks
              ticks2 tStart2 tDone2 tPrune2 (snd run1) isStreaming out Hr Hc2 Hi1)
    as (Hcalls & Hfailed & Hresp & _).
  split; [exact Hfailed|]. split; [exact Hcalls|]. exact Hresp.
Qed.

(** X8.  A failure of the upstream call is always reported to the client by the
    request listener.  When nothing has been sent yet the answer is a 502
    with a JSON error; when the status line and headers are already out
    (a streaming request, or a response whose body read failed) they stay
    as they are and the error follows what was written as one SSE data
    event and the terminator.  Nothing is stored and the in-flight marker
    is removed. *)
Theorem handleRequest_reports_failure
    u body nmodels message routed up ticks tStart tDone tPrune st key s out stF :
  isHealth u = false ->
  isPrefix (lit "/v1") u = true ->
  proxyStart {| url := u; reqBody := body |} routed tStart st = (Forward key s out, stF) ->
  up = UThrow \/ (exists ust hs chunks, up = UReadError ust hs chunks) ->
  let run := handleRequest (Some u) body nmodels message routed up ticks
               tStart tDone tPrune st in
  let early := HEARTBEAT ++ concat (replicate ticks HEARTBEAT) in
  failed (fst run) = false
  /\ upstreamCalls (fst run) = 1%nat
  /\ completed (snd run) = completed stF
  /\ inflight (snd run) !! key = None
  /\ response (fst run) =
       Some (match s, up with
             | false, UThrow =>
                 {| c_status := 502; c_headers := jsonHeaders;
                    c_body := proxyErrorJson (lit "Proxy error: " ++ message) |}
             | false, UReadError ust hs chunks =>
                 {| c_status := ust; c_headers := responseHeadersOf hs;
                    c_body := concat chunks ++ proxyErrorEvent proxyErrorJson message |}
             | true, UReadError ust hs chunks =>
                 {| c_status := 200; c_headers := earlyHeaders;
                    c_body := (early ++ (if bool_decide (ust = 200) then concat chunks
                                         else []))
                              ++ proxyErrorEvent proxyErrorJson message |}
             | _, _ =>
                 {| c_status := 200; c_headers := earlyHeaders;
                    c_body := early ++ proxyErrorEvent proxyErrorJson message |}
             end).
Proof.
  intros Hh Hv Hstart Hfail run early.
  unfold run, Server.handleRequest. rewrite Hh, Hv. cbn [negb].
  unfold Proxy.proxyRequest. rewrite Hstart.
  destruct (proxyForward_failure errorJson key s up ticks tDone tPrune stF Hfail)
    as [Hs Ht].
  destruct (removeInflight_spec key stF) as (Hc & Hi & _).
  destruct Hfail as [->|(ust & hs & chunks & ->)]; destruct s;
    cbn -[HEARTBEAT DONE ascii lit]; rewrite ?Hc, ?lookup_delete_eq;
    repeat split; reflexivity.
Qed.

End WithHost.

(** *** The request headers sent upstream *)

Lemma collect_headers_lookup reqHeaders acc key :
  fold_left
    (fun h kv =>
       if isStripped (fst kv) then h
       else match snd kv with
            | HString v => setProperty (fst kv) v h
            | HOther => h
            end)
    reqHeaders acc !! key
  = if isStripped key || bool_decide (key = lit "__proto__") then acc !! key
    else match lastString key reqHeaders with
         | Some v => Some v
         | None => acc !! key
         end.
Proof.
  revert acc. induction reqHeaders as [|[k v] l IH]; intros acc.
  - simpl. by destruct (_ || _).
  - cbn [fold_left lastString fst snd]. rewrite IH.
    destruct (isStripped key || bool_decide (key = lit "__proto__")) eqn:Hk.
    + destruct (isStripped k) eqn:Hs; [done|].
      destruct v as [v|]; [|done]. unfold setProperty.
      destruct (bool_decide (k = lit "__proto__")) eqn:Hp; [done|].
      apply bool_decide_eq_false in Hp.
      rewrite lookup_insert_ne; [done|]. intros ->.
      rewrite Hs in Hk. simpl in Hk. by apply bool_decide_eq_true in Hk.
    + destruct (lastString key l) as [x|]; [done|].
      apply orb_false_iff in Hk as [Hk1 Hk2]. apply bool_decide_eq_false in Hk2.
      destruct (isStripped k) eqn:Hs.
      * destruct v as [v|]; [|done].
        destruct (bool_decide (k = key)) eqn:Hkk; [|done].
        apply bool_decide_eq_true in Hkk. subst k. congruence.
      * destruct v as [v|]; [|done]. unfold setProperty.
        destruct (bool_decide (k = key)) eqn:Hkk.
        -- apply bool_decide_eq_true in Hkk. subst k.
           rewrite bool_decide_eq_false_2 by done. by rewrite lookup_insert_eq.
        -- apply bool_decide_eq_false in Hkk.
           destruct (bool_decide (k = lit "__proto__")); [done|].
           by rewrite lookup_insert_ne.
Qed.

(** X9.  The headers sent upstream.  The authorization header is always the
    proxy's key and the user agent the proxy's own, whatever the client
    sent; [host], [connection], [transfer-encoding] and [content-length]
    are never forwarded; a content type is always present and not empty
    (the client's, else application/json); every other header goes through
    with the last string value the client gave it, and headers without a
    string value are dropped. *)
Theorem forwardHeaders_spec apiKey reqHeaders :
  let h := forwardHeaders apiKey reqHeaders in
  h !! lit "authorization" = Some (lit "Bearer " ++ apiKey)
  /\ h !! lit "user-agent" = Some USER_AGENT
  /\ (forall key, isStripped key = true -> h !! key = None)
  /\ h !! lit "content-type"
     = Some (match lastString (lit "content-type") reqHeaders with
             | Some (c :: v) => c :: v
             | _ => lit "application/json"
             end)
  /\ (exists c v, h !! lit "content-type" = Some (c :: v))
  /\ (forall key, isStripped key = false -> isReserved key = false ->
        h !! key = lastString key reqHeaders).
Proof.
  intros h. unfold h, forwardHeaders.
  set (collected := fold_left _ reqHeaders ∅).
  assert (Hcol : forall key,
            collected !! key
            = if isStripped key || bool_decide (key = lit "__proto__") then None
              else lastString key reqHeaders).
  { intros key. unfold collected. rewrite collect_headers_lookup, lookup_empty.
    destruct (_ || _); [done|]. by destruct (lastString key reqHeaders). }
  assert (Hct : collected !! lit "content-type"
                = lastString (lit "content-type") reqHeaders) by (rewrite Hcol; done).
  set (h1 := match collected !! lit "content-type" with
             | Some (_ :: _) => collected
             | _ => <[lit "content-type" := lit "application/json"]> collected
             end).
  assert (Hh1 : forall key, key <> lit "content-type" -> h1 !! key = collected !! key).
  { intros key Hne. unfold h1. destruct (collected !! lit "content-type") as [[|]|];
      try done; by rewrite lookup_insert_ne. }
  assert (Hh1ct : h1 !! lit "content-type"
                  = Some (match lastString (lit "content-type") reqHeaders with
                          | Some (c :: v) => c :: v
                          | _ => lit "application/json"
                          end)).
  { unfold h1. rewrite <- Hct.
    destruct (collected !! lit "content-type") as [[|c v]|] eqn:E;
      rewrite ?lookup_insert_eq; done. }
  split; [by rewrite lookup_insert_eq|].
  split; [rewrite lookup_insert_ne by done; by rewrite lookup_insert_eq|].
  split.
  { intros key Hs.
    assert (key <> lit "authorization") by (intros ->; done).
    assert (key <> lit "user-agent") by (intros ->; done).
    assert (key <> lit "content-type") by (intros ->; done).
    rewrite !lookup_insert_ne, Hh1, Hcol, Hs by done. done. }
  split; [rewrite !lookup_insert_ne by done; exact Hh1ct|].
  split.
  { destruct (lastString (lit "content-type") reqHeaders) as [[|c v]|];
      [exists 97%N, (lit "pplication/json") | exists c, v
      | exists 97%N, (lit "pplication/json")];
      rewrite !lookup_insert_ne by done; exact Hh1ct. }
  intros key Hs Hr. unfold isReserved in Hr.
  apply orb_false_iff in Hr as [Hr Hp]. apply orb_false_iff in Hr as [Hr Hc].
  apply orb_false_iff in Hr as [Ha Hu].
  apply bool_decide_eq_false in Ha, Hu, Hc.
  rewrite !lookup_insert_ne, Hh1, Hcol, Hs, Hp by done. done.
Qed.

(** *** Sample runs *)

Lemma joiner_receives_leader_response_witness :
  let key := sampleHash plainBody in
  let stA := markInflight key (create DEFAULT_TTL_MS) in
  exists p stB,
    Proxy.proxyRequest sampleHash sampleParse sampleErrorJson plainRequest None UThrow
      0 1100 1200 1200 stA
    = ({| response := None; waitingOn := Some p; failed := false; upstreamCalls := 0 |},
       stB)
    /\ settled (heap (snd (Proxy.proxyForward sampleErrorJson key false
                             (UResponse 200 [] [helloFrame]) 0 1500 1500 stB))) !! p
       = Some (forwardedEntry sampleErrorJson false 200 [] [helloFrame] 1500)
    /\ settled (heap (snd (Proxy.proxyForward sampleErrorJson key false UThrow
                             0 1500 1500 stB))) !! p = None.
Proof.
  intros key stA.
  destruct (joiner_receives_leader_response sampleHash sampleParse sampleErrorJson
              plainRequest None 1000 plainRequest None 1100 UThrow 0 1200 1200
              (create DEFAULT_TTL_MS) key false plainBody stA false)
    as (p & stB & Hrun & _ & Hok & Hfail).
  - apply reachable_create.
  - vm_compute. reflexivity.
  - vm_compute. reflexivity.
  - exists p, stB. split; [exact Hrun|]. split.
    + apply (Hok 200 [] [helloFrame] 0%nat 1500 1500).
    + apply Hfail. by left.
Defined.

Lemma retry_after_failure_witness :
  let st := create DEFAULT_TTL_MS in
  let run1 := Proxy.proxyRequest sampleHash sampleParse sampleErrorJson plainRequest None
                UThrow 0 1000 1100 1100 st in
  let run2 := Proxy.proxyRequest sampleHash sampleParse sampleErrorJson plainRequest None
                (UResponse 200 [] [helloFrame]) 0 2000 2100 2100 (snd run1) in
  failed (fst run1) = true
  /\ upstreamCalls (fst run2) = 1%nat
  /\ response (fst run2)
     = Some (replay (forwardedEntry sampleErrorJson false 200 [] [helloFrame] 2100)).
Proof.
  intros st run1 run2.
  destruct (retry_after_failure sampleHash sampleParse sampleErrorJson plainRequest None
              UThrow 200 [] [helloFrame] 0 0 1000 1100 1100 2000 2100 2100 st
              false plainBody) as (H1 & _ & _ & _ & _ & H6 & H7).
  - vm_compute. reflexivity.
  - reflexivity.
  - reflexivity.
  - by left.
  - split; [exact H1|]. split; [exact H6|exact H7].
Defined.

Lemma handleRequest_reports_failure_witness :
  let run := Server.handleRequest sampleHash sampleParse sampleErrorJson
               sampleProxyErrorJson (Some chatUrl) streamingBody 3 (lit "fetch failed")
               None UThrow 1 1000 1500 1500 (create DEFAULT_TTL_MS) in
  response (fst run)
  = Some {| c_status := 200; c_headers := earlyHeaders;
            c_body := (HEARTBEAT ++ concat (replicate 1 HEARTBEAT))
                      ++ proxyErrorEvent sampleProxyErrorJson (lit "fetch failed") |}
  /\ inflight (snd run) !! sampleHash streamingBody = None.
Proof.
  intros run.
  destruct (handleRequest_reports_failure sampleHash sampleParse sampleErrorJson
              sampleProxyErrorJson chatUrl streamingBody 3 (lit "fetch failed") None UThrow
              1 1000 1500 1500 (create DEFAULT_TTL_MS)
              (sampleHash streamingBody) true streamingBody
              (markInflight (sampleHash streamingBody) (create DEFAULT_TTL_MS)))
    as (_ & _ & _ & Hi & Hr).
  - vm_compute. reflexivity.
  - vm_compute. reflexivity.
  - vm_compute. reflexivity.
  - by left.
  - split; [exact Hr|exact Hi].
Defined.

End ProxyMore.

(** ** The router: further properties *)

Module RouterMore.
Import JS Regex Router RouterSpec RouterFacts RouterMoreSpec Classifier RouterAsync.

Local Open Scope R_scope.

Section RulesMore.

Variable toLowerCase : jsstring -> jsstring.
Variable numberToString : R -> jsstring.

Abbreviation classifyByRules := (classifyByRules toLowerCase numberToString).
Abbreviation route := (route toLowerCase numberToString).
Abbreviation keywordMatches := (keywordMatches toLowerCase).
Abbreviation dimensions := (dimensions toLowerCase numberToString).




(** The score of the result is the weighted sum on both paths. *)
Lemma classifyByRules_score prompt systemPrompt estimatedTokens config :
  score (classifyByRules prompt systemPrompt estimatedTokens config)
  = weightedSum (dimensionWeights config)
      (dimensions (toLowerCase (default [] systemPrompt ++ lit " " ++ prompt))
         (toLowerCase prompt) prompt estimatedTokens config).
Proof.
  unfold Router.classifyByRules. destruct (_ <=? _)%nat; [done|].
  repeat destruct (Rlt_dec _ _); done.
Qed.



(** Without the reasoning override, a tier that is not ambiguous is the
    tier of the weighted score. *)
Lemma classifyByRules_tierOfScore prompt systemPrompt estimatedTokens config t :
  (length (keywordMatches (toLowerCase prompt) (reasoningKeywords config)) < 2)%nat ->
  tier (classifyByRules prompt systemPrompt estimatedTokens config) = Some t ->
  t = tierOfScore (tierBoundaries config)
        (score (classifyByRules prompt systemPrompt estimatedTokens config)).
Proof.
  intros H. unfold Router.classifyByRules, tierOfScore.
  apply Nat.leb_gt in H. rewrite H.
  set (w := weightedSum _ _).
  destruct (Rlt_dec w (simpleMedium _)) as [H1|H1];
    [|destruct (Rlt_dec w (mediumComplex _)) as [H2|H2];
      [|destruct (Rlt_dec w (complexReasoning _)) as [H3|H3]]];
    match goal with
    | |- context [Rlt_dec ?a ?th] => destruct (Rlt_dec a th)
    end; cbn [tier score];
    repeat match goal with
    | |- context [Rlt_dec ?a ?b] => destruct (Rlt_dec a b); try lra
    end; congruence.
Qed.

(** X17.  A higher score never gives a lower tier.  With ordered boundaries, of
    two classifications that are not ambiguous and not decided by the
    reasoning override, the one with the higher weighted score has a tier
    that ranks at least as high. *)
Theorem classifyByRules_tier_monotone
    prompt1 systemPrompt1 tokens1 prompt2 systemPrompt2 tokens2 config t1 t2 :
  simpleMedium (tierBoundaries config) <= mediumComplex (tierBoundaries config) ->
  mediumComplex (tierBoundaries config) <= complexReasoning (tierBoundaries config) ->
  (length (keywordMatches (toLowerCase prompt1) (reasoningKeywords config)) < 2)%nat ->
  (length (keywordMatches (toLowerCase prompt2) (reasoningKeywords config)) < 2)%nat ->
  let r1 := classifyByRules prompt1 systemPrompt1 tokens1 config in
  let r2 := classifyByRules prompt2 systemPrompt2 tokens2 config in
  tier r1 = Some t1 ->
  tier r2 = Some t2 ->
  score r1 <= score r2 ->
  (tierRank t1 <= tierRank t2)%nat.
Proof.
  intros Hb1 Hb2 Hk1 Hk2 r1 r2 Ht1 Ht2 Hs.
  rewrite (classifyByRules_tierOfScore prompt1 systemPrompt1 tokens1 config t1 Hk1 Ht1).
  rewrite (classifyByRules_tierOfScore prompt2 systemPrompt2 tokens2 config t2 Hk2 Ht2).
  fold r1 r2. unfold tierOfScore.
  repeat match goal with
  | |- context [Rlt_dec ?a ?b] => destruct (Rlt_dec a b)
  end; simpl; try lia; lra.
Qed.

(** X18.  Below the large-context ceiling the tier [route] returns is the tier of
    the rule classifier (the configured default when that is ambiguous),
    raised to the structured-output minimum tier when the prompt asks for
    structured output and the minimum ranks higher.  The tier is never
    lowered, the confidence is the classifier's (0.5 when ambiguous) also
    after an upgrade, and the method is always [rules]. *)
Theorem route_tier_floor prompt systemPrompt maxOutputTokens options :
  ~ estimateTokens (default [] systemPrompt ++ lit " " ++ prompt)
      > maxTokensForceComplex (overrides (config options)) ->
  let r := classifyByRules prompt systemPrompt (estimateTokens prompt)
             (scoring (config options)) in
  let base := default (ambiguousDefaultTier (overrides (config options))) (tier r) in
  let minTier := structuredOutputMinTier (overrides (config options)) in
  let d := route prompt systemPrompt maxOutputTokens options in
  (tierRank base <= tierRank (rd_tier d))%nat
  /\ (test structuredOutputRegex prompt = true ->
      (tierRank minTier <= tierRank (rd_tier d))%nat
      /\ tierRank (rd_tier d) = Nat.max (tierRank base) (tierRank minTier))
  /\ (test structuredOutputRegex prompt = false -> rd_tier d = base)
  /\ rd_confidence d = match tier r with
                       | Some _ => confidence r
                       | None => 0.5
                       end
  /\ rd_method d = rules
  /\ rd_model d = primary (tierConfigOf (tiers (config options)) (rd_tier d)).
Proof.
  intros Hsmall r base minTier d. unfold d, Router.route.
  destruct (Rgt_dec _ _) as [Hbig|_]; [contradiction|].
  fold r. cbv zeta.
  destruct (tier r) as [t|] eqn:Ht; cbn [default from_option id] in base;
    destruct (test structuredOutputRegex prompt) eqn:Hso; cbn [andb];
    try (destruct (tierRank _ <? tierRank _)%nat eqn:Hlt;
         [apply Nat.ltb_lt in Hlt|apply Nat.ltb_ge in Hlt]);
    cbn [rd_tier rd_confidence rd_method rd_model selectModel];
    subst base minTier; cbn [Datatypes.id];
    (split; [lia|]);
    (split; [intros E; (discriminate E || (split; lia))|]);
    (split; [intros E; (discriminate E || reflexivity)|]);
    repeat split.
Qed.

End RulesMore.

(** *** [routeAsync] *)

Section AsyncMore.

Variable toLowerCase : jsstring -> jsstring.
Variable numberToString : R -> jsstring.
Variable toUpperCase : jsstring -> jsstring.
Variable toFixed0 : R -> jsstring.

Abbreviation classifyByRules := (classifyByRules toLowerCase numberToString).
Abbreviation route := (route toLowerCase numberToString).
Abbreviation keywordMatches := (keywordMatches toLowerCase).
Abbreviation routeAsync := (routeAsync toLowerCase numberToString toUpperCase toFixed0).
Abbreviation classify := (classify toUpperCase).



(** X21.  With a classifier, below the large-context ceiling, when the rules are
    ambiguous or below the confidence threshold: the classifier is
    consulted once and returned in its new state; the method is [llm]
    exactly when it answers, the confidence is then the one it reports and
    the tier is the one it names unless the structured-output minimum
    ranks higher; when it fails the default tier is used with confidence
    0.5 and method [rules]. *)
Theorem routeAsync_method
    prompt systemPrompt maxOutputTokens options classifier fetchReply tCheck tSet tPrune :
  let r := classifyByRules prompt systemPrompt (estimateTokens prompt)
             (scoring (config options)) in
  let minTier := structuredOutputMinTier (overrides (config options)) in
  let asked := classify classifier prompt systemPrompt fetchReply tCheck tSet tPrune in
  let run := routeAsync prompt systemPrompt maxOutputTokens options (Some classifier)
               fetchReply tCheck tSet tPrune in
  ~ estimateTokens (default [] systemPrompt ++ lit " " ++ prompt)
      > maxTokensForceComplex (overrides (config options)) ->
  tier r = None \/ confidence r < confidenceThreshold (scoring (config options)) ->
  snd run = Some (snd asked)
  /\ (rd_method (fst run) = llm <-> exists ai, fst asked = Some ai)
  /\ match fst asked with
     | Some ai =>
         rd_confidence (fst run) = ai_confidence ai
         /\ (rd_tier (fst run) = ai_tier ai \/ rd_tier (fst run) = minTier)
         /\ (tierRank (ai_tier ai) <= tierRank (rd_tier (fst run)))%nat
     | None =>
         rd_method (fst run) = rules
         /\ rd_confidence (fst run) = 0.5
         /\ (rd_tier (fst run) = ambiguousDefaultTier (overrides (config options))
             \/ rd_tier (fst run) = minTier)
     end.
Proof.
  intros r minTier asked run Hsmall Hamb.
  unfold run, RouterAsync.routeAsync.
  destruct (Rgt_dec _ _) as [Hbig|_]; [contradiction|].
  cbv zeta. fold r. fold asked.
  assert (Hup : forall t1 c m rs (a : option AiClassifier),
    let out :=
      (let '(tier2, reasoning2) :=
         if test structuredOutputRegex prompt && (tierRank t1 <? tierRank minTier)%nat
         then (minTier,
               rs ++ lit " | upgraded to " ++ tierName minTier
                 ++ lit " (structured output)")
         else (t1, rs) in
       (selectModel tier2 c m reasoning2 (tiers (config options))
          (modelPricing options)
          (estimateTokens (default [] systemPrompt ++ lit " " ++ prompt))
          maxOutputTokens, a)) in
    snd out = a /\ rd_method (fst out) = m /\ rd_confidence (fst out) = c
    /\ (rd_tier (fst out) = t1 \/ rd_tier (fst out) = minTier)
    /\ (tierRank t1 <= tierRank (rd_tier (fst out)))%nat).
  { intros t1 c m rs a.
    destruct (test structuredOutputRegex prompt); cbn [andb];
      [destruct (tierRank t1 <? tierRank minTier)%nat eqn:Hlt|]; cbn;
      repeat split; auto.
    apply Nat.ltb_lt in Hlt. lia. }
  destruct asked as [[ai|] classifier'] eqn:Ea; cbn [fst snd].
  - set (rs := _ ++ lit " | AI: " ++ _).
    destruct (Hup (ai_tier ai) (ai_confidence ai) llm rs (Some classifier'))
      as (H1 & H2 & H3 & H4 & H5).
    fold minTier.
    destruct (tier r) as [t|];
      [destruct (Rge_dec _ _) as [Hge|]; [destruct Hamb as [?|Hlt]; [done|lra]|]|];
      (split; [exact H1|]); (split; [split; [by eexists|intros _; exact H2]|]); done.
  - set (rs := _ ++ lit " | AI failed -> default: " ++ _).
    destruct (Hup (ambiguousDefaultTier (overrides (config options))) 0.5 rules rs
                (Some classifier')) as (H1 & H2 & H3 & H4 & H5).
    fold minTier.
    destruct (tier r) as [t|];
      [destruct (Rge_dec _ _) as [Hge|]; [destruct Hamb as [?|Hlt]; [done|lra]|]|];
      (split; [exact H1|]);
      (split; [split; [rewrite H2; discriminate|intros [ai Hai]; discriminate Hai]|]);
      done.
Qed.

End AsyncMore.

(** *** Sample runs *)

Import Host ClassifierSpec.


Lemma sample_tier prompt t :
  (length (Router.keywordMatches toLowerCaseAscii (toLowerCaseAscii prompt)
             (reasoningKeywords (scoringWith 0.5))) < 2)%nat ->
  tierOfScore defaultBoundaries
    (score (Router.classifyByRules toLowerCaseAscii numberToStringOpaque prompt None
              (estimateTokens prompt) (scoringWith 0.5))) = t ->
  tier (Router.classifyByRules toLowerCaseAscii numberToStringOpaque prompt None
          (estimateTokens prompt) (scoringWith 0.5)) = Some t.
Proof.
  intros Hk Ht.
  destruct (classifyByRules_boundary toLowerCaseAscii numberToStringOpaque prompt None
              (estimateTokens prompt) (scoringWith 0.5) Hk) as (d & Hd & Hc & Hiff).
  destruct (tier _) as [t'|] eqn:E.
  - rewrite (classifyByRules_tierOfScore toLowerCaseAscii numberToStringOpaque prompt None
               (estimateTokens prompt) (scoringWith 0.5) t' Hk E).
    by rewrite <- Ht.
  - exfalso. destruct Hiff as [Hiff _]. specialize (Hiff eq_refl).
    rewrite Hc in Hiff. simpl in Hiff.
    destruct (calibrateConfidence_bounds d 12) as [Hlo _]; [nra|]. lra.
Qed.

Lemma score_hola :
  score (Router.classifyByRules toLowerCaseAscii numberToStringOpaque (lit "hola") None
           (estimateTokens (lit "hola")) (scoringWith 0.5)) = -0.08.
Proof.
  rewrite classifyByRules_score. vm_compute.
  match goal with |- context [Rlt_dec ?a ?b] => destruct (Rlt_dec a b) as [H|H] end.
  - lra.
  - exfalso. apply H. lra.
Qed.

Lemma score_build :
  score (Router.classifyByRules toLowerCaseAscii numberToStringOpaque
           (lit "build a function") None
           (estimateTokens (lit "build a function")) (scoringWith 0.5)) = 0.004.
Proof.
  rewrite classifyByRules_score. vm_compute.
  match goal with |- context [Rlt_dec ?a ?b] => destruct (Rlt_dec a b) as [H|H] end.
  - lra.
  - exfalso. apply H. lra.
Qed.

Lemma classifyByRules_tier_monotone_witness :
  let r1 := Router.classifyByRules toLowerCaseAscii numberToStringOpaque (lit "hola") None
              (estimateTokens (lit "hola")) (scoringWith 0.5) in
  let r2 := Router.classifyByRules toLowerCaseAscii numberToStringOpaque
              (lit "build a function") None
              (estimateTokens (lit "build a function")) (scoringWith 0.5) in
  tier r1 = Some SIMPLE /\ tier r2 = Some MEDIUM
  /\ (tierRank SIMPLE <= tierRank MEDIUM)%nat.
Proof.
  intros r1 r2.
  assert (H1 : tier r1 = Some SIMPLE).
  { apply sample_tier; [vm_compute; lia|]. rewrite score_hola.
    unfold tierOfScore, defaultBoundaries. cbn [simpleMedium].
    destruct (Rlt_dec _ _) as [_|Hn]; [reflexivity|exfalso; apply Hn; lra]. }
  assert (H2 : tier r2 = Some MEDIUM).
  { apply sample_tier; [vm_compute; lia|]. rewrite score_build.
    unfold tierOfScore, defaultBoundaries. cbn [simpleMedium mediumComplex].
    destruct (Rlt_dec _ _) as [Hn|_]; [exfalso; lra|].
    destruct (Rlt_dec _ _) as [_|Hn]; [reflexivity|exfalso; apply Hn; lra]. }
  split; [exact H1|]. split; [exact H2|].
  apply (classifyByRules_tier_monotone toLowerCaseAscii numberToStringOpaque
           (lit "hola") None (estimateTokens (lit "hola"))
           (lit "build a function") None (estimateTokens (lit "build a function"))
           (scoringWith 0.5) SIMPLE MEDIUM).
  - simpl. lra.
  - simpl. lra.
  - vm_compute. lia.
  - vm_compute. lia.
  - exact H1.
  - exact H2.
  - rewrite score_hola, score_build. lra.
Defined.

Lemma route_tier_floor_witness :
  let d := Router.route toLowerCaseAscii numberToStringOpaque samplePrompt None 2048
             (sampleOptions 100 0.6) in
  rd_method d = rules
  /\ rd_model d = primary (tierConfigOf defaultTiers (rd_tier d)).
Proof.
  intros d.
  destruct (route_tier_floor toLowerCaseAscii numberToStringOpaque samplePrompt None 2048
              (sampleOptions 100 0.6)) as (_ & _ & _ & _ & Hm & Hp).
  - change (~ INR 5 > 100). simpl. lra.
  - split; [exact Hm|exact Hp].
Defined.


(** With the threshold at 0.99 the rules' answer for "prove the theorem"
    is below the threshold; the classifier is asked and answers COMPLEX. *)
Lemma routeAsync_method_witness :
  let run := RouterAsync.routeAsync toLowerCaseAscii numberToStringOpaque toUpperCaseAscii
               numberToStringOpaque samplePrompt None 2048 (sampleOptions 100 0.99)
               (Some sampleClassifier) sampleFetch 1000 1001 1002 in
  rd_method (fst run) = llm
  /\ rd_confidence (fst run) = 0.85
  /\ rd_tier (fst run) = COMPLEX.
Proof.
  intros run.
  assert (Hasked : fst (Classifier.classify toUpperCaseAscii sampleClassifier samplePrompt
                          None sampleFetch 1000 1001 1002)
                   = Some {| ai_tier := COMPLEX; ai_confidence := 0.85 |})
    by (vm_compute; reflexivity).
  destruct (routeAsync_method toLowerCaseAscii numberToStringOpaque toUpperCaseAscii
              numberToStringOpaque samplePrompt None 2048 (sampleOptions 100 0.99)
              sampleClassifier sampleFetch 1000 1001 1002) as (_ & Hm & Hrest).
  - change (~ INR 5 > 100). simpl. lra.
  - right. change (scoring (config (sampleOptions 100 0.99))) with (scoringWith 0.99).
    destruct (classifyByRules_override toLowerCaseAscii numberToStringOpaque
                samplePrompt None (estimateTokens samplePrompt) (scoringWith 0.99))
      as [_ Hc].
    { vm_compute. lia. }
    eapply Rle_lt_trans; [apply Req_le; exact Hc|].
    rewrite samplePrompt_score, (Rmax_right 0.1 0.3) by lra.
    simpl confidenceSteepness. simpl confidenceThreshold.
    pose proof sigmoid_3_6_below_0_99.
    apply Rmax_lub_lt; lra.
  - rewrite Hasked in Hrest. destruct Hrest as (Hc & Ht & Hrank).
    split; [apply Hm; by eexists|]. split; [exact Hc|].
    destruct Ht as [Ht|Ht]; [exact Ht|].
    rewrite Ht in Hrank. simpl in Hrank. lia.
Defined.

End RouterMore.

(** ** Structured-output detection *)

Module StructuredOutput.
Import JS Regex RegexSpec RegexFacts Router Directive DirectiveSpec DirectiveFacts.
Import RouterMoreSpec.

(** A position at which the expression matches makes [test] succeed. *)
Lemma execFrom_found r a tail prev :
  rmatch r (lastOr prev a) tail <> [] -> execFrom r prev (a ++ tail) <> None.
Proof.
  revert prev. induction a as [|c a IH]; intros prev H; rewrite execFrom_eq.
  - rewrite lastOr_nil in H. unfold matchHere. cbn [app].
    destruct (rmatch r prev tail); done.
  - cbn [app]. destruct (matchHere r prev (c :: a ++ tail)); [done|].
    rewrite lastOr_cons in H. specialize (IH (Some c) H).
    destruct (execFrom r (Some c) (a ++ tail)) as [[[? ?] ?]|]; done.
Qed.

Lemma in_rmatch_Seq r1 r2 prev s st1 st2 :
  In st1 (rmatch r1 prev s) ->
  In st2 (rmatch r2 (fst st1) (snd st1)) ->
  In st2 (rmatch (Seq r1 r2) prev s).
Proof. intros H1 H2. cbn [rmatch]. apply in_flat_map. by exists st1. Qed.

Lemma in_rmatch_WordB r prev s st :
  xorb (isWordOpt prev) (isWordOpt (head s)) = true ->
  In st (rmatch r prev s) ->
  In st (rmatch (Seq WordB r) prev s).
Proof. intros Hx H. by rewrite rmatch_Seq_WordB, Hx. Qed.

Lemma in_rmatch_LitCI w u a rest :
  spells w u -> In (last (a ++ u), rest) (rmatch (LitCI w) (last a) (u ++ rest)).
Proof.
  intros H. revert a. induction H as [|p c w u Hpc H IH]; intros a.
  - rewrite app_nil_r. by left.
  - cbn [LitCI]. rewrite rmatch_Seq_Chr. cbn [app]. rewrite Hpc.
    specialize (IH (a ++ [c])). rewrite last_snoc, <- app_assoc in IH. exact IH.
Qed.

Lemma in_rmatch_AltOf rs r prev s st :
  In r rs -> In st (rmatch r prev s) -> In st (rmatch (AltOf rs) prev s).
Proof.
  induction rs as [|r0 rs IH]; [done|].
  intros [->|Hin] Hst.
  - destruct rs; [done|]. cbn [AltOf rmatch]. apply in_or_app. by left.
  - destruct rs as [|r1 rs]; [done|]. cbn [AltOf rmatch]. apply in_or_app. right.
    by apply IH.
Qed.

Lemma in_star_Dot fuel y rest prev :
  length y <= fuel ->
  Forall (fun c => isLineTerminator c = false) y ->
  In (lastOr prev y, rest) (star_iter (rmatch Dot) fuel prev (y ++ rest)).
Proof.
  revert fuel prev. induction y as [|c y IH]; intros fuel prev Hlen Hy.
  - rewrite lastOr_nil. destruct fuel; [by left|].
    rewrite star_iter_S. apply in_or_app. right. by left.
  - destruct fuel as [|fuel]; [simpl in Hlen; lia|].
    apply Forall_cons in Hy as [Hc Hy].
    rewrite star_iter_S. apply in_or_app. left.
    cbn [app rmatch Dot]. rewrite Hc. cbn [negb List.flat_map fst snd].
    rewrite app_nil_r.
    assert (Hlt : (length (y ++ rest) <? length (c :: y ++ rest)) = true)
      by (apply Nat.ltb_lt; simpl; lia).
    rewrite Hlt, lastOr_cons. apply IH; [simpl in Hlen; lia|done].
Qed.

(** A code unit that matches a lower-case letter of a pattern is a letter. *)
Lemma eqCI_lower_word p c : isLower p = true -> eqCI p c = true -> isWordChar c = true.
Proof.
  unfold eqCI, asciiUpper, isLower, between. intros Hp H.
  apply andb_true_iff in Hp as [Hp1 Hp2]. apply N.leb_le in Hp1, Hp2.
  apply andb_true_iff in H as [Hc H]. apply N.ltb_lt in Hc.
  revert H. unfold isWordChar, isDigit, isUpper, isLower, between.
  split_comparisons; simpl in *; intros Heq; try reflexivity;
    try discriminate Heq; exfalso; lia.
Qed.

Lemma spells_lower_words w u :
  Forall (fun p => isLower p = true) w -> spells w u ->
  Forall (fun c => isWordChar c = true) u.
Proof.
  intros Hw H. induction H as [|p c w u Hpc H IH]; [constructor|].
  apply Forall_cons in Hw as [Hp Hw].
  constructor; [by apply (eqCI_lower_word p c) | by apply IH].
Qed.

(** What the two word classes of the expression have in common. *)
Lemma word_class ws u a rest :
  Forall (fun w => w <> [] /\ Forall (fun p => isLower p = true) w) ws ->
  spellsOneOf ws u ->
  u <> []
  /\ Forall (fun c => isWordChar c = true) u
  /\ In (last (a ++ u), rest)
       (rmatch (AltOf (List.map LitCI ws)) (last a) (u ++ rest)).
Proof.
  intros Hws (w & Hin & Hsp).
  rewrite Forall_forall in Hws.
  destruct (Hws w) as [Hne Hlow]; [by apply list_elem_of_In|].
  split; [|split].
  - destruct Hsp; done.
  - by apply (spells_lower_words w).
  - apply (in_rmatch_AltOf _ (LitCI w)); [by apply in_map|by apply in_rmatch_LitCI].
Qed.

Lemma head_app_ne {A} (x y : list A) : x <> [] -> head (x ++ y) = head x.
Proof. by destruct x. Qed.

Lemma last_app_ne {A} (x y : list A) : y <> [] -> last (x ++ y) = last y.
Proof.
  intros H. destruct y as [|c y _] using rev_ind; [done|].
  by rewrite app_assoc, !last_snoc.
Qed.

Lemma word_head u rest :
  u <> [] -> Forall (fun c => isWordChar c = true) u -> isWordOpt (head (u ++ rest)) = true.
Proof. intros Hne Hu. destruct u as [|c u]; [done|]. by apply Forall_cons in Hu as [Hc _]. Qed.

(** One branch of the expression: [\bR1\b.*\bR2\b]. *)
Lemma branch_matches R1 R2 a u1 y u2 z :
  (forall a rest, In (last (a ++ u1), rest) (rmatch R1 (last a) (u1 ++ rest))) ->
  (forall a rest, In (last (a ++ u2), rest) (rmatch R2 (last a) (u2 ++ rest))) ->
  u1 <> [] -> Forall (fun c => isWordChar c = true) u1 ->
  u2 <> [] -> Forall (fun c => isWordChar c = true) u2 ->
  wordsOnOneLine a u1 y u2 z ->
  rmatch (Seq WordB (Seq R1 (Seq WordB (Seq (Star Dot) (Seq WordB (Seq R2 WordB))))))
    (last a) (u1 ++ y ++ u2 ++ z) <> [].
Proof.
  intros H1 H2 Hn1 Hw1 Hn2 Hw2 (Ha & Hy & Hyh & Hyl & Hline & Hz).
  assert (Hin : In (last (a ++ u1 ++ y ++ u2), z)
                  (rmatch (Seq WordB (Seq R1 (Seq WordB (Seq (Star Dot)
                             (Seq WordB (Seq R2 WordB))))))
                     (last a) (u1 ++ y ++ u2 ++ z))).
  { apply in_rmatch_WordB.
    { by rewrite Ha, (word_head u1 _ Hn1 Hw1). }
    eapply in_rmatch_Seq; [apply H1|]. cbn [fst snd].
    apply in_rmatch_WordB.
    { by rewrite (last_word a u1 Hw1 Hn1), (head_app_ne y _ Hy), Hyh. }
    eapply in_rmatch_Seq.
    { rewrite rmatch_Star. apply (in_star_Dot _ y (u2 ++ z)); [|exact Hline].
      rewrite length_app. lia. }
    cbn [fst snd]. rewrite lastOr_last.
    apply in_rmatch_WordB.
    { rewrite (last_app_ne (a ++ u1) y Hy), Hyl. by rewrite (word_head u2 _ Hn2 Hw2). }
    eapply in_rmatch_Seq.
    { rewrite <- (app_assoc a u1 y) at 1. rewrite app_assoc. apply H2. }
    cbn [fst snd]. cbn [rmatch].
    replace ((a ++ u1) ++ y) with (a ++ u1 ++ y) by by rewrite app_assoc.
    replace (((a ++ u1 ++ y)) ++ u2) with (a ++ u1 ++ y ++ u2)
      by by rewrite <- !app_assoc.
    assert (Hl : isWordOpt (last (a ++ u1 ++ y ++ u2)) = true).
    { rewrite !app_assoc. by apply last_word. }
    rewrite Hl, Hz. by left. }
  intros E. by rewrite E in Hin.
Qed.

(** X19.  Structured-output detection.  A prompt in which a format word (json,
    yaml, xml, csv) and an output word (format, output, respond, return)
    stand on one line, in either order and in any letter case, each as a
    whole word and separated by text that begins and ends with a non-word
    character, is recognised by the expression [route] tests. *)
Theorem structured_output_detected a u1 y u2 z :
  (spellsOneOf formatWordList u1 /\ spellsOneOf outputWordList u2)
  \/ (spellsOneOf outputWordList u1 /\ spellsOneOf formatWordList u2) ->
  wordsOnOneLine a u1 y u2 z ->
  test structuredOutputRegex (a ++ u1 ++ y ++ u2 ++ z) = true.
Proof.
  intros Hwords Hline.
  assert (HF : Forall (fun w => w <> [] /\ Forall (fun p => isLower p = true) w)
                 formatWordList)
    by (repeat constructor; discriminate).
  assert (HO : Forall (fun w => w <> [] /\ Forall (fun p => isLower p = true) w)
                 outputWordList)
    by (repeat constructor; discriminate).
  assert (Hfound : rmatch structuredOutputRegex (lastOr None a) (u1 ++ y ++ u2 ++ z) <> []).
  { rewrite lastOr_None. unfold structuredOutputRegex. cbn [rmatch].
    intros E. apply app_eq_nil in E as [E1 E2].
    destruct Hwords as [[Hf Ho]|[Ho Hf]].
    - destruct (word_class formatWordList u1 [] [] HF Hf) as (Hn1 & Hw1 & _).
      destruct (word_class outputWordList u2 [] [] HO Ho) as (Hn2 & Hw2 & _).
      revert E1. apply (branch_matches formatWords outputWords); try done.
      + intros a' rest. by apply (word_class formatWordList u1 a' rest HF Hf).
      + intros a' rest. by apply (word_class outputWordList u2 a' rest HO Ho).
    - destruct (word_class outputWordList u1 [] [] HO Ho) as (Hn1 & Hw1 & _).
      destruct (word_class formatWordList u2 [] [] HF Hf) as (Hn2 & Hw2 & _).
      revert E2. apply (branch_matches outputWords formatWords); try done.
      + intros a' rest. by apply (word_class outputWordList u1 a' rest HO Ho).
      + intros a' rest. by apply (word_class formatWordList u2 a' rest HF Hf). }
  unfold test, exec.
  pose proof (execFrom_found structuredOutputRegex a _ None Hfound) as H.
  by destruct (execFrom structuredOutputRegex None (a ++ u1 ++ y ++ u2 ++ z)).
Qed.

(** *** Sample run *)

Lemma structured_output_detected_witness :
  test structuredOutputRegex (lit "Please RETURN the list as Json.") = true.
Proof.
  apply (structured_output_detected (lit "Please ") (lit "RETURN") (lit " the list as ")
           (lit "Json") (lit ".")).
  - right. split; [exists (lit "return")|exists (lit "json")];
      (split; [simpl; tauto|repeat constructor]).
  - unfold wordsOnOneLine. repeat split; try reflexivity; try discriminate.
    repeat constructor.
Defined.

End StructuredOutput.
(** ** Binary64 arithmetic *)

Module Binary64Facts.
Import SpecFloat Binary64 Binary64Spec.

Local Open Scope Z_scope.

(** *** The number of bits of a significand *)

Lemma digits2_pos_size p : digits2_pos p = Pos.size p.
Proof. induction p; simpl; congruence. Qed.

Lemma digits_upper (p : positive) : Zpos p < 2 ^ Zpos (digits2_pos p).
Proof.
  rewrite digits2_pos_size. pose proof (Pos.size_gt p) as Hgt.
  apply Pos2Z.pos_lt_pos in Hgt. now rewrite Pos2Z.inj_pow in Hgt.
Qed.

Lemma digits_lower (p : positive) : 2 ^ (Zpos (digits2_pos p) - 1) <= Zpos p.
Proof.
  rewrite digits2_pos_size. pose proof (Pos.size_le p) as Hle.
  apply Pos2Z.pos_le_pos in Hle. rewrite Pos2Z.inj_pow in Hle.
  change (Z.pos p~0) with (2 * Z.pos p) in Hle.
  set (s := Z.pos (Pos.size p)) in *.
  assert (Hs : 0 < s) by (unfold s; lia).
  replace s with (Z.succ (s - 1)) in Hle by lia.
  rewrite Z.pow_succ_r in Hle by lia. lia.
Qed.

Lemma digits_range (p : positive) (d : Z) :
  0 < d -> 2 ^ (d - 1) <= Zpos p < 2 ^ d -> Zpos (digits2_pos p) = d.
Proof.
  intros Hd [Hlo Hhi].
  pose proof (digits_upper p) as Hu. pose proof (digits_lower p) as Hl.
  set (s := Zpos (digits2_pos p)) in *.
  assert (Hs : 0 < s) by (unfold s; lia).
  destruct (Z.lt_trichotomy s d) as [H|[H|H]]; [|exact H|].
  - exfalso. assert (2 ^ s <= 2 ^ (d - 1)) by (apply Z.pow_le_mono_r; lia). lia.
  - exfalso. assert (2 ^ d <= 2 ^ (s - 1)) by (apply Z.pow_le_mono_r; lia). lia.
Qed.

(** A canonical finite number: its exponent is in range, its significand
    has at most 53 bits, and exactly 53 above the least exponent. *)
Lemma valid_finite s m ex :
  valid (S754_finite s m ex) ->
  -1074 <= ex <= 971 /\ Zpos m < 2 ^ 53 /\ (-1074 < ex -> 2 ^ 52 <= Zpos m).
Proof.
  unfold valid, valid_binary, bounded, canonical_mantissa, fexp, emin, prec, emax.
  intros H. apply andb_true_iff in H as [Hc He].
  apply Z.eqb_eq in Hc. apply Z.leb_le in He.
  pose proof (digits_upper m) as Hu. pose proof (digits_lower m) as Hl.
  set (d := Zpos (digits2_pos m)) in *.
  assert (Hd : 0 < d) by (unfold d; lia).
  split; [lia|]. split.
  - assert (d <= 53) by lia.
    assert (2 ^ d <= 2 ^ 53) by (apply Z.pow_le_mono_r; lia). lia.
  - intros Hex. assert (d = 53) as Hd53 by lia. rewrite Hd53 in Hl. exact Hl.
Qed.

(** *** Shifting a significand to the right *)

Lemma iter_pos_nat {A} (f : A -> A) p x : iter_pos f p x = Nat.iter (Pos.to_nat p) f x.
Proof.
  revert x. induction p as [p IHp|p IHp|]; intros x.
  - change (iter_pos f p~1 x) with (iter_pos f p (iter_pos f p (f x))).
    rewrite !IHp. rewrite <- Nat.iter_add. rewrite <- Nat.iter_succ_r. f_equal. lia.
  - change (iter_pos f p~0 x) with (iter_pos f p (iter_pos f p x)).
    rewrite !IHp. rewrite <- Nat.iter_add. f_equal. lia.
  - reflexivity.
Qed.

Lemma shr_1_m mrs : 0 <= shr_m mrs -> shr_m (shr_1 mrs) = Z.div2 (shr_m mrs).
Proof.
  destruct mrs as [m r s]. simpl. intros H.
  destruct m as [|[p|p|]|p]; try reflexivity; lia.
Qed.

Lemma shr_1_r mrs : 0 <= shr_m mrs -> shr_r (shr_1 mrs) = Z.odd (shr_m mrs).
Proof.
  destruct mrs as [m r s]. simpl. intros H.
  destruct m as [|[p|p|]|p]; try reflexivity; lia.
Qed.

Lemma iter_shr_m n mrs :
  0 <= shr_m mrs ->
  shr_m (Nat.iter n shr_1 mrs) = Z.shiftr (shr_m mrs) (Z.of_nat n).
Proof.
  intros H. induction n.
  - simpl. now rewrite Z.shiftr_0_r.
  - rewrite Nat2Z.inj_succ. simpl Nat.iter.
    replace (Z.succ (Z.of_nat n)) with (Z.of_nat n + 1) by lia.
    rewrite shr_1_m.
    + rewrite IHn. rewrite Z.div2_spec. rewrite Z.shiftr_shiftr by lia. reflexivity.
    + rewrite IHn. apply Z.shiftr_nonneg. exact H.
Qed.

Lemma iter_shr_r n mrs :
  0 <= shr_m mrs ->
  shr_r (Nat.iter (S n) shr_1 mrs) = Z.testbit (shr_m mrs) (Z.of_nat n).
Proof.
  intros H. simpl Nat.iter. rewrite shr_1_r.
  - rewrite iter_shr_m by exact H.
    rewrite <- Z.bit0_odd. rewrite Z.shiftr_spec by lia. f_equal.
  - rewrite iter_shr_m by exact H. apply Z.shiftr_nonneg. exact H.
Qed.

Lemma shr_m_of_loc m l : shr_m (shr_record_of_loc m l) = m.
Proof. destruct l as [|[]]; reflexivity. Qed.

Lemma shr_zero mrs e : shr mrs e 0 = (mrs, e).
Proof. reflexivity. Qed.

Lemma iter_xO p d : Zpos (Pos.iter xO p d) = Zpos p * 2 ^ Zpos d.
Proof.
  induction d as [|d IH] using Pos.peano_ind.
  - simpl. lia.
  - rewrite Pos.iter_succ. rewrite Pos2Z.inj_xO, IH.
    rewrite Pos2Z.inj_succ, Z.pow_succ_r by lia. lia.
Qed.

(** *** Rounding to nearest, ties to even *)

Lemma fexp_normal d e :
  -1074 <= e -> fexp prec emax (d + e) - e = Z.max (d - 53) (-1074 - e).
Proof. unfold fexp, emin, prec, emax. lia. Qed.

Lemma round_nearest_even_range q l :
  q <= round_nearest_even q l <= q + 1.
Proof.
  destruct l as [|[]]; simpl; try lia. destruct (Z.even q); lia.
Qed.

(** Rounding a significand that has 53 bits after the shift: the result
    keeps the exponent, unless the significand is rounded up to [2 ^ 53]. *)
Lemma binary_round_aux_normal mx ex lx mrs e :
  shr_fexp prec emax mx ex lx = (mrs, e) ->
  2 ^ 52 <= shr_m mrs < 2 ^ 53 -> -1074 <= e <= 970 ->
  (exists q, binary_round_aux prec emax false mx ex lx = S754_finite false q e
             /\ Zpos q = round_nearest_even (shr_m mrs) (loc_of_shr_record mrs)
             /\ Zpos q < 2 ^ 53)
  \/ (round_nearest_even (shr_m mrs) (loc_of_shr_record mrs) = 2 ^ 53
      /\ binary_round_aux prec emax false mx ex lx = S754_finite false (2 ^ 52) (e + 1)).
Proof.
  intros Hs Hq He. unfold binary_round_aux. rewrite Hs.
  pose proof (round_nearest_even_range (shr_m mrs) (loc_of_shr_record mrs)) as Hr.
  set (q' := round_nearest_even (shr_m mrs) (loc_of_shr_record mrs)) in *.
  destruct (Z.eq_dec q' (2 ^ 53)) as [Heq|Hne].
  - right. split; [exact Heq|]. rewrite Heq. unfold shr_fexp.
    change (Zdigits2 (2 ^ 53)) with 54.
    rewrite fexp_normal by lia.
    replace (Z.max (54 - 53) (-1074 - e)) with 1 by lia.
    simpl.
    replace (e + 1 <=? emax - prec) with true
      by (symmetry; apply Z.leb_le; unfold emax, prec; lia).
    reflexivity.
  - left. assert (Hq' : 2 ^ 52 <= q' < 2 ^ 53) by lia.
    destruct q' as [|p|p] eqn:Ep; try lia.
    exists p. unfold shr_fexp. simpl Zdigits2.
    rewrite (digits_range p 53) by lia.
    rewrite fexp_normal by lia.
    replace (Z.max (53 - 53) (-1074 - e)) with 0 by lia.
    rewrite shr_zero. simpl shr_m.
    replace (e <=? emax - prec) with true
      by (symmetry; apply Z.leb_le; unfold emax, prec; lia).
    split; [reflexivity|]. split; [reflexivity|lia].
Qed.

(** *** The quotient of 1 by a number from 1 to 2 *)

Lemma div_one_range s : inOneTwo s -> inHalfOne (div one s).
Proof.
  intros [(q & -> & Hq)| ->]; [|left; exists (2 ^ 52)%positive; split; [reflexivity|lia]].
  destruct (Z.eq_dec (Zpos q) (2 ^ 52)) as [Heq|Hne].
  { right. assert (q = (2 ^ 52)%positive) as -> by lia. reflexivity. }
  unfold div, one, SFdiv, SFdiv_core_binary.
  change (Zdigits2 (Z.pos 4503599627370496)) with 53.
  simpl Zdigits2. rewrite (digits_range q 53) by lia.
  change (Z.min (fexp prec emax (53 + -52 - (53 + -52))) (-52 - -52)) with (-53).
  change (-52 - -52 - -53) with 53.
  change (Z.shiftl (Z.pos 4503599627370496) 53) with (2 ^ 105).
  pose proof (Z_div_mod (2 ^ 105) (Zpos q) ltac:(lia)) as Hdiv.
  destruct (Z.div_eucl (2 ^ 105) (Z.pos q)) as [qq r].
  destruct Hdiv as [Hd Hr].
  assert (Hqq : 2 ^ 52 <= qq < 2 ^ 53).
  { change (2 ^ 105) with (2 ^ 52 * 2 ^ 53) in Hd. nia. }
  simpl xorb.
  destruct (binary_round_aux_normal qq (-53) (new_location (Zpos q) r)
              (shr_record_of_loc qq (new_location (Zpos q) r)) (-53))
    as [(q' & -> & Hq' & Hlt)|[_ ->]].
  - unfold shr_fexp.
    destruct qq as [|p|p]; try lia. simpl Zdigits2.
    rewrite (digits_range p 53) by lia. reflexivity.
  - rewrite shr_m_of_loc. exact Hqq.
  - lia.
  - left. exists q'. split; [reflexivity|].
    pose proof (round_nearest_even_range
                  (shr_m (shr_record_of_loc qq (new_location (Zpos q) r)))
                  (loc_of_shr_record (shr_record_of_loc qq (new_location (Zpos q) r))))
      as Hrr.
    rewrite shr_m_of_loc in Hrr, Hq'. lia.
  - right. reflexivity.
Qed.

Lemma inHalfOne_le c : inHalfOne c -> le half c = true /\ le c one = true.
Proof.
  intros [(q & -> & Hq)| ->]; [|split; reflexivity].
  unfold le, SFleb, half, one, SFcompare. simpl Z.compare.
  rewrite Pos.compare_cont_spec. simpl.
  destruct (Pos.compare_spec 4503599627370496 q) as [H|H|H]; try (split; reflexivity).
  exfalso. apply Pos2Z.pos_lt_pos in H. lia.
Qed.

(** *** The sum of 1 and a number from 0 to 1 *)

(** The sum of 1 and a positive number below 1, before rounding. *)
Lemma add_one_small m ex :
  -1074 <= ex < -52 -> Zpos m < 2 ^ 53 ->
  let n := - 52 - ex in
  let M := 2 ^ (52 + n) + Zpos m in
  exists mrs,
    add one (S754_finite false m ex) = binary_round_aux prec emax false M ex loc_Exact
    /\ shr_fexp prec emax M ex loc_Exact = (mrs, -52)
    /\ shr_m mrs = M / 2 ^ n
    /\ shr_r mrs = Z.testbit M (n - 1).
Proof.
  intros Hex Hm n M.
  assert (Hn : 0 < n) by (unfold n; lia).
  destruct n as [|d|d] eqn:En; try lia.
  assert (Hpow : 2 ^ 53 <= 2 ^ (52 + Zpos d)) by (apply Z.pow_le_mono_r; lia).
  assert (HM : 2 ^ (52 + Zpos d) <= M < 2 ^ (53 + Zpos d)).
  { unfold M. replace (53 + Zpos d) with (Z.succ (52 + Zpos d)) by lia.
    rewrite Z.pow_succ_r by lia. lia. }
  assert (HMpos : 0 < M) by lia.
  destruct M as [|pM|pM] eqn:EM; try lia.
  assert (Hdig : Zpos (digits2_pos pM) = 53 + Zpos d).
  { apply digits_range; [lia|].
    replace (53 + Zpos d - 1) with (52 + Zpos d) by lia. exact HM. }
  exists (iter_pos shr_1 d (shr_record_of_loc (Zpos pM) loc_Exact)).
  assert (Hshr : shr_fexp prec emax (Z.pos pM) ex loc_Exact
                 = (iter_pos shr_1 d (shr_record_of_loc (Zpos pM) loc_Exact), -52)).
  { unfold shr_fexp. simpl Zdigits2. rewrite Hdig.
    replace (53 + Zpos d + ex) with 1 by lia.
    change (fexp prec emax 1) with (-52).
    replace (-52 - ex) with (Zpos d) by lia.
    unfold shr. f_equal. lia. }
  split; [|split; [exact Hshr|split]].
  - unfold add, one, SFadd.
    replace (Z.min (-52) ex) with ex by lia.
    unfold shl_align at 1. replace (ex - -52) with (Zneg d) by lia.
    unfold shl_align. rewrite Z.sub_diag. simpl fst.
    simpl cond_Zopp.
    assert (HA : Z.pos (Pos.iter xO 4503599627370496%positive d) + Z.pos m = Zpos pM).
    { rewrite iter_xO. rewrite <- EM.
      change (Z.pos 4503599627370496) with (2 ^ 52).
      rewrite <- Z.pow_add_r by lia. reflexivity. }
    rewrite HA. unfold binary_normalize, binary_round.
    rewrite Hdig. replace (53 + Zpos d + ex) with 1 by lia.
    change (fexp prec emax 1) with (-52).
    unfold shl_align. replace (-52 - ex) with (Zpos d) by lia. reflexivity.
  - rewrite iter_pos_nat. rewrite iter_shr_m by (simpl; lia).
    simpl shr_m. rewrite positive_nat_Z. rewrite Z.shiftr_div_pow2 by lia. reflexivity.
  - rewrite iter_pos_nat.
    destruct (Pos2Nat.is_succ d) as [k Hk]. rewrite Hk.
    rewrite iter_shr_r by (simpl; lia). simpl shr_m. f_equal. lia.
Qed.

Lemma le_one_finite m ex :
  valid (S754_finite false m ex) -> le (S754_finite false m ex) one = true ->
  ex < -52 \/ S754_finite false m ex = one.
Proof.
  intros Hv Hle. apply valid_finite in Hv as (He & Hm & Hn).
  unfold le, SFleb, one, SFcompare in Hle.
  destruct (Z.compare_spec ex (-52)) as [Heq|Hlt|Hgt]; [|left; exact Hlt|discriminate].
  right. subst ex. rewrite Pos.compare_cont_spec in Hle. simpl in Hle.
  destruct (Pos.compare_spec m 4503599627370496%positive) as [H|H|H]; try discriminate.
  - now subst.
  - exfalso. apply Pos2Z.pos_lt_pos in H. specialize (Hn ltac:(lia)). lia.
Qed.

Lemma add_one_range e : unitRange e -> inOneTwo (add one e).
Proof.
  intros (Hv & H0 & H1).
  destruct e as [s|s| |s m ex]; try discriminate.
  - left. exists (2 ^ 52)%positive. split; [destruct s; reflexivity|lia].
  - destruct s; try discriminate.
  - destruct s; [discriminate|].
    destruct (le_one_finite m ex Hv H1) as [Hex| ->]; [|right; reflexivity].
    apply valid_finite in Hv as (He & Hm & _).
    destruct (add_one_small m ex ltac:(lia) Hm) as (mrs & -> & Hshr & Hq & _).
    set (n := -52 - ex) in *. set (M := 2 ^ (52 + n) + Z.pos m) in *.
    assert (Hn : 0 < n) by (unfold n; lia).
    assert (Hpow : 2 ^ 53 <= 2 ^ (52 + n)) by (apply Z.pow_le_mono_r; lia).
    assert (HM : 2 ^ 52 * 2 ^ n <= M < 2 ^ 53 * 2 ^ n).
    { rewrite <- !Z.pow_add_r by lia. unfold M.
      replace (53 + n) with (Z.succ (52 + n)) by lia.
      rewrite Z.pow_succ_r by lia. lia. }
    assert (Hp : 0 < 2 ^ n) by (apply Z.pow_pos_nonneg; lia).
    assert (Hrange : 2 ^ 52 <= shr_m mrs < 2 ^ 53).
    { rewrite Hq. split.
      - apply Z.div_le_lower_bound; lia.
      - apply Z.div_lt_upper_bound; lia. }
    destruct (binary_round_aux_normal M ex loc_Exact mrs (-52) Hshr Hrange ltac:(lia))
      as [(q & -> & Hq' & Hlt)|[_ ->]].
    + left. exists q. split; [reflexivity|].
      pose proof (round_nearest_even_range (shr_m mrs) (loc_of_shr_record mrs)). lia.
    + right. reflexivity.
Qed.

Lemma le_tiny_finite m ex :
  valid (S754_finite false m ex) -> le (S754_finite false m ex) tiny = true ->
  -1074 <= ex <= -106 /\ Zpos m <= 2 ^ (-106 - ex + 52).
Proof.
  intros Hv Hle. apply valid_finite in Hv as (He & Hm & Hn).
  unfold le, SFleb, tiny, SFcompare in Hle.
  destruct (Z.compare_spec ex (-106)) as [Heq|Hlt|Hgt]; [| |discriminate].
  - subst ex. rewrite Pos.compare_cont_spec in Hle. simpl in Hle.
    split; [lia|]. change (2 ^ (-106 - -106 + 52)) with (Zpos (2 ^ 52)).
    destruct (Pos.compare_spec m (2 ^ 52)) as [H|H|H]; try discriminate.
    + subst. lia.
    + apply Pos2Z.pos_lt_pos in H. lia.
  - split; [lia|].
    assert (2 ^ 53 <= 2 ^ (-106 - ex + 52)) by (apply Z.pow_le_mono_r; lia). lia.
Qed.

(** Adding a number of at most [2 ^ -54] to 1 leaves 1. *)
Lemma add_one_tiny e :
  valid e -> le zero e = true -> le e tiny = true -> add one e = one.
Proof.
  intros Hv H0 H1.
  destruct e as [s|s| |s m ex]; try discriminate.
  - destruct s; reflexivity.
  - destruct s; discriminate.
  - destruct s; [discriminate|].
    destruct (le_tiny_finite m ex Hv H1) as [Hex Hm].
    apply valid_finite in Hv as (He & Hm53 & _).
    destruct (add_one_small m ex ltac:(lia) Hm53) as (mrs & -> & Hshr & Hq & Hr).
    set (n := -52 - ex) in *. set (M := 2 ^ (52 + n) + Z.pos m) in *.
    replace (-106 - ex + 52) with (n - 2) in Hm by (unfold n; lia).
    assert (Hn : 54 <= n) by (unfold n; lia).
    assert (Hp1 : 0 < 2 ^ (n - 2)) by (apply Z.pow_pos_nonneg; lia).
    assert (Hn1 : 2 ^ (n - 1) = 2 * 2 ^ (n - 2)).
    { replace (n - 1) with (Z.succ (n - 2)) by lia. rewrite Z.pow_succ_r by lia.
      reflexivity. }
    assert (Hn0 : 2 ^ n = 2 * 2 ^ (n - 1)).
    { replace n with (Z.succ (n - 1)) at 1 by lia. rewrite Z.pow_succ_r by lia.
      reflexivity. }
    assert (HqM : M / 2 ^ n = 2 ^ 52).
    { symmetry. apply (Z.div_unique M (2 ^ n) (2 ^ 52) (Zpos m)); [lia|].
      unfold M. rewrite Z.pow_add_r by lia. lia. }
    assert (Hbit : Z.testbit M (n - 1) = false).
    { rewrite Z.testbit_eqb by lia.
      assert (M / 2 ^ (n - 1) = 2 ^ 53) as ->.
      { symmetry. apply (Z.div_unique M (2 ^ (n - 1)) (2 ^ 53) (Zpos m)); [lia|].
        unfold M. replace (52 + n) with (53 + (n - 1)) by lia.
        rewrite Z.pow_add_r by lia. lia. }
      reflexivity. }
    assert (Hrange : 2 ^ 52 <= shr_m mrs < 2 ^ 53) by (rewrite Hq, HqM; lia).
    assert (Hrne : round_nearest_even (shr_m mrs) (loc_of_shr_record mrs) = 2 ^ 52).
    { rewrite Hq, HqM. destruct mrs as [mm r s]. simpl in Hr. rewrite Hr, Hbit.
      destruct s; reflexivity. }
    destruct (binary_round_aux_normal M ex loc_Exact mrs (-52) Hshr Hrange ltac:(lia))
      as [(q & -> & Hq' & Hlt)|[Habs _]].
    + rewrite Hrne in Hq'. assert (q = (2 ^ 52)%positive) as -> by lia. reflexivity.
    + rewrite Hrne in Habs. discriminate.
Qed.

End Binary64Facts.

Module Binary64Order.
Import SpecFloat Binary64 Binary64Spec Binary64Facts.

Local Open Scope Z_scope.

(** *** Signs *)

Lemma shr_fexp_nonneg m e l :
  0 <= m -> 0 <= shr_m (fst (shr_fexp prec emax m e l)).
Proof.
  intros Hm. unfold shr_fexp, shr.
  destruct (fexp prec emax (Zdigits2 m + e) - e) as [|p|p]; simpl fst;
    try (rewrite shr_m_of_loc; exact Hm).
  rewrite iter_pos_nat, iter_shr_m by (rewrite shr_m_of_loc; exact Hm).
  apply Z.shiftr_nonneg. rewrite shr_m_of_loc. exact Hm.
Qed.

(** Rounding keeps the sign and never yields NaN. *)
Lemma binary_round_aux_signed sx mx ex lx :
  0 <= mx -> signed sx (binary_round_aux prec emax sx mx ex lx).
Proof.
  intros Hm. unfold binary_round_aux.
  pose proof (shr_fexp_nonneg mx ex lx Hm) as H1.
  destruct (shr_fexp prec emax mx ex lx) as [mrs' e']. simpl fst in H1.
  pose proof (round_nearest_even_range (shr_m mrs') (loc_of_shr_record mrs')) as Hr.
  pose proof (shr_fexp_nonneg (round_nearest_even (shr_m mrs') (loc_of_shr_record mrs'))
                e' loc_Exact ltac:(lia)) as H2.
  destruct (shr_fexp prec emax _ e' loc_Exact) as [mrs'' e'']. simpl fst in H2.
  destruct (shr_m mrs'') as [|p|p]; [reflexivity| |lia].
  destruct (e'' <=? emax - prec); reflexivity.
Qed.

Lemma binary_round_signed sx m e : signed sx (binary_round prec emax sx m e).
Proof.
  unfold binary_round.
  destruct (shl_align m e _) as [mz ez].
  apply binary_round_aux_signed. lia.
Qed.

Lemma signed_false_nonneg x : signed false x -> le zero x = true.
Proof. destruct x as [s|s| |s m e]; simpl; intros H; try subst s; done. Qed.

Lemma signed_true_nonpos x : signed true x -> le x zero = true.
Proof. destruct x as [s|s| |s m e]; simpl; intros H; try subst s; done. Qed.

Lemma binary_normalize_nonneg M e :
  0 <= M -> le zero (binary_normalize prec emax M e false) = true.
Proof.
  intros HM. destruct M as [|p|p]; [reflexivity| |lia].
  apply signed_false_nonneg. apply binary_round_signed.
Qed.

(** [-steepness * distance] is not positive. *)
Lemma mul_neg_nonpos k d :
  finite k = true -> lt zero k = true -> le zero d = true ->
  le (mul (neg k) d) zero = true.
Proof.
  intros Hf Hk Hd.
  destruct k as [sk|sk| |sk mk ek]; try discriminate.
  destruct sk; [discriminate|].
  destruct d as [sd|sd| |sd md ed]; try discriminate.
  - destruct sd; reflexivity.
  - destruct sd; [discriminate|reflexivity].
  - destruct sd; [discriminate|].
    apply signed_true_nonpos. unfold mul, neg, SFopp, SFmul.
    apply binary_round_aux_signed. lia.
Qed.

(** *** The order *)

Lemma SFcompare_antisym a b : SFcompare b a = option_map CompOpp (SFcompare a b).
Proof.
  destruct a as [sa|sa| |sa ma ea], b as [sb|sb| |sb mb eb]; simpl;
    try reflexivity; try (destruct sa; reflexivity); try (destruct sb; reflexivity);
    try (destruct sa, sb; reflexivity).
  pose proof (Pos.compare_cont_antisym ma mb Eq) as HP. simpl in HP.
  destruct sa, sb; try reflexivity.
  - rewrite (Z.compare_antisym ea eb).
    destruct (ea ?= eb); simpl; try reflexivity.
    rewrite <- HP. now rewrite CompOpp_involutive.
  - rewrite (Z.compare_antisym ea eb).
    destruct (ea ?= eb); simpl; try reflexivity.
    rewrite <- HP. reflexivity.
Qed.

Lemma lt_le a b : lt a b = true -> le a b = true.
Proof. unfold lt, le, SFltb, SFleb. destruct (SFcompare a b) as [[]|]; done. Qed.

Lemma lt_not_nan a b : lt a b = true -> isNaN a = false /\ isNaN b = false.
Proof. destruct a, b; simpl; try done. Qed.

Lemma le_not_nan a b : le a b = true -> isNaN a = false /\ isNaN b = false.
Proof. destruct a, b; simpl; try done. Qed.

Lemma not_lt_le a b :
  isNaN a = false -> isNaN b = false -> lt a b = false -> le b a = true.
Proof.
  intros Ha Hb. unfold lt, le, SFltb, SFleb. rewrite (SFcompare_antisym a b).
  destruct (SFcompare a b) as [[]|] eqn:E; simpl; try done.
  destruct a, b; simpl in *; done.
Qed.

Lemma shl_align_le m e e' :
  e' <= e -> Zpos (fst (shl_align m e e')) = Zpos m * 2 ^ (e - e').
Proof.
  intros H. unfold shl_align.
  destruct (e' - e) as [|p|p] eqn:E; simpl fst.
  - replace (e - e') with 0 by lia. lia.
  - lia.
  - rewrite iter_xO. f_equal. f_equal. lia.
Qed.

(** Canonical significands compare as the numbers do once they are
    brought to a common exponent. *)
Lemma aligned_le s1 m1 e1 s2 m2 e2 ez :
  valid (S754_finite s1 m1 e1) -> valid (S754_finite s2 m2 e2) ->
  ez <= e1 -> ez <= e2 ->
  e1 < e2 \/ (e1 = e2 /\ Zpos m1 <= Zpos m2) ->
  Zpos m1 * 2 ^ (e1 - ez) <= Zpos m2 * 2 ^ (e2 - ez).
Proof.
  intros H1 H2 Hz1 Hz2 H.
  apply valid_finite in H1 as (He1 & Hm1 & _).
  apply valid_finite in H2 as (He2 & _ & Hm2).
  assert (Hp : 0 < 2 ^ (e1 - ez)) by (apply Z.pow_pos_nonneg; lia).
  destruct H as [Hlt|[-> Hle]]; [|nia].
  replace (e2 - ez) with ((e2 - e1) + (e1 - ez)) by lia.
  rewrite Z.pow_add_r by lia.
  assert (2 ^ 1 <= 2 ^ (e2 - e1)) by (apply Z.pow_le_mono_r; lia).
  specialize (Hm2 ltac:(lia)).
  set (P := 2 ^ (e1 - ez)) in *. set (Q := 2 ^ (e2 - e1)) in *.
  change (2 ^ 1) with 2 in *.
  assert (Z.pos m1 * P <= 2 ^ 53 * P) by nia.
  assert (2 ^ 52 * (2 * P) <= Z.pos m2 * (Q * P)).
  { apply Z.mul_le_mono_nonneg; try lia. nia. }
  lia.
Qed.

(** A difference is not negative when the number taken away is not the
    larger one. *)
Lemma sub_nonneg a b :
  valid a -> valid b -> le b a = true -> finite a = true \/ finite b = true ->
  le zero (sub a b) = true.
Proof.
  intros Ha Hb Hle Hfin.
  destruct a as [sa|sa| |sa ma ea], b as [sb|sb| |sb mb eb];
    try discriminate;
    try (destruct Hfin; discriminate);
    try (destruct sa, sb; done);
    try (destruct sa; done);
    try (destruct sb; done).
  unfold sub, SFsub.
  set (ez := Z.min ea eb).
  assert (Hza : ez <= ea) by (unfold ez; lia).
  assert (Hzb : ez <= eb) by (unfold ez; lia).
  apply binary_normalize_nonneg.
  rewrite (shl_align_le ma ea ez Hza), (shl_align_le mb eb ez Hzb).
  assert (Hpa : 0 < 2 ^ (ea - ez)) by (apply Z.pow_pos_nonneg; lia).
  assert (Hpb : 0 < 2 ^ (eb - ez)) by (apply Z.pow_pos_nonneg; lia).
  unfold le, SFleb, SFcompare in Hle.
  destruct sa, sb; simpl cond_Zopp; try discriminate; [| nia |].
  - (* both negative *)
    assert (H : ea < eb \/ (ea = eb /\ Zpos ma <= Zpos mb)).
    { destruct (Z.compare_spec eb ea) as [Heq|Hlt|Hgt]; [right|discriminate|left; lia].
      split; [lia|]. rewrite Pos.compare_cont_spec in Hle. simpl in Hle.
      destruct (Pos.compare_spec mb ma) as [E|E|E]; try discriminate.
      - subst. lia.
      - apply Pos2Z.pos_lt_pos in E. lia. }
    pose proof (aligned_le true ma ea true mb eb ez Ha Hb Hza Hzb H). lia.
  - (* both positive *)
    assert (H : eb < ea \/ (eb = ea /\ Zpos mb <= Zpos ma)).
    { destruct (Z.compare_spec eb ea) as [Heq|Hlt|Hgt]; [right|left; lia|discriminate].
      split; [lia|]. rewrite Pos.compare_cont_spec in Hle. simpl in Hle.
      destruct (Pos.compare_spec mb ma) as [E|E|E]; try discriminate.
      - subst. lia.
      - apply Pos2Z.pos_lt_pos in E. lia. }
    pose proof (aligned_le false mb eb false ma ea ez Hb Ha Hzb Hza H). lia.
Qed.

(** *** [Math.min] and [Math.max] *)

Lemma Math_min_nonneg x y :
  le zero x = true -> le zero y = true -> le zero (Math_min x y) = true.
Proof.
  intros Hx Hy. unfold Math_min.
  destruct x as [[]|[]| |[] mx ex], y as [[]|[]| |[] my ey]; simpl in *; try done.
  destruct (ex ?= ey); try done. destruct (Pos.compare_cont Eq mx my); done.
Qed.

Lemma Math_max_nonneg x y :
  isNaN x = false -> le zero y = true -> le zero (Math_max x y) = true.
Proof.
  intros Hx Hy. unfold Math_max.
  destruct x as [[]|[]| |[] mx ex], y as [[]|[]| |[] my ey]; simpl in *; try done.
  destruct (ex ?= ey); try done. destruct (Pos.compare_cont Eq mx my); done.
Qed.

End Binary64Order.

(** ** The classifier over binary64 *)

Module Router64Facts.
Import JS Regex SpecFloat Binary64 Binary64Spec Binary64Facts Binary64Order.
Import Router64 Router64Spec.

Local Open Scope Z_scope.

Lemma finite_not_nan x : finite x = true -> isNaN x = false.
Proof. destruct x; done. Qed.

Section Rules64.

Variable toLowerCase : jsstring -> jsstring.
Variable numberToString : number -> jsstring.
Variable Math_exp : number -> number.

Abbreviation classifyByRules := (classifyByRules toLowerCase numberToString Math_exp).
Abbreviation calibrateConfidence := (calibrateConfidence Math_exp).
Abbreviation keywordMatches := (Router.keywordMatches toLowerCase).

(** The sigmoid of a distance that is not negative is a number from 1/2
    to 1. *)
Lemma calibrateConfidence_inHalfOne distance steepness :
  expWithinUnit Math_exp ->
  finite steepness = true -> lt zero steepness = true -> le zero distance = true ->
  inHalfOne (calibrateConfidence distance steepness).
Proof.
  intros Hexp Hf Hk Hd. unfold Router64.calibrateConfidence.
  change (ofZ 1) with one.
  apply div_one_range, add_one_range, Hexp, mul_neg_nonpos; assumption.
Qed.

(** Where [Math.exp] returns at most [2 ^ -54] the sigmoid is 1. *)
Lemma calibrateConfidence_one distance steepness :
  valid (Math_exp (mul (neg steepness) distance)) ->
  le zero (Math_exp (mul (neg steepness) distance)) = true ->
  le (Math_exp (mul (neg steepness) distance)) tiny = true ->
  calibrateConfidence distance steepness = one.
Proof.
  intros Hv H0 Ht. unfold Router64.calibrateConfidence.
  change (ofZ 1) with one.
  rewrite add_one_tiny by assumption. reflexivity.
Qed.

(** What [classifyByRules] returns on its two paths. *)
Lemma classifyByRules64_override prompt systemPrompt estimatedTokens config :
  (2 <= length (keywordMatches (toLowerCase prompt) (reasoningKeywords config)))%nat ->
  let r := classifyByRules prompt systemPrompt estimatedTokens config in
  tier r = Some Router.REASONING
  /\ confidence r =
       Math_max (calibrateConfidence (Math_max (score r) (decimal 3 1))
                   (confidenceSteepness config))
         (decimal 85 2).
Proof.
  intros H. unfold Router64.classifyByRules.
  apply Nat.leb_le in H. rewrite H.
  cbv beta iota zeta delta [tier confidence score]. split; reflexivity.
Qed.

Lemma classifyByRules64_boundary prompt systemPrompt estimatedTokens config :
  (length (keywordMatches (toLowerCase prompt) (reasoningKeywords config)) < 2)%nat ->
  let r := classifyByRules prompt systemPrompt estimatedTokens config in
  confidence r =
    calibrateConfidence (distanceFromBoundary (tierBoundaries config) (score r))
      (confidenceSteepness config).
Proof.
  intros H. unfold Router64.classifyByRules, distanceFromBoundary.
  apply Nat.leb_gt in H. rewrite H.
  set (w := weightedSum _ _).
  set (b := tierBoundaries config).
  destruct (lt w (simpleMedium b)) eqn:E1;
    [|destruct (lt w (mediumComplex b)) eqn:E2;
      [|destruct (lt w (complexReasoning b)) eqn:E3]];
    cbv beta iota zeta;
    match goal with
    | |- context [if lt ?c (confidenceThreshold config) then _ else _] =>
        destruct (lt c (confidenceThreshold config))
    end;
    cbv beta iota zeta delta [tier confidence score];
    rewrite ?E1, ?E2, ?E3; reflexivity.
Qed.

(** The score is the weighted sum on both paths. *)
Lemma classifyByRules64_score prompt systemPrompt estimatedTokens config :
  score (classifyByRules prompt systemPrompt estimatedTokens config)
  = weightedSum (dimensionWeights config)
      (dimensions toLowerCase numberToString
         (toLowerCase (default [] systemPrompt ++ lit " " ++ prompt))
         (toLowerCase prompt) prompt estimatedTokens config).
Proof.
  unfold Router64.classifyByRules.
  destruct (2 <=? length _)%nat; [reflexivity|].
  set (w := weightedSum _ _).
  set (b := tierBoundaries config).
  destruct (lt w (simpleMedium b));
    [|destruct (lt w (mediumComplex b)); [|destruct (lt w (complexReasoning b))]];
    cbv beta iota zeta;
    match goal with
    | |- context [if lt ?c (confidenceThreshold config) then _ else _] =>
        destruct (lt c (confidenceThreshold config))
    end; reflexivity.
Qed.

Lemma distanceFromBoundary_nonneg b w :
  finiteNumber (simpleMedium b) -> finiteNumber (mediumComplex b) ->
  finiteNumber (complexReasoning b) ->
  valid w -> isNaN w = false ->
  le zero (distanceFromBoundary b w) = true.
Proof.
  intros [V1 F1] [V2 F2] [V3 F3] Vw Nw. unfold distanceFromBoundary.
  pose proof (finite_not_nan _ F1) as N1.
  pose proof (finite_not_nan _ F2) as N2.
  pose proof (finite_not_nan _ F3) as N3.
  destruct (lt w (simpleMedium b)) eqn:E1.
  { apply sub_nonneg; auto using lt_le. }
  destruct (lt w (mediumComplex b)) eqn:E2.
  { apply Math_min_nonneg; apply sub_nonneg; auto using lt_le, not_lt_le. }
  destruct (lt w (complexReasoning b)) eqn:E3.
  { apply Math_min_nonneg; apply sub_nonneg; auto using lt_le, not_lt_le. }
  apply sub_nonneg; auto using not_lt_le.
Qed.

(** The larger of 0.85 and a number from 1/2 to 1. *)
Lemma Math_max_floor c :
  inHalfOne c ->
  le (decimal 5 1) (Math_max c (decimal 85 2)) = true
  /\ le (Math_max c (decimal 85 2)) (ofZ 1) = true
  /\ le (decimal 85 2) (Math_max c (decimal 85 2)) = true.
Proof.
  intros Hc. pose proof (inHalfOne_le c Hc) as [Hlo Hhi].
  assert (E : decimal 85 2 = S754_finite false 7656119366529843 (-53))
    by (vm_compute; reflexivity).
  rewrite E.
  destruct Hc as [(q & -> & Hq)| ->]; [|repeat split; reflexivity].
  unfold Math_max, SFcompare. simpl Z.compare. rewrite Pos.compare_cont_spec. simpl.
  destruct (Pos.compare_spec q 7656119366529843) as [Heq|Hlt|Hgt].
  - subst q. repeat split; reflexivity.
  - repeat split; reflexivity.
  - split; [exact Hlo|]. split; [exact Hhi|].
    change (Pos.switch_Eq Eq Gt) with Gt. cbv iota.
    unfold le, SFleb, SFcompare. simpl Z.compare. rewrite Pos.compare_cont_spec.
    apply Pos.compare_lt_iff in Hgt. rewrite Hgt. reflexivity.
Qed.

Lemma classifyByRules64_cases (prompt : jsstring) (config : ScoringConfig) :
  (2 <= length (keywordMatches (toLowerCase prompt) (reasoningKeywords config)))%nat
  \/ (length (keywordMatches (toLowerCase prompt) (reasoningKeywords config)) < 2)%nat.
Proof. lia. Qed.

(** C10, as amended.  Over binary64, with a [Math.exp] that stays within
    [[0, 1]] on arguments that are not positive, a finite positive
    steepness and finite tier boundaries: whenever the weighted score is a
    number, the confidence returned by [classifyByRules] is at least 1/2
    and at most 1; on the reasoning-override path it is at least 0.85. *)
Theorem classifyByRules_confidence_range
    prompt systemPrompt estimatedTokens config :
  expWithinUnit Math_exp ->
  finite (confidenceSteepness config) = true ->
  lt zero (confidenceSteepness config) = true ->
  finiteNumber (simpleMedium (tierBoundaries config)) ->
  finiteNumber (mediumComplex (tierBoundaries config)) ->
  finiteNumber (complexReasoning (tierBoundaries config)) ->
  let r := classifyByRules prompt systemPrompt estimatedTokens config in
  valid (score r) -> isNaN (score r) = false ->
  (le (decimal 5 1) (confidence r) = true /\ le (confidence r) (ofZ 1) = true)
  /\ ((2 <= length (keywordMatches (toLowerCase prompt) (reasoningKeywords config)))%nat ->
      le (decimal 85 2) (confidence r) = true).
Proof.
  intros Hexp Hf Hk H1 H2 H3 r Vw Nw.
  destruct (classifyByRules64_cases prompt config) as [Hov|Hbd].
  - destruct (classifyByRules64_override prompt systemPrompt estimatedTokens config Hov)
      as [_ Hc].
    fold r in Hc. rewrite Hc.
    destruct (Math_max_floor
                (calibrateConfidence (Math_max (score r) (decimal 3 1))
                   (confidenceSteepness config))) as (Ha & Hb & Hd).
    { apply calibrateConfidence_inHalfOne; try assumption.
      apply Math_max_nonneg; [exact Nw|vm_compute; reflexivity]. }
    split; [split; assumption|]. intros _. exact Hd.
  - pose proof (classifyByRules64_boundary prompt systemPrompt estimatedTokens config Hbd)
      as Hc.
    fold r in Hc. rewrite Hc.
    split; [|intros Hov; lia].
    apply inHalfOne_le. apply calibrateConfidence_inHalfOne; try assumption.
    apply distanceFromBoundary_nonneg; assumption.
Qed.

(** X14.  The sigmoid calibration over binary64, for a finite positive
    steepness and a distance that is not negative: its value is a number
    from 1/2 to 1; it is 1/2 where [Math.exp] returns 1, as at distance
    zero, and exactly 1 wherever [Math.exp] returns at most [2 ^ -54].  So
    it does not increase strictly with the distance. *)
Theorem calibrateConfidence_saturates distance steepness :
  expWithinUnit Math_exp ->
  finite steepness = true -> lt zero steepness = true -> le zero distance = true ->
  let e := Math_exp (mul (neg steepness) distance) in
  le (decimal 5 1) (calibrateConfidence distance steepness) = true
  /\ le (calibrateConfidence distance steepness) (ofZ 1) = true
  /\ (e = ofZ 1 -> calibrateConfidence distance steepness = decimal 5 1)
  /\ (le e tiny = true -> calibrateConfidence distance steepness = ofZ 1).
Proof.
  intros Hexp Hf Hk Hd e.
  assert (Hx : le (mul (neg steepness) distance) zero = true)
    by (apply mul_neg_nonpos; assumption).
  destruct (Hexp _ Hx) as (Hv & H0 & H1). fold e in Hv, H0, H1.
  destruct (inHalfOne_le _ (calibrateConfidence_inHalfOne distance steepness Hexp Hf Hk Hd))
    as [Hlo Hhi].
  split; [exact Hlo|]. split; [exact Hhi|]. split.
  - intros He. unfold Router64.calibrateConfidence. fold e. rewrite He. reflexivity.
  - intros Ht. apply calibrateConfidence_one; assumption.
Qed.

End Rules64.

(** *** Sample runs *)

Import Host64.

Lemma sampleExp_withinUnit : expWithinUnit sampleExp.
Proof.
  assert (Hf : forall y,
             match List.find (fun kv => SFeqb (fst kv) y) expTable with
             | Some kv => unitRange (snd kv)
             | None => unitRange zero
             end).
  { intros y. destruct (List.find (fun kv => SFeqb (fst kv) y) expTable) as [kv|] eqn:E.
    - apply find_some in E as [Hin _].
      destruct Hin as [<-|[<-|[]]]; repeat split; vm_compute; reflexivity.
    - repeat split; reflexivity. }
  intros x Hx. unfold sampleExp.
  destruct x as [s|s| |s m e]; [repeat split; reflexivity| | |].
  - specialize (Hf (S754_infinity s)). match goal with |- context [List.find ?f ?l] => destruct (List.find f l) end; exact Hf.
  - specialize (Hf S754_nan). match goal with |- context [List.find ?f ?l] => destruct (List.find f l) end; exact Hf.
  - specialize (Hf (S754_finite s m e)). match goal with |- context [List.find ?f ?l] => destruct (List.find f l) end; exact Hf.
Qed.

Lemma classifyByRules_confidence_range_witness :
  let r := Router64.classifyByRules Host.toLowerCaseAscii numberToStringOpaque sampleExp
             Host.samplePrompt None (estimateTokens Host.samplePrompt)
             (scoringWith (ofZ 12)) in
  (le (decimal 5 1) (confidence r) = true /\ le (confidence r) (ofZ 1) = true)
  /\ le (decimal 85 2) (confidence r) = true.
Proof.
  destruct (classifyByRules_confidence_range Host.toLowerCaseAscii numberToStringOpaque
              sampleExp Host.samplePrompt None (estimateTokens Host.samplePrompt)
              (scoringWith (ofZ 12)))
    as [Hr Ho].
  - exact sampleExp_withinUnit.
  - vm_compute. reflexivity.
  - vm_compute. reflexivity.
  - split; vm_compute; reflexivity.
  - split; vm_compute; reflexivity.
  - split; vm_compute; reflexivity.
  - vm_compute. reflexivity.
  - vm_compute. reflexivity.
  - split; [exact Hr|]. apply Ho. vm_compute. lia.
Defined.

Lemma calibrateConfidence_saturates_witness :
  let c := Router64.calibrateConfidence sampleExp (decimal 8 2) (ofZ 1000) in
  le (decimal 5 1) c = true /\ c = ofZ 1.
Proof.
  destruct (calibrateConfidence_saturates sampleExp (decimal 8 2) (ofZ 1000))
    as (Hlo & _ & _ & Hone).
  - exact sampleExp_withinUnit.
  - vm_compute. reflexivity.
  - vm_compute. reflexivity.
  - vm_compute. reflexivity.
  - split; [exact Hlo|]. apply Hone. vm_compute. reflexivity.
Defined.

(** C10, counterexample.  With the steepness set to 1000 the prompt "hola"
    scores -0.08, at distance 0.08 from the boundary of SIMPLE; [Math.exp]
    is called at -80, and with any value of at most [2 ^ -54] there (the
    exponential is about 1.8e-35) the confidence returned is the number 1,
    not a number below 1. *)
Lemma classifyByRules_confidence_counterexample :
  let run Math_exp :=
    Router64.classifyByRules Host.toLowerCaseAscii numberToStringOpaque Math_exp
      plainPrompt None (estimateTokens plainPrompt) (scoringWith (ofZ 1000)) in
  (tier (run sampleExp) = Some Router.SIMPLE
   /\ confidence (run sampleExp) = ofZ 1
   /\ lt (confidence (run sampleExp)) (ofZ 1) = false)
  /\ (forall Math_exp,
        valid (Math_exp (neg (ofZ 80))) ->
        le zero (Math_exp (neg (ofZ 80))) = true ->
        le (Math_exp (neg (ofZ 80))) tiny = true ->
        confidence (run Math_exp) = ofZ 1).
Proof.
  intros run. split.
  - vm_compute. repeat split; reflexivity.
  - intros Math_exp Hv H0 Ht. unfold run.
    rewrite classifyByRules64_boundary by (vm_compute; lia).
    rewrite classifyByRules64_score.
    match goal with
    | |- Router64.calibrateConfidence _ ?d ?k = _ =>
        assert (Hx : mul (neg k) d = neg (ofZ 80)) by (vm_compute; reflexivity)
    end.
    apply calibrateConfidence_one; rewrite Hx; assumption.
Qed.

End Router64Facts.
